(** * hail-router: the route table, navigation and DOM reconciliation

    A shallow embedding of [src/router/router.ts] and of the deep-copy
    helper [clone.ts] it imports, with the properties of the route
    flattener, the matcher, the navigation controller and the tree
    reconciler proved over it. *)

From stdpp Require Import base option list strings.
From Stdlib Require Import Lia Ascii.

Open Scope string_scope.
Open Scope list_scope.
Open Scope nat_scope.

(** ** JavaScript values and the object heap

    Arrays and plain objects have identity: two references to the same
    array see each other's [push].  Objects therefore live in a heap and
    are reached through [VRef]; everything else is an immutable value. *)

(** The class an [action] resolves to, named by the tag of the elements
    that [new actionResult()] builds. *)
Definition Constructor := string.

(** [action?: () => Promise<void | undefined | typeof HTMLElement>]: the
    value the returned promise resolves with. *)
Definition Action := option Constructor.

Abbreviation loc := nat.

Inductive value :=
| VUndefined
| VNull
| VBoolean (b : bool)
| VNumber (n : Z)
| VString (s : string)
| VFunction (f : Action)
| VRef (l : loc).

Inductive object :=
| OArray (elems : list value)
| ODate (time : Z)
| OPlain (props : list (string * value)).

Abbreviation heap := (list object).

(** A new object is placed at the first unused address. *)
Definition alloc (o : object) (h : heap) : loc * heap := (List.length h, h ++ [o]).

Fixpoint get_prop (p : string) (props : list (string * value)) : value :=
  match props with
  | [] => VUndefined
  | (q, v) :: rest => if String.eqb p q then v else get_prop p rest
  end.

(** [obj[p] = v]: an existing property keeps its place in the
    enumeration order, a new one goes last. *)
Fixpoint put_prop (p : string) (v : value) (props : list (string * value))
  : list (string * value) :=
  match props with
  | [] => [(p, v)]
  | (q, w) :: rest =>
      if String.eqb p q then (q, v) :: rest else (q, w) :: put_prop p v rest
  end.

Definition read_prop (l : loc) (p : string) (h : heap) : option value :=
  match h !! l with
  | Some (OPlain props) => Some (get_prop p props)
  | _ => None
  end.

Definition write_prop (l : loc) (p : string) (v : value) (h : heap) : option heap :=
  match h !! l with
  | Some (OPlain props) => Some (<[l := OPlain (put_prop p v props)]> h)
  | _ => None
  end.

(** [obj[p].push(v)] *)
Definition push_prop (l : loc) (p : string) (v : value) (h : heap) : option heap :=
  match read_prop l p h with
  | Some (VRef a) =>
      match h !! a with
      | Some (OArray elems) => Some (<[a := OArray (elems ++ [v])]> h)
      | _ => None
      end
  | _ => None
  end.

(** ** clone.ts *)

Section DeepClone.
Variable deepClone : value → heap → option (value * heap).

(** [value.map(deepClone)] *)
Fixpoint array_map (elems : list value) (h : heap) : option (list value * heap) :=
  match elems with
  | [] => Some ([], h)
  | v :: rest =>
      '(v', h1) ← deepClone v h;
      '(rest', h2) ← array_map rest h1;
      Some (v' :: rest', h2)
  end.

(** [for (const p in value) clone[p] = deepClone(value[p]);] where
    [clone] is the object under construction: nothing else refers to
    it before [deepClone] returns, so it is kept as a local value and
    stored when it is returned. *)
Fixpoint for_in (props clone : list (string * value)) (h : heap)
  : option (list (string * value) * heap) :=
  match props with
  | [] => Some (clone, h)
  | (p, v) :: rest =>
      '(v', h1) ← deepClone v h;
      for_in rest (put_prop p v' clone) h1
  end.
End DeepClone.

(** [deepClone] recurses once per nesting level of the copied value; the
    first argument is the number of nested calls the engine's stack
    allows.  [None] is a thrown error: the stack is exhausted (as on a
    cyclic value) or a reference dangles. *)
Fixpoint deepClone (stack : nat) (v : value) (h : heap) : option (value * heap) :=
  match stack with
  | 0 => None
  | S stack =>
      match v with
      | VRef l =>
          o ← h !! l;
          match o with
          | OArray elems =>
              '(elems', h1) ← array_map (deepClone stack) elems h;
              let '(clone, h2) := alloc (OArray elems') h1 in
              Some (VRef clone, h2)
          | ODate time =>
              let '(clone, h1) := alloc (ODate time) h in
              Some (VRef clone, h1)
          | OPlain props =>
              '(props', h1) ← for_in (deepClone stack) props [] h;
              let '(clone, h2) := alloc (OPlain props') h1 in
              Some (VRef clone, h2)
          end
      | _ => Some (v, h)
      end
  end.

Definition clone (stack : nat) (l : loc) (h : heap) : option (loc * heap) :=
  '(v, h1) ← deepClone stack (VRef l) h;
  match v with VRef c => Some (c, h1) | _ => None end.

(** ** Route declarations and the flattened table *)

Unset Elimination Schemes.

Module Route.
Inductive t := Build {
  path : string;
  name : option string;
  component : option string;
  action : option Action;
  animation : value;
  redirect : option string;
  children : list t
}.
End Route.
Abbreviation Route := Route.t.

Set Elimination Schemes.

Definition of_string (s : option string) : value :=
  match s with Some s => VString s | None => VUndefined end.

Definition of_action (a : option Action) : value :=
  match a with Some f => VFunction f | None => VUndefined end.

(** The default value of the [route] parameter of [parseRoutes], built
    anew by every call that omits the argument. *)
Definition empty_route (h : heap) : loc * heap :=
  let '(p, h) := alloc (OArray []) h in
  let '(c, h) := alloc (OArray []) h in
  let '(a, h) := alloc (OArray []) h in
  let '(n, h) := alloc (OArray []) h in
  let '(r, h) := alloc (OArray []) h in
  alloc (OPlain [("path", VRef p); ("name", VUndefined); ("component", VRef c);
                 ("action", VRef a); ("animation", VRef n); ("redirect", VRef r)]) h.

Section ParseRoutes.
Variable stack : nat.

(** The callback of [routes.forEach]: [parsedRoutes] is the one array
    that every level of the recursion pushes to, [route] is the chain
    of the enclosing declaration. *)
Fixpoint parseRoute (r : Route) (parsedRoutes : list loc) (route : loc) (h : heap)
  : option (list loc * heap) :=
  '(clonedRoute, h) ← clone stack route h;
  h ← write_prop clonedRoute "name" (of_string (Route.name r)) h;
  h ← push_prop clonedRoute "path" (VString (Route.path r)) h;
  h ← push_prop clonedRoute "redirect" (of_string (Route.redirect r)) h;
  h ← push_prop clonedRoute "component" (of_string (Route.component r)) h;
  h ← push_prop clonedRoute "action" (of_action (Route.action r)) h;
  h ← push_prop clonedRoute "animation" (Route.animation r) h;
  let parsedRoutes := parsedRoutes ++ [clonedRoute] in
  (fix forEach (rs : list Route) (parsedRoutes : list loc) (h : heap) :=
     match rs with
     | [] => Some (parsedRoutes, h)
     | r' :: rs' =>
         '(parsedRoutes, h) ← parseRoute r' parsedRoutes clonedRoute h;
         forEach rs' parsedRoutes h
     end) (Route.children r) parsedRoutes h.

(** [parseRoutes(routes, parsedRoutes, route)]; an absent or empty
    [routes] returns [parsedRoutes] as it is. *)
Fixpoint parseRoutes (routes : list Route) (parsedRoutes : list loc) (route : loc)
    (h : heap) : option (list loc * heap) :=
  match routes with
  | [] => Some (parsedRoutes, h)
  | r :: rest =>
      '(parsedRoutes, h) ← parseRoute r parsedRoutes route h;
      parseRoutes rest parsedRoutes route h
  end.

(** [this.parseRoutes(routes)], as [setRoutes] calls it. *)
Definition parseRoutes0 (routes : list Route) (h : heap) : option (list loc * heap) :=
  let '(route, h) := empty_route h in
  parseRoutes routes [] route h.
End ParseRoutes.

(** ** Reading the table back

    [navigate] never writes to the table, so it works on what a read of
    each chain yields: the five sequences as lists.  An [animation] entry
    is read down to its leaves. *)

Unset Elimination Schemes.

Inductive snapshot :=
| SUndefined
| SNull
| SBoolean (b : bool)
| SNumber (n : Z)
| SString (s : string)
| SFunction (f : Action)
| SArray (elems : list snapshot)
| SDate (time : Z)
| SObject (props : list (string * snapshot)).

Set Elimination Schemes.

Fixpoint snapshot_of (depth : nat) (h : heap) (v : value) : option snapshot :=
  match depth with
  | 0 => None
  | S depth =>
      match v with
      | VUndefined => Some SUndefined
      | VNull => Some SNull
      | VBoolean b => Some (SBoolean b)
      | VNumber n => Some (SNumber n)
      | VString s => Some (SString s)
      | VFunction f => Some (SFunction f)
      | VRef l =>
          o ← h !! l;
          match o with
          | OArray elems => SArray <$> mapM (snapshot_of depth h) elems
          | ODate time => Some (SDate time)
          | OPlain props =>
              (* an object has each property once *)
              if decide (NoDup props.*1)
              then SObject <$> mapM (λ '(p, v), pair p <$> snapshot_of depth h v) props
              else None
          end
      end
  end.

Module InternalRoute.
Record t := Build {
  path : list string;
  name : option string;
  component : list (option string);
  action : list (option Action);
  animation : list snapshot;
  redirect : list (option string)
}.
End InternalRoute.
Abbreviation InternalRoute := InternalRoute.t.

Definition to_string (v : value) : option string :=
  match v with VString s => Some s | _ => None end.

Definition to_optional_string (v : value) : option (option string) :=
  match v with VUndefined => Some None | VString s => Some (Some s) | _ => None end.

Definition to_optional_action (v : value) : option (option Action) :=
  match v with VUndefined => Some None | VFunction f => Some (Some f) | _ => None end.

Definition read_array (h : heap) (v : value) : option (list value) :=
  match v with
  | VRef a => match h !! a with Some (OArray elems) => Some elems | _ => None end
  | _ => None
  end.

(** The chain stored at [l], with animations read [depth] levels deep. *)
Definition read_chain (depth : nat) (h : heap) (l : loc) : option InternalRoute :=
  match h !! l with
  | Some (OPlain props) =>
      path ← read_array h (get_prop "path" props) ≫= mapM to_string;
      name ← to_optional_string (get_prop "name" props);
      component ← read_array h (get_prop "component" props) ≫= mapM to_optional_string;
      action ← read_array h (get_prop "action" props) ≫= mapM to_optional_action;
      animation ← read_array h (get_prop "animation" props) ≫= mapM (snapshot_of depth h);
      redirect ← read_array h (get_prop "redirect" props) ≫= mapM to_optional_string;
      Some (InternalRoute.Build path name component action animation redirect)
  | _ => None
  end.

(** The addresses of the five sequence arrays of the chain at [l]. *)
Definition sequences (h : heap) (l : loc) : list loc :=
  match h !! l with
  | Some (OPlain props) =>
      omap (λ p, match get_prop p props with VRef a => Some a | _ => None end)
        ["path"; "component"; "action"; "animation"; "redirect"]
  | _ => []
  end.

Definition read_table (depth : nat) (h : heap) (table : list loc) : option (list InternalRoute) :=
  mapM (read_chain depth h) table.

(** ** The matcher *)

(** [r.path.join('/')] *)
Definition join (sep : string) (l : list string) : string := String.concat sep l.

Section Matcher.
(** [pattern_test pathname route] stands for
    [new URLPattern({ pathname, baseURL }).test(route, baseURL)], with
    [baseURL] the origin of the page. *)
Variable pattern_test : string → string → bool.

Definition matches (route : string) (r : InternalRoute) : bool :=
  pattern_test (join "/" (InternalRoute.path r)) route.

Definition getMatchingRoute (routes : list InternalRoute) (route : string)
  : option InternalRoute :=
  find (matches route) routes.
End Matcher.

(** The table that [setRoutes] stores for declarations without
    animations, as [navigate] reads it; [[]] if [parseRoutes] throws. *)
Definition table_of (routes : list Route) : list InternalRoute :=
  default [] ('(table, h) ← parseRoutes0 3 routes []; read_table 1 h table).

Definition plain_route (path : string) : Route :=
  Route.Build path None None None VUndefined None [].

(** A matcher to run the examples with: ['*'] matches every route, any
    other pattern the routes equal to it up to a leading ['/']. *)
Definition literal_test (pathname route : string) : bool :=
  String.eqb pathname "*" ||
  String.eqb pathname
    (match route with String "/"%char rest => rest | _ => route end).


(** ** The DOM under the outlet

    Every node has an identity [nid]; an element has a tag, the
    [__routeAnimation] attached by the router ([SUndefined] when there is
    none) and its child nodes, in document order.  [CharacterData] is a
    text or comment node. *)

Unset Elimination Schemes.

Inductive Node :=
| Element (nid : nat) (tagName : string) (routeAnimation : snapshot) (childNodes : list Node)
| CharacterData (nid : nat) (data : string).

Set Elimination Schemes.

Definition nid (n : Node) : nat :=
  match n with Element i _ _ _ => i | CharacterData i _ => i end.

Definition tagName (n : Node) : option string :=
  match n with Element _ t _ _ => Some t | CharacterData _ _ => None end.

Definition routeAnimation (n : Node) : snapshot :=
  match n with Element _ _ a _ => a | CharacterData _ _ => SUndefined end.

Definition childNodes (n : Node) : list Node :=
  match n with Element _ _ _ cs => cs | CharacterData _ _ => [] end.

Definition with_childNodes (n : Node) (cs : list Node) : Node :=
  match n with Element i t a _ => Element i t a cs | CharacterData _ _ => n end.

Definition is_element (n : Node) : bool :=
  match n with Element _ _ _ _ => true | CharacterData _ _ => false end.

(** [parent.children] *)
Definition children (n : Node) : list Node := filter is_element (childNodes n).

(** [parent.firstElementChild] *)
Definition firstElementChild (n : Node) : option Node := head (children n).

(** What the animation engine and the DOM are asked to do, in order;
    [StopAnimations] and [AnimateTo] stand for the awaited calls, which
    have resolved when the next event starts. *)
Inductive Event :=
| StopAnimations (el : nat)
| AnimateTo (el : nat) (keyframes options : snapshot)
| Remove (el : nat)
| InsertAfterBegin (parent el : nat).

(** [value?.[p]] *)
Definition member (p : string) (s : snapshot) : snapshot :=
  match s with
  | SObject props => default SUndefined (snd <$> find (λ q, String.eqb p q.1) props)
  | _ => SUndefined
  end.

Definition truthy (s : snapshot) : bool :=
  match s with
  | SUndefined | SNull => false
  | SBoolean b => b
  | SNumber n => negb (n =? 0)%Z
  | SString s => negb (String.eqb s "")
  | _ => true
  end.

(** [if (anim) { await stopAnimations(el); await animateTo(el, anim.keyframes, anim.options); }] *)
Definition animate (el : Node) (anim : snapshot) : list Event :=
  if truthy anim
  then [StopAnimations (nid el);
        AnimateTo (nid el) (member "keyframes" anim) (member "options" anim)]
  else [].

Definition removeRouteElement (el : Node) : list Event :=
  animate el (member "hide" (routeAnimation el)) ++ [Remove (nid el)].

(** [reversedRouteNodeRemoval(node, removeParent)]: the [while] loop
    takes the first child, tears it down and removes it, until no child
    is left; the result is what the calls do, in order. *)
Fixpoint reversedRouteNodeRemoval (node : Node) (removeParent : bool) : list Event :=
  match node with
  | Element _ _ _ childNodes =>
      (fix loop (remaining : list Node) : list Event :=
         match remaining with
         | [] => []
         | child :: remaining =>
             reversedRouteNodeRemoval child false ++ removeRouteElement child ++ loop remaining
         end) childNodes
  | CharacterData _ _ => []
  end ++ (if removeParent then removeRouteElement node else []).

Definition invalid (nodeToInsert : Node) (el : Node) : bool :=
  bool_decide (tagName el ≠ tagName nodeToInsert).

(** The child nodes around the first element among them. *)
Fixpoint split_firstElementChild (nodes : list Node) : option (list Node * Node * list Node) :=
  match nodes with
  | [] => None
  | n :: nodes =>
      if is_element n then Some ([], n, nodes)
      else '(before, child, after) ← split_firstElementChild nodes;
           Some (n :: before, child, after)
  end.

(** [replaceRouteNodes(parent, depth)] for [chain] the part of
    [componentChain] from [depth] on: the result is [parent] as the call
    leaves it, and what the call does. *)
Fixpoint replaceRouteNodes_from (chain : list Node) (parent : Node) : Node * list Event :=
  match chain with
  | [] => (with_childNodes parent [], reversedRouteNodeRemoval parent false)
  | nodeToInsert :: chain =>
      let invalidNodes := filter (invalid nodeToInsert) (children parent) in
      let removals := invalidNodes ≫= (λ el, reversedRouteNodeRemoval el true) in
      (* the child nodes of [parent] once the invalid ones are removed *)
      let kept :=
        filter (λ n, negb (is_element n && invalid nodeToInsert n)) (childNodes parent) in
      match split_firstElementChild kept with
      | Some (before, child, after) =>
          let '(child', events) := replaceRouteNodes_from chain child in
          (with_childNodes parent (before ++ child' :: after), removals ++ events)
      | None =>
          let '(inserted, events) := replaceRouteNodes_from chain nodeToInsert in
          (with_childNodes parent (inserted :: kept),
           removals ++ [InsertAfterBegin (nid parent) (nid nodeToInsert)] ++
           animate nodeToInsert (member "show" (routeAnimation nodeToInsert)) ++ events)
      end
  end.

(** [replaceRouteNodes(parent, depth)] *)
Definition replaceRouteNodes (componentChain : list Node) (parent : Node) (depth : nat)
  : Node * list Event :=
  replaceRouteNodes_from (drop depth componentChain) parent.


(** ** The navigation controller *)

(** This check is used to prevent infinite redirects. *)
Definition MAX_REDIRECTIONS : nat := 200.

(** The state of a router between two steps: the outlet with what is
    mounted under it, the table, the route last given to
    [history.setRoute], whether the promise in [updateComplete] is
    resolved, and [redirectionCount].  [nextId] is the identity that the
    next created element gets. *)
Record Router := {
  outlet : Node;
  routes : list InternalRoute;
  location : string;
  updateComplete : bool;
  redirectionCount : nat;
  nextId : nat
}.

(** What an invocation of [navigate] returns when it returns:
    [ResolverResult] is the value of [resolver(true)]. *)
Inductive Returned :=
| ResolverResult
| RoutePath (route : string).

(** How the promise of an invocation of [navigate] ends; [Pending] is a
    promise that is never settled. *)
Inductive Settled :=
| Fulfilled (value : Returned)
| Rejected (reason : string)
| Pending.

(** [document.createElement(name)]: in an HTML document the [tagName]
    is the name in ASCII upper case.  The names are taken to be valid
    element names: for the empty string and for any other name that is
    not one, [createElement] throws, which rejects the promise of the
    invocation before the redirect is looked at and before anything is
    mounted, and leaves the promise in [updateComplete] unresolved.
    Tables with such a component name are not covered by
    [component_element] and the functions that use it. *)
Definition upper (c : ascii) : ascii :=
  let n := nat_of_ascii c in
  if (97 <=? n) && (n <=? 122) then ascii_of_nat (n - 32) else c.

Fixpoint uppercase (s : string) : string :=
  match s with
  | EmptyString => EmptyString
  | String c s => String (upper c) (uppercase s)
  end.

Definition createElement (id : nat) (name : string) : Node :=
  Element id (uppercase name) SUndefined [].

(** One turn of the loop that builds [componentChain], for an action
    that returns and a component name that [createElement] accepts. *)
Definition component_element (futureRoute : InternalRoute) (id i : nat) : Node :=
  let component := mjoin (InternalRoute.component futureRoute !! i) in
  let actionResult := mjoin (mjoin (InternalRoute.action futureRoute !! i)) in
  let el :=
    match actionResult with
    | Some constructor => Element id constructor SUndefined []
    | None => createElement id (default "div" component)
    end in
  match el with
  | Element id tag _ cs =>
      Element id tag (default SUndefined (InternalRoute.animation futureRoute !! i)) cs
  | _ => el
  end.

Definition componentChain (futureRoute : InternalRoute) (next : nat) : list Node :=
  (λ i, component_element futureRoute (next + i) i) <$>
    seq 0 (length (InternalRoute.component futureRoute)).

(** [futureRoute.redirect.at(-1)], when it is not [undefined] *)
Definition whereToRedirect (futureRoute : InternalRoute) : option string :=
  mjoin (last (InternalRoute.redirect futureRoute)).

Definition circular : string := "Circular redirections detected.".

(** The state that a redirecting invocation leaves to the invocation it
    starts: the counter incremented, its own promise resolved. *)
Definition redirected (st : Router) (next : nat) : Router :=
  {| outlet := outlet st; routes := routes st; location := location st;
     updateComplete := true; redirectionCount := S (redirectionCount st);
     nextId := next |}.

(** The state after the [throw]: the promise that the invocation stored
    in [updateComplete] is never resolved. *)
Definition thrown (st : Router) (next : nat) : Router :=
  {| outlet := outlet st; routes := routes st; location := location st;
     updateComplete := false; redirectionCount := redirectionCount st;
     nextId := next |}.

(** The state after [history.setRoute(route)], the reconciliation,
    [resolver(true)] and [this.redirectionCount = 0]. *)
Definition settled_on (st : Router) (route : string) (outlet' : Node) (next : nat) : Router :=
  {| outlet := outlet'; routes := routes st; location := route;
     updateComplete := true; redirectionCount := 0; nextId := next |}.

Section Navigate.
Variable pattern_test : string → string → bool.

(** An invocation of [navigate] and the invocations it starts, run to
    their end: the result is how the promise of each invocation ends
    (first the one of this invocation, then those of the invocations it
    starts, in order), what is done to the DOM and asked of the
    animation engine, and the state left behind.

    An invocation first awaits [updateComplete]; when that promise is
    never resolved it stays suspended.  The invocation that a redirect
    starts awaits the promise of its caller, which the caller resolves
    in its next statement: it runs when its caller has returned.
    [replaceRouteNodes(this.outlet)], which the invocation does not
    await, is run to its end: the events and the outlet are those of the
    time at which the reconciliation has finished, and the promise of
    the invocation may be settled before.  [navigate_from_until] below
    has the state at an earlier time.

    The first argument bounds the number of nested invocations. *)
Fixpoint navigate_from (fuel : nat) (route : string) (st : Router)
  : option (list Settled * list Event * Router) :=
  match fuel with
  | 0 => None
  | S fuel =>
      if negb (updateComplete st) then Some ([Pending], [], st) else
      match getMatchingRoute pattern_test (routes st) route with
      | None => Some ([Fulfilled ResolverResult], [], st)
      | Some futureRoute =>
          let chain := componentChain futureRoute (nextId st) in
          let next := nextId st + length chain in
          match whereToRedirect futureRoute with
          | Some target =>
              if MAX_REDIRECTIONS <? redirectionCount st
              then Some ([Rejected circular], [], thrown st next)
              else
                '(settled, events, st') ← navigate_from fuel target (redirected st next);
                Some (Fulfilled ResolverResult :: settled, events, st')
          | None =>
              let '(outlet', events) := replaceRouteNodes chain (outlet st) 0 in
              Some ([Fulfilled (RoutePath route)], events, settled_on st route outlet' next)
          end
      end
  end.

(** [navigate(route)]: a chain of redirects has at most
    [MAX_REDIRECTIONS + 2] invocations. *)
Definition navigate (route : string) (st : Router)
  : option (list Settled * list Event * Router) :=
  navigate_from (S (S MAX_REDIRECTIONS - redirectionCount st)) route st.

(** Where a redirect of [route] leads, and the route after [n]
    redirects. *)
Definition redirectTarget (routes : list InternalRoute) (route : string) : option string :=
  getMatchingRoute pattern_test routes route ≫= whereToRedirect.

Fixpoint hops (routes : list InternalRoute) (n : nat) (route : string) : option string :=
  match n with
  | 0 => Some route
  | S n => redirectTarget routes route ≫= hops routes n
  end.

End Navigate.

(** ** A reconciliation that is still running

    [navigate] does not await [replaceRouteNodes(this.outlet)]: the call
    runs until its first [await] that has to wait, the promise of the
    invocation is settled, and the reconciliation goes on afterwards.
    The functions below are the reconciliation as it stands when
    [awaited] of the [await]s that it reaches have been resumed.  A call
    gives what it leaves of its node, what it has done so far, and
    [Some] of what is left of [awaited] when it has returned, [None]
    when it is suspended.  An awaited call of the animation engine is an
    event when it is made. *)

(** The [await] of a call that has returned is resumed, or not yet. *)
Definition resume (unspent : option nat) : option nat :=
  match unspent with Some (S awaited) => Some awaited | _ => None end.

Definition animate_until (awaited : nat) (el : Node) (anim : snapshot)
  : list Event * option nat :=
  if truthy anim
  then
    match awaited with
    | 0 => ([StopAnimations (nid el)], None)
    | 1 => ([StopAnimations (nid el);
             AnimateTo (nid el) (member "keyframes" anim) (member "options" anim)], None)
    | S (S awaited) =>
        ([StopAnimations (nid el);
          AnimateTo (nid el) (member "keyframes" anim) (member "options" anim)], Some awaited)
    end
  else ([], Some awaited).

(** The element is [None] once [el.remove()] is done. *)
Definition removeRouteElement_until (awaited : nat) (el : Node)
  : option Node * list Event * option nat :=
  match animate_until awaited el (member "hide" (routeAnimation el)) with
  | (events, Some awaited) => (None, events ++ [Remove (nid el)], Some awaited)
  | (events, None) => (Some el, events, None)
  end.

Fixpoint reversedRouteNodeRemoval_until (awaited : nat) (node : Node) (removeParent : bool)
  : option Node * list Event * option nat :=
  let '(remaining, events, unspent) :=
    match node with
    | Element _ _ _ childNodes =>
        (fix loop (awaited : nat) (remaining : list Node) {struct remaining}
           : list Node * list Event * option nat :=
           match remaining with
           | [] => ([], [], Some awaited)
           | child :: remaining =>
               let '(child', events1, unspent1) :=
                 reversedRouteNodeRemoval_until awaited child false in
               match resume unspent1 with
               | None => (option_list child' ++ remaining, events1, None)
               | Some awaited =>
                   let '(child', events2, unspent2) :=
                     removeRouteElement_until awaited (default child child') in
                   match resume unspent2 with
                   | None => (option_list child' ++ remaining, events1 ++ events2, None)
                   | Some awaited =>
                       let '(remaining, events3, unspent3) := loop awaited remaining in
                       (remaining, events1 ++ events2 ++ events3, unspent3)
                   end
               end
           end) awaited childNodes
    | CharacterData _ _ => ([], [], Some awaited)
    end in
  let node := with_childNodes node remaining in
  match unspent with
  | None => (Some node, events, None)
  | Some awaited =>
      if removeParent
      then
        let '(node, events', unspent) := removeRouteElement_until awaited node in
        (node, events ++ events', resume unspent)
      else (Some node, events, Some awaited)
  end.

(** [for (const el of invalidNodes) await this.reversedRouteNodeRemoval(el, true)],
    along the child nodes of the parent: the result starts with the
    child nodes that are unspent. *)
Fixpoint invalidNodes_until (awaited : nat) (nodeToInsert : Node) (childNodes : list Node)
  : list Node * list Event * option nat :=
  match childNodes with
  | [] => ([], [], Some awaited)
  | el :: childNodes =>
      if is_element el && invalid nodeToInsert el
      then
        let '(el', events1, unspent1) := reversedRouteNodeRemoval_until awaited el true in
        match resume unspent1 with
        | None => (option_list el' ++ childNodes, events1, None)
        | Some awaited =>
            let '(childNodes, events2, unspent2) :=
              invalidNodes_until awaited nodeToInsert childNodes in
            (childNodes, events1 ++ events2, unspent2)
        end
      else
        let '(childNodes, events, unspent) := invalidNodes_until awaited nodeToInsert childNodes in
        (el :: childNodes, events, unspent)
  end.

Fixpoint replaceRouteNodes_until (awaited : nat) (chain : list Node) (parent : Node)
  : Node * list Event * option nat :=
  match chain with
  | [] =>
      let '(parent', events, unspent) := reversedRouteNodeRemoval_until awaited parent false in
      (default parent parent', events, resume unspent)
  | nodeToInsert :: chain =>
      let '(kept, events1, unspent1) :=
        invalidNodes_until awaited nodeToInsert (childNodes parent) in
      match unspent1 with
      | None => (with_childNodes parent kept, events1, None)
      | Some awaited =>
          match split_firstElementChild kept with
          | Some (before, child, after) =>
              let '(child', events2, unspent2) := replaceRouteNodes_until awaited chain child in
              (with_childNodes parent (before ++ child' :: after), events1 ++ events2,
               resume unspent2)
          | None =>
              let insertion := InsertAfterBegin (nid parent) (nid nodeToInsert) in
              let '(events2, unspent2) :=
                animate_until awaited nodeToInsert
                  (member "show" (routeAnimation nodeToInsert)) in
              match unspent2 with
              | None =>
                  (with_childNodes parent (nodeToInsert :: kept),
                   events1 ++ [insertion] ++ events2, None)
              | Some awaited =>
                  let '(inserted, events3, unspent3) :=
                    replaceRouteNodes_until awaited chain nodeToInsert in
                  (with_childNodes parent (inserted :: kept),
                   events1 ++ [insertion] ++ events2 ++ events3, resume unspent3)
              end
          end
      end
  end.

Section NavigateUntil.
Variable pattern_test : string → string → bool.
Variable awaited : nat.

(** [navigate_from], with the state as it is when the [await]s of the
    invocations have been resumed and [awaited] of the [await]s of the
    reconciliation: the events are what has been done by then, and the
    last component tells whether the reconciliation, if one was started,
    has run to its end. *)
Fixpoint navigate_from_until (fuel : nat) (route : string) (st : Router)
  : option (list Settled * list Event * Router * bool) :=
  match fuel with
  | 0 => None
  | S fuel =>
      if negb (updateComplete st) then Some ([Pending], [], st, true) else
      match getMatchingRoute pattern_test (routes st) route with
      | None => Some ([Fulfilled ResolverResult], [], st, true)
      | Some futureRoute =>
          let chain := componentChain futureRoute (nextId st) in
          let next := nextId st + length chain in
          match whereToRedirect futureRoute with
          | Some target =>
              if MAX_REDIRECTIONS <? redirectionCount st
              then Some ([Rejected circular], [], thrown st next, true)
              else
                '(settled, events, st', finished) ←
                  navigate_from_until fuel target (redirected st next);
                Some (Fulfilled ResolverResult :: settled, events, st', finished)
          | None =>
              let '(outlet', events, unspent) :=
                replaceRouteNodes_until awaited chain (outlet st) in
              Some ([Fulfilled (RoutePath route)], events,
                    settled_on st route outlet' next, bool_decide (is_Some unspent))
          end
      end
  end.

Definition navigate_until (route : string) (st : Router)
  : option (list Settled * list Event * Router * bool) :=
  navigate_from_until (S (S MAX_REDIRECTIONS - redirectionCount st)) route st.

End NavigateUntil.

(** ** Setting the router up *)

(** [route-history-base.js]: what the router asks of its historian. *)
Class RouteHistory (H : Type) := {
  getRoute : H → string;
  setRoute : string → H → H;
  clearHistory : H → H
}.

Module Fields.
(** The three fields that the setters assign; each is [undefined] until
    its setter is called. *)
Record t (H : Type) := Build {
  outlet : option Node;
  routes : option (list loc);
  history : option H
}.
Arguments Build {H}.
Arguments outlet {H}.
Arguments routes {H}.
Arguments history {H}.
End Fields.

Section Setup.
Context {H : Type} `{!RouteHistory H}.

(** [new Router()] *)
Definition constructed : Fields.t H := Fields.Build None None None.

(** [this.location()] *)
Definition current_location (history : H) : string := getRoute history.

(** [initialize()]: the fields as the call leaves them, and the routes
    of the invocations of [navigate] that it starts. *)
Definition initialize (this : Fields.t H) : Fields.t H * list string :=
  match Fields.routes this, Fields.outlet this, Fields.history this with
  | Some routes, Some outlet, Some history =>
      let history := clearHistory history in
      (Fields.Build (Some outlet) (Some routes) (Some history), [current_location history])
  | _, _, _ => (this, [])
  end.

Definition setHistorian (historian : H) (this : Fields.t H) : Fields.t H :=
  Fields.Build (Fields.outlet this) (Fields.routes this) (Some historian).

(** [setOutlet(element)]: [shadowRoot] is the content of the shadow root
    of [element], if it has one, and [slot] the identity of the element
    that [document.createElement('slot')] makes; the result holds the
    shadow root as the call leaves it. *)
Definition setOutlet (slot : nat) (element : Node) (shadowRoot : option (list Node))
    (this : Fields.t H) : Fields.t H * option (list Node) * list string :=
  let this := Fields.Build (Some element) (Fields.routes this) (Fields.history this) in
  let shadowRoot := (λ childNodes, childNodes ++ [createElement slot "slot"]) <$> shadowRoot in
  let '(this, started) := initialize this in
  (this, shadowRoot, started).

(** [setRoutes(routes)]; [None] when [parseRoutes] throws. *)
Definition setRoutes (stack : nat) (routes : list Route) (this : Fields.t H) (h : heap)
  : option (Fields.t H * heap * list string) :=
  '(table, h) ← parseRoutes0 stack routes h;
  let this := Fields.Build (Fields.outlet this) (Some table) (Fields.history this) in
  let '(this, started) := initialize this in
  Some (this, h, started).

(** A call of one of the setters. *)
Inductive Call :=
| SetHistorian (historian : H)
| SetOutlet (slot : nat) (element : Node) (shadowRoot : option (list Node))
| SetRoutes (routes : list Route).

(** Calls made one after the other, without a navigation running in
    between: the fields and the heap as the calls leave them, and the
    routes of the invocations of [navigate] started, in order. *)
Fixpoint calls (stack : nat) (cs : list Call) (this : Fields.t H) (h : heap)
  : option (Fields.t H * heap * list string) :=
  match cs with
  | [] => Some (this, h, [])
  | c :: cs =>
      '(this, h, started) ←
        match c with
        | SetHistorian historian => Some (setHistorian historian this, h, [])
        | SetOutlet slot element shadowRoot =>
            let '(this, _, started) := setOutlet slot element shadowRoot this in
            Some (this, h, started)
        | SetRoutes routes => setRoutes stack routes this h
        end;
      '(this, h, later) ← calls stack cs this h;
      Some (this, h, started ++ later)
  end.
End Setup.

Definition home_away : list Route :=
  [Route.Build "home" None (Some "home-view") None VUndefined None [];
   Route.Build "away" None None None VUndefined (Some "home") []].

(** A router with its table and an empty outlet, at rest. *)
Definition ready (routes : list Route) : Router :=
  {| outlet := Element 0 "DIV" SUndefined []; routes := table_of routes;
     location := ""; updateComplete := true; redirectionCount := 0; nextId := 1 |}.

(** [{path:'a', redirect:'a'}] *)
Definition self_loop : list Route :=
  [Route.Build "a" None None None VUndefined (Some "a") []].


(** * Properties of the embedding *)

(** ** The declared nodes, in pre-order

    The depth of a node is the number of its ancestors; [preorder] lists
    the nodes of a tree parent first, then the children in the declared
    order, each with its depth and its ancestors (outermost first). *)

Lemma Route_ind (P : Route → Prop) :
  (∀ p n c a an rd ch, Forall P ch → P (Route.Build p n c a an rd ch)) →
  ∀ r, P r.
Proof.
  intros H. fix IH 1. intros [p n c a an rd ch]. apply H.
  induction ch as [|r ch IHch]; constructor; [apply IH|exact IHch].
Qed.

Fixpoint preorder (depth : nat) (ancestors : list Route) (r : Route)
  : list (nat * list Route * Route) :=
  (depth, ancestors, r) ::
  flat_map (preorder (S depth) (ancestors ++ [r])) (Route.children r).

Definition declared (routes : list Route) : list (nat * list Route * Route) :=
  flat_map (preorder 0 []) routes.

(** ** The flattener, unfolded at a node *)

Lemma parseRoute_eq stack r parsedRoutes route h :
  parseRoute stack r parsedRoutes route h =
    '(clonedRoute, h) ← clone stack route h;
    h ← write_prop clonedRoute "name" (of_string (Route.name r)) h;
    h ← push_prop clonedRoute "path" (VString (Route.path r)) h;
    h ← push_prop clonedRoute "redirect" (of_string (Route.redirect r)) h;
    h ← push_prop clonedRoute "component" (of_string (Route.component r)) h;
    h ← push_prop clonedRoute "action" (of_action (Route.action r)) h;
    h ← push_prop clonedRoute "animation" (Route.animation r) h;
    parseRoutes stack (Route.children r) (parsedRoutes ++ [clonedRoute]) clonedRoute h.
Proof.
  destruct r as [p n c a an rd ch]; simpl.
  destruct (clone stack route h) as [[cl h1]|]; simpl; [|done].
  repeat (match goal with |- context [mbind _ ?x] => destruct x as [?h|]; simpl; [|done] end).
  match goal with |- context [parseRoutes _ _ _ _ ?h] => generalize h end.
  generalize (parsedRoutes ++ [cl]).
  induction ch as [|r' rs IH]; intros pr h'; simpl; [done|].
  destruct (parseRoute stack r' pr cl h') as [[pr' h'']|]; simpl; [|done].
  apply IH.
Qed.


(** ** Frame properties of [deepClone] *)

(** Two heaps that hold the same objects at the addresses in [P]. *)
Definition agree (P : loc → Prop) (h1 h2 : heap) : Prop :=
  ∀ l, P l → h1 !! l = h2 !! l.

Lemma agree_weaken (P Q : loc → Prop) h1 h2 :
  (∀ l, Q l → P l) → agree P h1 h2 → agree Q h1 h2.
Proof. intros HQ H l Hl. apply H, HQ, Hl. Qed.

Lemma agree_prefix (h1 h2 : heap) :
  h1 `prefix_of` h2 → agree (λ l, l < length h1) h1 h2.
Proof.
  intros [k ->] l Hl. by rewrite lookup_app_l.
Qed.

Lemma mapM_Some_impl {A B} (f g : A → option B) (l : list A) (k : list B) :
  (∀ x y, f x = Some y → g x = Some y) →
  mapM f l = Some k → mapM g l = Some k.
Proof.
  intros Hfg H. apply mapM_Some. apply mapM_Some in H.
  eapply Forall2_impl; [exact H|]. exact Hfg.
Qed.

(** A snapshot only depends on the objects that exist when it is taken. *)
Lemma snapshot_agree n : ∀ (h h2 : heap) v t,
  snapshot_of n h v = Some t →
  agree (λ l, l < length h) h h2 →
  snapshot_of n h2 v = Some t.
Proof.
  induction n as [|n IH]; intros h h2 v t Hs Hag; [done|].
  destruct v; simpl in *; try done.
  destruct (h !! l) as [o|] eqn:Hl; simpl in *; [|done].
  rewrite <- (Hag l), Hl by (by eapply lookup_lt_Some); simpl.
  destruct o as [elems|time|props]; [|done|].
  - apply fmap_Some in Hs as (ts & Hm & ->).
    erewrite mapM_Some_impl; [done| |exact Hm]. intros; by eapply IH.
  - destruct (decide (NoDup props.*1)); [|done].
    apply fmap_Some in Hs as (ts & Hm & ->).
    erewrite mapM_Some_impl; [done| |exact Hm].
    intros [p v] y Hy; simpl in *.
    apply fmap_Some in Hy as (t & Ht & ->). by erewrite IH.
Qed.

Lemma snapshot_prefix n (h h2 : heap) v t :
  snapshot_of n h v = Some t → h `prefix_of` h2 → snapshot_of n h2 v = Some t.
Proof. intros Hs Hp. eapply snapshot_agree; [exact Hs|]. by apply agree_prefix. Qed.

(** [confined lo hi n h v t]: the value [v] reads as [t] in every heap
    that holds what [h] holds between [lo] and [hi]. *)
Definition confined (lo hi n : nat) (h : heap) (v : value) (t : snapshot) : Prop :=
  ∀ h2, agree (λ l, lo ≤ l < hi) h h2 → snapshot_of n h2 v = Some t.

Lemma confined_weaken lo hi lo' hi' n (h h' : heap) v t :
  confined lo hi n h v t →
  lo' ≤ lo → hi ≤ hi' → hi ≤ length h → h `prefix_of` h' →
  confined lo' hi' n h' v t.
Proof.
  intros Hc Hlo Hhi Hlen Hp h2 Hag. apply Hc. intros l Hl.
  rewrite <- Hag by lia. apply agree_prefix; [done|lia].
Qed.

Lemma put_prop_fresh p v props :
  p ∉ props.*1 → put_prop p v props = props ++ [(p, v)].
Proof.
  induction props as [|[q w] props IH]; simpl; [done|].
  intros Hp. apply not_elem_of_cons in Hp as [Hne Hp].
  destruct (String.eqb_spec p q); [done|]. by rewrite IH.
Qed.

Section DeepCloneStep.
Variable n : nat.
Hypothesis IH : ∀ v (h : heap) t,
  snapshot_of n h v = Some t →
  ∃ v' h', deepClone n v h = Some (v', h') ∧ h `prefix_of` h' ∧
           confined (length h) (length h') n h' v' t.

Lemma array_map_spec : ∀ elems (h : heap) ts,
  Forall2 (λ v t, snapshot_of n h v = Some t) elems ts →
  ∃ elems' h', array_map (deepClone n) elems h = Some (elems', h') ∧
    h `prefix_of` h' ∧
    ∀ h2, agree (λ l, length h ≤ l < length h') h' h2 →
          Forall2 (λ v t, snapshot_of n h2 v = Some t) elems' ts.
Proof.
  induction elems as [|v elems IHl]; intros h ts HF.
  - apply Forall2_nil_inv_l in HF as ->. exists [], h. simpl. eauto.
  - apply Forall2_cons_inv_l in HF as (t & ts' & Hv & HF' & ->).
    destruct (IH _ _ _ Hv) as (v' & h1 & Hd & Hp1 & Hc1).
    destruct (IHl h1 ts') as (elems' & h2 & Ha & Hp2 & Hc2).
    { eapply Forall2_impl; [exact HF'|]. intros ?? Hs; by apply (snapshot_prefix _ _ _ _ _ Hs). }
    exists (v' :: elems'), h2. simpl. rewrite Hd; simpl. rewrite Ha; simpl.
    pose proof (prefix_length _ _ Hp1). pose proof (prefix_length _ _ Hp2).
    split; [done|]. split; [by etrans|].
    intros h3 Hag. constructor.
    + eapply (confined_weaken _ _ _ _ _ _ h2) in Hc1; [by apply Hc1|..]; done || lia.
    + apply Hc2. eapply agree_weaken; [|exact Hag]. simpl; lia.
Qed.

Lemma for_in_spec : ∀ props clone (h : heap) ts,
  Forall2 (λ '(p, v) '(q, t), p = q ∧ snapshot_of n h v = Some t) props ts →
  NoDup (clone.*1 ++ props.*1) →
  ∃ props' h', for_in (deepClone n) props clone h = Some (clone ++ props', h') ∧
    h `prefix_of` h' ∧
    ∀ h2, agree (λ l, length h ≤ l < length h') h' h2 →
          Forall2 (λ '(p, v) '(q, t), p = q ∧ snapshot_of n h2 v = Some t) props' ts.
Proof.
  induction props as [|[q v] props IHl]; intros clone h ts HF Hnd.
  - apply Forall2_nil_inv_l in HF as ->.
    exists [], h. simpl. rewrite app_nil_r. eauto.
  - apply Forall2_cons_inv_l in HF as ([q' t] & ts' & [<- Hv] & HF' & ->).
    destruct (IH _ _ _ Hv) as (v' & h1 & Hd & Hp1 & Hc1).
    destruct (IHl (clone ++ [(q, v')]) h1 ts') as (props' & h2 & Ha & Hp2 & Hc2).
    { eapply Forall2_impl; [exact HF'|]. intros [] [] [? Hs]; split; [done|].
      by apply (snapshot_prefix _ _ _ _ _ Hs). }
    { rewrite fmap_app; simpl. by rewrite <- app_assoc. }
    exists ((q, v') :: props'), h2. simpl. rewrite Hd; simpl.
    rewrite put_prop_fresh.
    2:{ simpl in Hnd. apply NoDup_app in Hnd as (_ & Hnd & _).
        intros Hin. apply (Hnd _ Hin). by left. }
    rewrite Ha, <- app_assoc; simpl.
    pose proof (prefix_length _ _ Hp1). pose proof (prefix_length _ _ Hp2).
    split; [done|]. split; [by etrans|].
    intros h3 Hag. constructor.
    + split; [done|].
      eapply (confined_weaken _ _ _ _ _ _ h2) in Hc1; [by apply Hc1|..]; done || lia.
    + apply Hc2. eapply agree_weaken; [|exact Hag]. simpl; lia.
Qed.
End DeepCloneStep.

Lemma mapM_props_Forall2 (f : value → option snapshot)
    (props : list (string * value)) (ts : list (string * snapshot)) :
  mapM (λ '(p, v), pair p <$> f v) props = Some ts ↔
  Forall2 (λ '(p, v) '(q, t), p = q ∧ f v = Some t) props ts.
Proof.
  rewrite mapM_Some.
  split; intros H; (eapply Forall2_impl; [exact H|]); intros [p v] [q t].
  - intros (t' & Ht & [= -> ->])%fmap_Some. done.
  - intros [-> Ht]. by rewrite Ht.
Qed.

Lemma Forall2_props_keys (f : value → option snapshot)
    (props : list (string * value)) (ts : list (string * snapshot)) :
  Forall2 (λ '(p, v) '(q, t), p = q ∧ f v = Some t) props ts → props.*1 = ts.*1.
Proof.
  induction 1 as [|[p v] [q t] ?? [-> _] _ IH]; simpl; [done|]. by f_equal.
Qed.

(** Copying a value that reads as [t] succeeds; it only adds objects, and
    the copy reads as [t] through the added objects alone. *)
Lemma deepClone_spec n : ∀ v (h : heap) t,
  snapshot_of n h v = Some t →
  ∃ v' h', deepClone n v h = Some (v', h') ∧ h `prefix_of` h' ∧
           confined (length h) (length h') n h' v' t.
Proof.
  induction n as [|n IH]; intros v h t Hs; [done|].
  destruct v; simpl in Hs |- *;
    try (eexists _, h; split; [done|]; split; [done|]; by intros h2 _).
  destruct (h !! l) as [[elems|time|props]|] eqn:Hl; simpl in *; [| | |done].
  - apply fmap_Some in Hs as (ts & Hm & ->). apply mapM_Some in Hm.
    destruct (array_map_spec n IH _ _ _ Hm) as (elems' & h1 & -> & Hp & Hc); simpl.
    eexists _, _. split; [done|]. split; [by apply prefix_app_r|].
    intros h2 Hag. simpl.
    rewrite <- (Hag (length h1)), lookup_app_r, Nat.sub_diag by
      (pose proof (prefix_length _ _ Hp); rewrite ?length_app; simpl; lia).
    simpl. apply fmap_Some. exists ts. split; [|done]. apply mapM_Some, Hc.
    intros l' Hl'. rewrite <- Hag by (rewrite length_app; simpl; lia).
    by rewrite lookup_app_l by lia.
  - inversion Hs; subst. eexists _, _. split; [done|]. split; [by apply prefix_app_r|].
    intros h2 Hag. simpl.
    rewrite <- (Hag (length h)), lookup_app_r, Nat.sub_diag by
      (rewrite ?length_app; simpl; lia).
    done.
  - destruct (decide (NoDup props.*1)) as [Hnd|]; [|done].
    apply fmap_Some in Hs as (ts & Hm & ->). apply mapM_props_Forall2 in Hm.
    destruct (for_in_spec n IH _ [] _ _ Hm Hnd) as (props' & h1 & -> & Hp & Hc); simpl.
    eexists _, _. split; [done|]. split; [by apply prefix_app_r|].
    intros h2 Hag. simpl.
    rewrite <- (Hag (length h1)), lookup_app_r, Nat.sub_diag by
      (pose proof (prefix_length _ _ Hp); rewrite ?length_app; simpl; lia).
    simpl.
    assert (Forall2 (λ '(p, v) '(q, t), p = q ∧ snapshot_of n h2 v = Some t) props' ts) as HF.
    { apply Hc. intros l' Hl'. rewrite <- Hag by (rewrite length_app; simpl; lia).
      by rewrite lookup_app_l by lia. }
    rewrite decide_True.
    2:{ rewrite (Forall2_props_keys _ _ _ HF), <- (Forall2_props_keys _ _ _ Hm). done. }
    apply fmap_Some. exists ts. split; [|done]. by apply mapM_props_Forall2.
Qed.

(** ** The chains built by [parseRoutes] *)

Definition is_primitive (v : value) : Prop :=
  match v with VRef _ => False | _ => True end.

Lemma array_map_primitive n (elems : list value) (h : heap) :
  0 < n → Forall is_primitive elems →
  array_map (deepClone n) elems h = Some (elems, h).
Proof.
  intros Hn. destruct n as [|n]; [lia|].
  induction 1 as [|v elems Hv _ IH]; [done|].
  change (array_map (deepClone (S n)) (v :: elems) h) with
    ('(v', h1) ← deepClone (S n) v h;
     '(rest', h2) ← array_map (deepClone (S n)) elems h1; Some (v' :: rest', h2)).
  replace (deepClone (S n) v h) with (Some (v, h)) by (by destruct v).
  cbn [mbind option_bind]. by rewrite IH.
Qed.

Lemma prefix_insert (hb h : heap) a o :
  hb `prefix_of` h → length hb ≤ a → hb `prefix_of` <[a := o]> h.
Proof.
  intros [k ->] Ha. rewrite insert_app_r_alt by done. by apply prefix_app_r.
Qed.

Section Chains.
(** [h0] is the heap in which the declarations live, [d] the number of
    levels to which their animations are read. *)
Variables (d : nat) (h0 : heap).

Definition declared_animation (r : Route) : snapshot :=
  default SUndefined (snapshot_of d h0 (Route.animation r)).

(** The chain of a declaration, from the declarations on the way to it:
    [line] is the list of its ancestors, outermost first, and then the
    declaration itself. *)
Definition chain_of (line : list Route) : InternalRoute :=
  {| InternalRoute.path := Route.path <$> line;
     InternalRoute.name := last line ≫= Route.name;
     InternalRoute.component := Route.component <$> line;
     InternalRoute.action := Route.action <$> line;
     InternalRoute.animation := declared_animation <$> line;
     InternalRoute.redirect := Route.redirect <$> line |}.

Definition chain_props (a1 a2 a3 a4 a5 : loc) (name : option string)
  : list (string * value) :=
  [("path", VRef a1); ("name", of_string name); ("component", VRef a2);
   ("action", VRef a3); ("animation", VRef a4); ("redirect", VRef a5)].

(** The chain [ch] is stored at [c], with its five arrays and the
    copies its animations refer to between [lo] and [hi]. *)
Definition stored (h : heap) (c : loc) (ch : InternalRoute) (lo hi : nat) : Prop :=
  ∃ a1 a2 a3 a4 a5 vs,
    h !! c = Some (OPlain (chain_props a1 a2 a3 a4 a5 (InternalRoute.name ch))) ∧
    NoDup [a1; a2; a3; a4; a5; c] ∧
    Forall (λ a, lo ≤ a < hi) [a1; a2; a3; a4; a5; c] ∧
    length h0 ≤ lo ∧ hi ≤ length h ∧
    h !! a1 = Some (OArray (VString <$> InternalRoute.path ch)) ∧
    h !! a2 = Some (OArray (of_string <$> InternalRoute.component ch)) ∧
    h !! a3 = Some (OArray (of_action <$> InternalRoute.action ch)) ∧
    h !! a4 = Some (OArray vs) ∧
    h !! a5 = Some (OArray (of_string <$> InternalRoute.redirect ch)) ∧
    ∀ h2, agree (λ l, l < length h0 ∨ (lo ≤ l < hi ∧ l ∉ [a1; a2; a3; a4; a5; c])) h h2 →
          Forall2 (λ v t, snapshot_of d h2 v = Some t) vs (InternalRoute.animation ch).

Lemma stored_prefix h h' c ch lo hi :
  stored h c ch lo hi → h `prefix_of` h' → stored h' c ch lo hi.
Proof.
  intros (a1 & a2 & a3 & a4 & a5 & vs & Hc & Hnd & Hr & Hlo & Hhi & H1 & H2 & H3 & H4 & H5 & Han) Hp.
  pose proof (prefix_length _ _ Hp).
  assert (lo ≤ a1 < hi) by (by inversion Hr).
  exists a1, a2, a3, a4, a5, vs.
  repeat split; try (by eapply prefix_lookup_Some); try done; try lia.
  intros h2 Hag. apply Han. intros l Hl. rewrite <- Hag by done.
  apply agree_prefix; [done|]. destruct Hl as [?|[? _]]; lia.
Qed.
Lemma lookup_alloc (h : heap) o : (h ++ [o]) !! length h = Some o.
Proof. by rewrite lookup_app_r, Nat.sub_diag. Qed.

Lemma deepClone_array n (h h1 : heap) a elems elems' :
  h !! a = Some (OArray elems) →
  array_map (deepClone n) elems h = Some (elems', h1) →
  deepClone (S n) (VRef a) h = Some (VRef (length h1), h1 ++ [OArray elems']).
Proof. intros Ha Hm. simpl. rewrite Ha. simpl. by rewrite Hm. Qed.

Lemma deepClone_plain n (h h1 : heap) l props props' :
  h !! l = Some (OPlain props) →
  for_in (deepClone n) props [] h = Some (props', h1) →
  deepClone (S n) (VRef l) h = Some (VRef (length h1), h1 ++ [OPlain props']).
Proof. intros Hl Hm. simpl. rewrite Hl. simpl. by rewrite Hm. Qed.

Lemma deepClone_primitive n v (h : heap) :
  is_primitive v → deepClone (S n) v h = Some (v, h).
Proof. by destruct v. Qed.

Lemma for_in_cons f p v rest clone (h : heap) :
  for_in f ((p, v) :: rest) clone h =
    '(v', h1) ← f v h; for_in f rest (put_prop p v' clone) h1.
Proof. done. Qed.

Lemma Forall_primitive_string (l : list string) : Forall is_primitive (VString <$> l).
Proof. apply Forall_fmap, Forall_true. done. Qed.

Lemma Forall_primitive_of_string l : Forall is_primitive (of_string <$> l).
Proof. apply Forall_fmap, Forall_true. by intros []. Qed.

Lemma Forall_primitive_of_action l : Forall is_primitive (of_action <$> l).
Proof. apply Forall_fmap, Forall_true. by intros []. Qed.

Hypothesis d_pos : 0 < d.

(** [clone(route)]: the copy is a chain of its own, stored entirely in
    the objects that the call adds. *)
Lemma clone_stored h route ch lo hi :
  stored h route ch lo hi →
  ∃ c h', clone (S (S d)) route h = Some (c, h') ∧ h `prefix_of` h' ∧
          stored h' c ch (length h) (length h').
Proof.
  intros (a1 & a2 & a3 & a4 & a5 & vs & Hc & Hnd & Hr & Hlo & Hhi & H1 & H2 & H3 & H4 & H5 & Han).
  set (h1 := h ++ [OArray (VString <$> InternalRoute.path ch)]).
  set (h2 := h1 ++ [OArray (of_string <$> InternalRoute.component ch)]).
  set (h3 := h2 ++ [OArray (of_action <$> InternalRoute.action ch)]).
  assert (h `prefix_of` h3) as Hp3 by (do 3 apply prefix_app_r; done).
  destruct (array_map_spec d (deepClone_spec d) vs h3 (InternalRoute.animation ch))
    as (vs' & h4 & Hm & Hp4 & Hc4).
  { apply Han. intros l Hl. apply agree_prefix; [done|].
    assert (lo ≤ a1 < hi) by (by inversion Hr). destruct Hl as [?|[? _]]; lia. }
  set (h5 := h4 ++ [OArray vs']).
  set (h6 := h5 ++ [OArray (of_string <$> InternalRoute.redirect ch)]).
  set (props' := chain_props (length h) (length h1) (length h2) (length h4) (length h5)
                   (InternalRoute.name ch)).
  exists (length h6), (h6 ++ [OPlain props']).
  apply Forall_cons in Hr as [R1 Hr]. apply Forall_cons in Hr as [R2 Hr].
  apply Forall_cons in Hr as [R3 Hr]. apply Forall_cons in Hr as [R4 Hr].
  apply Forall_cons in Hr as [R5 Hr]. apply Forall_cons in Hr as [Rc _].
  assert (for_in (deepClone (S d)) (chain_props a1 a2 a3 a4 a5 (InternalRoute.name ch)) [] h
          = Some (props', h6)) as Hfor.
  { unfold chain_props at 1. rewrite for_in_cons.
    rewrite (deepClone_array d h h a1 _ _ H1
               (array_map_primitive _ _ _ d_pos (Forall_primitive_string _))).
    cbn [mbind option_bind]. fold h1. rewrite for_in_cons.
    rewrite deepClone_primitive by (by destruct (InternalRoute.name ch)).
    cbn [mbind option_bind]. rewrite for_in_cons.
    rewrite (deepClone_array d h1 h1 a2 _ _
               (prefix_lookup_Some _ _ _ _ H2 (prefix_app_r _ _ _ (reflexivity _)))
               (array_map_primitive _ _ _ d_pos (Forall_primitive_of_string _))).
    cbn [mbind option_bind]. fold h2. rewrite for_in_cons.
    rewrite (deepClone_array d h2 h2 a3 _ _
               (prefix_lookup_Some _ _ _ _ H3 (prefix_app_r _ _ _ (prefix_app_r _ _ _ (reflexivity _))))
               (array_map_primitive _ _ _ d_pos (Forall_primitive_of_action _))).
    cbn [mbind option_bind]. fold h3. rewrite for_in_cons.
    rewrite (deepClone_array d h3 h4 a4 _ _ (prefix_lookup_Some _ _ _ _ H4 Hp3) Hm).
    cbn [mbind option_bind]. fold h5. rewrite for_in_cons.
    rewrite (deepClone_array d h5 h5 a5 _ _
               (prefix_lookup_Some _ _ _ _ H5
                  (transitivity Hp3 (transitivity Hp4 (prefix_app_r _ _ _ (reflexivity _)))))
               (array_map_primitive _ _ _ d_pos (Forall_primitive_of_string _))).
    cbn [mbind option_bind]. fold h6. done. }
  split.
  { unfold clone. by rewrite (deepClone_plain _ _ _ _ _ _ Hc Hfor). }
  set (hf := h6 ++ [OPlain props']).
  assert (h6 `prefix_of` hf) as P6 by (by apply prefix_app_r).
  assert (h5 `prefix_of` hf) as P5 by (etrans; [|exact P6]; by apply prefix_app_r).
  assert (h4 `prefix_of` hf) as P4 by (etrans; [|exact P5]; by apply prefix_app_r).
  assert (h3 `prefix_of` hf) as P3 by (by etrans).
  assert (h2 `prefix_of` hf) as P2 by (etrans; [|exact P3]; by apply prefix_app_r).
  assert (h1 `prefix_of` hf) as P1 by (etrans; [|exact P2]; by apply prefix_app_r).
  assert (length h1 = S (length h)) as L1 by (unfold h1; rewrite length_app; simpl; lia).
  assert (length h2 = S (length h1)) as L2 by (unfold h2; rewrite length_app; simpl; lia).
  assert (length h3 = S (length h2)) as L3 by (unfold h3; rewrite length_app; simpl; lia).
  assert (length h3 ≤ length h4) as L4 by (by apply prefix_length).
  assert (length h5 = S (length h4)) as L5 by (unfold h5; rewrite length_app; simpl; lia).
  assert (length h6 = S (length h5)) as L6 by (unfold h6; rewrite length_app; simpl; lia).
  assert (length hf = S (length h6)) as Lf by (unfold hf; rewrite length_app; simpl; lia).
  split; [by etrans|].
  exists (length h), (length h1), (length h2), (length h4), (length h5), vs'.
  split; [apply lookup_alloc|].
  split.
  { repeat (apply NoDup_cons; split; [rewrite ?elem_of_cons, elem_of_nil; lia|]).
    apply NoDup_nil_2. }
  split; [repeat (apply Forall_cons; split; [lia|]); apply Forall_nil_2|].
  split; [lia|]. split; [lia|].
  split; [eapply prefix_lookup_Some; [apply lookup_alloc|exact P1]|].
  split; [eapply prefix_lookup_Some; [apply lookup_alloc|exact P2]|].
  split; [eapply prefix_lookup_Some; [apply lookup_alloc|exact P3]|].
  split; [eapply prefix_lookup_Some; [apply lookup_alloc|exact P5]|].
  split; [eapply prefix_lookup_Some; [apply lookup_alloc|exact P6]|].
  intros hx Hag. apply Hc4. intros l Hl.
  rewrite <- Hag.
  - apply agree_prefix; [done|lia].
  - right. split; [lia|]. rewrite !elem_of_cons, elem_of_nil. lia.
Qed.


(** The chain of a child: the parent's sequences, one entry longer. *)
Definition extend (ch : InternalRoute) (r : Route) : InternalRoute :=
  {| InternalRoute.path := InternalRoute.path ch ++ [Route.path r];
     InternalRoute.name := Route.name r;
     InternalRoute.component := InternalRoute.component ch ++ [Route.component r];
     InternalRoute.action := InternalRoute.action ch ++ [Route.action r];
     InternalRoute.animation := InternalRoute.animation ch ++ [declared_animation r];
     InternalRoute.redirect := InternalRoute.redirect ch ++ [Route.redirect r] |}.

Lemma chain_of_snoc line r : chain_of (line ++ [r]) = extend (chain_of line) r.
Proof. unfold chain_of, extend. rewrite !fmap_app, last_snoc. done. Qed.

Lemma push_prop_eq (h : heap) c props p a elems v :
  h !! c = Some (OPlain props) → get_prop p props = VRef a →
  h !! a = Some (OArray elems) →
  push_prop c p v h = Some (<[a := OArray (elems ++ [v])]> h).
Proof. intros Hc Hp Ha. unfold push_prop, read_prop. by rewrite Hc, Hp, Ha. Qed.

(** The six statements of [parseRoutes] that follow [clone(route)]. *)
Definition append_route (c : loc) (r : Route) (h : heap) : option heap :=
  h ← write_prop c "name" (of_string (Route.name r)) h;
  h ← push_prop c "path" (VString (Route.path r)) h;
  h ← push_prop c "redirect" (of_string (Route.redirect r)) h;
  h ← push_prop c "component" (of_string (Route.component r)) h;
  h ← push_prop c "action" (of_action (Route.action r)) h;
  push_prop c "animation" (Route.animation r) h.

(* [lia] splits on every disequality in the context: the fifteen
   between the addresses are put aside first. *)
Local Ltac lia_heap :=
  repeat match goal with H : _ ≠ _ |- _ => clear H end; lia.

Lemma append_route_stored h c ch lo hi r :
  stored h c ch lo hi → h0 `prefix_of` h →
  is_Some (snapshot_of d h0 (Route.animation r)) →
  ∃ h', append_route c r h = Some h' ∧ length h' = length h ∧
        (∀ hb, hb `prefix_of` h → length hb ≤ lo → hb `prefix_of` h') ∧
        stored h' c (extend ch r) lo hi.
Proof.
  intros (a1 & a2 & a3 & a4 & a5 & vs & Hc & Hnd & Hr & Hlo & Hhi & H1 & H2 & H3 & H4 & H5 & Han)
    Hp0 [t Ht].
  pose proof Hnd as Hne.
  rewrite !NoDup_cons, !not_elem_of_cons, !elem_of_nil in Hne.
  apply Forall_cons in Hr as [R1 Hr]. apply Forall_cons in Hr as [R2 Hr].
  apply Forall_cons in Hr as [R3 Hr]. apply Forall_cons in Hr as [R4 Hr].
  apply Forall_cons in Hr as [R5 Hr]. apply Forall_cons in Hr as [Rc _].
  destruct Hne as ((N12 & N13 & N14 & N15 & N1c & _) & (N23 & N24 & N25 & N2c & _) &
                   (N34 & N35 & N3c & _) & (N45 & N4c & _) & (N5c & _) & _).
  pose proof (lookup_lt_Some _ _ _ Hc) as Lc.
  pose proof (lookup_lt_Some _ _ _ H1) as L1. pose proof (lookup_lt_Some _ _ _ H2) as L2.
  pose proof (lookup_lt_Some _ _ _ H3) as L3. pose proof (lookup_lt_Some _ _ _ H4) as L4.
  pose proof (lookup_lt_Some _ _ _ H5) as L5.
  set (props' := chain_props a1 a2 a3 a4 a5 (Route.name r)).
  set (hA := <[c := OPlain props']> h).
  set (hB := <[a1 := OArray ((VString <$> InternalRoute.path ch) ++ [VString (Route.path r)])]> hA).
  set (hC := <[a5 := OArray ((of_string <$> InternalRoute.redirect ch) ++ [of_string (Route.redirect r)])]> hB).
  set (hD := <[a2 := OArray ((of_string <$> InternalRoute.component ch) ++ [of_string (Route.component r)])]> hC).
  set (hE := <[a3 := OArray ((of_action <$> InternalRoute.action ch) ++ [of_action (Route.action r)])]> hD).
  set (hF := <[a4 := OArray (vs ++ [Route.animation r])]> hE).
  assert (hA !! c = Some (OPlain props')) as HcA
    by (by apply list_lookup_insert_eq).
  exists hF. split.
  { unfold append_route, write_prop. rewrite Hc. cbn [mbind option_bind].
    change (put_prop "name" _ _) with props'. fold hA.
    erewrite (push_prop_eq hA c props' "path" a1); [|done|done|]; last first.
    { unfold hA. by rewrite list_lookup_insert_ne. }
    cbn [mbind option_bind]. fold hB.
    erewrite (push_prop_eq hB c props' "redirect" a5); [|..|done| ]; last first.
    { unfold hB, hA. by rewrite !list_lookup_insert_ne. }
    { unfold hB. by rewrite list_lookup_insert_ne. }
    cbn [mbind option_bind]. fold hC.
    erewrite (push_prop_eq hC c props' "component" a2); [|..|done| ]; last first.
    { unfold hC, hB, hA. by rewrite !list_lookup_insert_ne. }
    { unfold hC, hB. by rewrite !list_lookup_insert_ne. }
    cbn [mbind option_bind]. fold hD.
    erewrite (push_prop_eq hD c props' "action" a3); [|..|done| ]; last first.
    { unfold hD, hC, hB, hA. by rewrite !list_lookup_insert_ne. }
    { unfold hD, hC, hB. by rewrite !list_lookup_insert_ne. }
    cbn [mbind option_bind]. fold hE.
    erewrite (push_prop_eq hE c props' "animation" a4); [|..|done| ]; last first.
    { unfold hE, hD, hC, hB, hA. by rewrite !list_lookup_insert_ne. }
    { unfold hE, hD, hC, hB. by rewrite !list_lookup_insert_ne. }
    done. }
  assert (length hF = length h) as LF by (unfold hF, hE, hD, hC, hB, hA; by rewrite !length_insert).
  assert (∀ l, l ∉ [a1; a2; a3; a4; a5; c] → hF !! l = h !! l) as Hframe.
  { intros l Hl. rewrite !not_elem_of_cons in Hl.
    destruct Hl as (? & ? & ? & ? & ? & ? & _).
    unfold hF, hE, hD, hC, hB, hA. by rewrite !list_lookup_insert_ne by done. }
  split; [done|]. split.
  { intros hb Hb Hlen. unfold hF, hE, hD, hC, hB, hA.
    do 6 (apply prefix_insert; [|lia_heap]). done. }
  exists a1, a2, a3, a4, a5, (vs ++ [Route.animation r]). simpl.
  split.
  { unfold hF, hE, hD, hC, hB. by rewrite !list_lookup_insert_ne. }
  split; [done|].
  split; [repeat (apply Forall_cons; split; [lia_heap|]); apply Forall_nil_2|].
  split; [lia_heap|]. split; [lia_heap|].
  split.
  { unfold hF, hE, hD, hC. rewrite !list_lookup_insert_ne by done. unfold hB.
    rewrite list_lookup_insert_eq, fmap_app by (unfold hA; rewrite length_insert; lia_heap). done. }
  split.
  { unfold hF, hE. rewrite !list_lookup_insert_ne by done. unfold hD.
    rewrite list_lookup_insert_eq, fmap_app
      by (unfold hC, hB, hA; rewrite !length_insert; lia_heap). done. }
  split.
  { unfold hF. rewrite !list_lookup_insert_ne by done. unfold hE.
    rewrite list_lookup_insert_eq, fmap_app
      by (unfold hD, hC, hB, hA; rewrite !length_insert; lia_heap). done. }
  split.
  { unfold hF. rewrite list_lookup_insert_eq
      by (unfold hE, hD, hC, hB, hA; rewrite !length_insert; lia_heap). done. }
  split.
  { unfold hF, hE, hD. rewrite !list_lookup_insert_ne by done. unfold hC.
    rewrite list_lookup_insert_eq, fmap_app
      by (unfold hB, hA; rewrite !length_insert; lia_heap). done. }
  intros hx Hag. apply Forall2_app.
  - apply Han. intros l Hl. rewrite <- Hag by done.
    symmetry. apply Hframe. destruct Hl as [Hl|[_ Hl]]; [|done].
    rewrite !not_elem_of_cons, elem_of_nil. lia_heap.
  - constructor; [|constructor]. unfold declared_animation. rewrite Ht. simpl.
    eapply snapshot_agree; [exact Ht|].
    intros l Hl. rewrite <- Hag by (by left). rewrite Hframe.
    + by apply agree_prefix.
    + rewrite !not_elem_of_cons, elem_of_nil. lia_heap.
Qed.

Definition clonable (r : Route) : Prop :=
  is_Some (snapshot_of d h0 (Route.animation r)).

(** The chains at [cs] are those of the declarations [nodes], stored
    one after the other between [lo] and [hi]. *)
Fixpoint laid_out (h : heap) (lo hi : nat) (cs : list loc)
    (nodes : list (nat * list Route * Route)) : Prop :=
  match cs, nodes with
  | [], [] => lo = hi
  | c :: cs, (_, ancestors, r) :: nodes =>
      ∃ mid, stored h c (chain_of (ancestors ++ [r])) lo mid ∧
             laid_out h mid hi cs nodes
  | _, _ => False
  end.

Lemma laid_out_le h lo hi cs nodes : laid_out h lo hi cs nodes → lo ≤ hi.
Proof.
  revert lo nodes. induction cs as [|c cs IH]; intros lo [|[[k anc] r] nodes]; simpl; try done.
  { lia. }
  intros (mid & (a1 & ? & ? & ? & ? & ? & _ & _ & Hr & _) & Hl).
  apply IH in Hl. apply Forall_cons in Hr as [? _]. lia.
Qed.

Lemma laid_out_prefix h h' lo hi cs nodes :
  laid_out h lo hi cs nodes → h `prefix_of` h' → laid_out h' lo hi cs nodes.
Proof.
  intros Hl Hp. revert lo nodes Hl.
  induction cs as [|c cs IH]; intros lo [|[[k anc] r] nodes]; simpl; try done.
  intros (mid & Hs & Hl). exists mid. split; [by eapply stored_prefix|by apply IH].
Qed.

Lemma laid_out_app h lo mid hi cs1 cs2 nodes1 nodes2 :
  laid_out h lo mid cs1 nodes1 → laid_out h mid hi cs2 nodes2 →
  laid_out h lo hi (cs1 ++ cs2) (nodes1 ++ nodes2).
Proof.
  revert lo nodes1. induction cs1 as [|c cs1 IH]; intros lo [|[[k anc] r] nodes1]; simpl; try done.
  - by intros ->.
  - intros (m & Hs & Hl) H2. exists m. split; [done|]. by apply IH.
Qed.

Lemma parseRoute_append r pr route h :
  parseRoute (S (S d)) r pr route h =
    '(c, h) ← clone (S (S d)) route h;
    h ← append_route c r h;
    parseRoutes (S (S d)) (Route.children r) (pr ++ [c]) c h.
Proof.
  rewrite parseRoute_eq. destruct (clone _ route h) as [[c h1]|]; [|done].
  unfold append_route. simpl.
  repeat (match goal with |- context [mbind _ ?x] => destruct x as [?h|]; simpl; [|done] end).
  done.
Qed.

(** What [parseRoute] does on the tree [r]. *)
Definition flattens (r : Route) : Prop :=
  ∀ depth ancestors pr route h lo hi,
    h0 `prefix_of` h → stored h route (chain_of ancestors) lo hi →
    ∃ cs h', parseRoute (S (S d)) r pr route h = Some (pr ++ cs, h') ∧
             h `prefix_of` h' ∧
             laid_out h' (length h) (length h') cs (preorder depth ancestors r).

Lemma parseRoutes_ok rs : Forall flattens rs →
  ∀ depth ancestors pr route h lo hi,
    h0 `prefix_of` h → stored h route (chain_of ancestors) lo hi →
    ∃ cs h', parseRoutes (S (S d)) rs pr route h = Some (pr ++ cs, h') ∧
             h `prefix_of` h' ∧
             laid_out h' (length h) (length h') cs
               (flat_map (preorder depth ancestors) rs).
Proof.
  induction 1 as [|r rs Hr _ IH]; intros depth anc pr route h lo hi Hp0 Hs.
  - exists [], h. simpl. by rewrite app_nil_r.
  - destruct (Hr depth anc pr route h lo hi Hp0 Hs) as (cs1 & h1 & Hpr & Hp1 & Hl1).
    destruct (IH depth anc (pr ++ cs1) route h1 lo hi) as (cs2 & h2 & Hps & Hp2 & Hl2);
      [by etrans|by eapply stored_prefix|].
    exists (cs1 ++ cs2), h2. simpl. rewrite Hpr; simpl. rewrite Hps, app_assoc.
    split; [done|]. split; [by etrans|].
    eapply laid_out_app; [|exact Hl2]. by eapply laid_out_prefix.
Qed.

Fixpoint nodes (r : Route) : list Route := r :: flat_map nodes (Route.children r).

Lemma parseRoute_ok r : Forall clonable (nodes r) → flattens r.
Proof.
  induction r as [p n c a an rd ch IH] using Route_ind.
  intros Hcl depth anc pr route h lo hi Hp0 Hs.
  set (r := Route.Build p n c a an rd ch) in *.
  simpl in Hcl. apply Forall_cons in Hcl as [Hr Hch].
  assert (Forall flattens ch) as Hfl.
  { clear -IH Hch. induction IH as [|r' ch' Hr' _ IH']; [done|].
    simpl in Hch. apply Forall_app in Hch as [? ?]. constructor; auto. }
  rewrite parseRoute_append.
  destruct (clone_stored _ _ _ _ _ Hs) as (cl & h1 & -> & Hp1 & Hs1); simpl.
  destruct (append_route_stored _ _ _ _ _ r Hs1) as (h2 & -> & Hlen & Hframe & Hs2);
    [by etrans|done|]; simpl.
  rewrite <- chain_of_snoc in Hs2.
  destruct (parseRoutes_ok ch Hfl (S depth) (anc ++ [r]) (pr ++ [cl]) cl h2
              (length h) (length h1)) as (cs & h3 & -> & Hp3 & Hl3);
    [etrans; [exact Hp0|]; by apply Hframe|done|].
  exists (cl :: cs), h3. rewrite <- app_assoc. split; [done|].
  split; [etrans; [|exact Hp3]; by apply Hframe|].
  simpl. exists (length h1). rewrite <- Hlen at 2.
  split; [by eapply stored_prefix|done].
Qed.

Lemma lookup_app_plus (h k : heap) i : (h ++ k) !! (length h + i) = k !! i.
Proof. rewrite lookup_app_r by lia. f_equal. lia. Qed.

Lemma empty_route_stored :
  ∃ h1, empty_route h0 = (length h0 + 5, h1) ∧ h0 `prefix_of` h1 ∧
        length h1 = length h0 + 6 ∧
        stored h1 (length h0 + 5) (chain_of []) (length h0) (length h0 + 6).
Proof.
  unfold empty_route, alloc. rewrite <- !app_assoc. simpl.
  rewrite !length_app. simpl.
  replace (length h0 + 1 + 1 + 1 + 1 + 1) with (length h0 + 5) by lia.
  replace (length h0 + 1 + 1 + 1 + 1) with (length h0 + 4) by lia.
  replace (length h0 + 1 + 1 + 1) with (length h0 + 3) by lia.
  replace (length h0 + 1 + 1) with (length h0 + 2) by lia.
  eexists. split; [done|]. split; [by apply prefix_app_r|].
  split; [rewrite length_app; simpl; lia|].
  exists (length h0), (length h0 + 1), (length h0 + 2), (length h0 + 3), (length h0 + 4), [].
  split; [by rewrite lookup_app_plus|].
  split.
  { repeat (apply NoDup_cons; split; [rewrite ?elem_of_cons, elem_of_nil; lia|]).
    apply NoDup_nil_2. }
  split; [repeat (apply Forall_cons; split; [lia|]); apply Forall_nil_2|].
  split; [lia|]. split; [rewrite length_app; simpl; lia|].
  split; [by rewrite lookup_app_r, Nat.sub_diag by lia|].
  split; [by rewrite lookup_app_plus|]. split; [by rewrite lookup_app_plus|].
  split; [by rewrite lookup_app_plus|]. split; [by rewrite lookup_app_plus|].
  intros; constructor.
Qed.

(** [parseRoutes(routes)] on clonable declarations: the table holds
    the chains of the declared nodes, in pre-order, each stored in a
    region of its own. *)
Lemma parseRoutes0_ok routes :
  Forall clonable (flat_map nodes routes) →
  ∃ table h' lo, parseRoutes0 (S (S d)) routes h0 = Some (table, h') ∧
              h0 `prefix_of` h' ∧ length h0 ≤ lo ∧
              laid_out h' lo (length h') table (declared routes).
Proof.
  intros Hcl. unfold parseRoutes0.
  destruct empty_route_stored as (h1 & -> & Hp & Hlen & Hs).
  destruct (parseRoutes_ok routes) with (depth := 0) (ancestors := @nil Route) (pr := @nil loc)
    (route := length h0 + 5) (h := h1) (lo := length h0) (hi := length h0 + 6)
    as (cs & h2 & Hps & Hp2 & Hl); [|done|done|].
  { clear -Hcl d_pos. induction routes as [|r rs IH]; [done|].
    simpl in Hcl. apply Forall_app in Hcl as [? ?].
    constructor; [by apply parseRoute_ok|by apply IH]. }
  exists cs, h2, (length h1). split; [done|]. split; [by etrans|]. split; [lia|done].
Qed.

(** A stored chain reads as itself wherever its region and the
    declarations' heap are as they were. *)
Lemma stored_read h c ch lo hi hx :
  stored h c ch lo hi →
  agree (λ l, l < length h0 ∨ lo ≤ l < hi) h hx →
  read_chain d hx c = Some ch.
Proof.
  intros (a1 & a2 & a3 & a4 & a5 & vs & Hc & Hnd & Hr & Hlo & Hhi & H1 & H2 & H3 & H4 & H5 & Han) Hag.
  apply Forall_cons in Hr as [R1 Hr]. apply Forall_cons in Hr as [R2 Hr].
  apply Forall_cons in Hr as [R3 Hr]. apply Forall_cons in Hr as [R4 Hr].
  apply Forall_cons in Hr as [R5 Hr]. apply Forall_cons in Hr as [Rc _].
  unfold read_chain. rewrite <- (Hag c), Hc by auto. simpl.
  rewrite <- (Hag a1), H1 by auto. simpl.
  rewrite mapM_fmap_Some by done. simpl.
  replace (to_optional_string (of_string (InternalRoute.name ch)))
    with (Some (InternalRoute.name ch)) by (by destruct (InternalRoute.name ch)). simpl.
  rewrite <- (Hag a2), H2 by auto. simpl.
  rewrite mapM_fmap_Some by (by intros []). simpl.
  rewrite <- (Hag a3), H3 by auto. simpl.
  rewrite mapM_fmap_Some by (by intros []). simpl.
  rewrite <- (Hag a4), H4 by auto. simpl.
  erewrite (proj2 (mapM_Some _ _ _)); last first.
  { apply Han. intros l Hl. apply Hag. destruct Hl as [?|[? _]]; auto. }
  simpl. rewrite <- (Hag a5), H5 by auto. simpl.
  rewrite mapM_fmap_Some by (by intros []). simpl.
  by destruct ch.
Qed.

Lemma stored_sequences h c ch lo hi :
  stored h c ch lo hi →
  NoDup (sequences h c) ∧ Forall (λ a, length h0 ≤ a ∧ lo ≤ a < hi) (sequences h c) ∧
  length (sequences h c) = 5.
Proof.
  intros (a1 & a2 & a3 & a4 & a5 & vs & Hc & Hnd & Hr & Hlo & _).
  unfold sequences. rewrite Hc. simpl.
  split; [|split; [|done]].
  - apply (NoDup_app [a1; a2; a3; a4; a5] [c]) in Hnd. apply Hnd.
  - apply (Forall_app _ [a1; a2; a3; a4; a5] [c]) in Hr as [Hr _].
    eapply Forall_impl; [exact Hr|]. simpl; lia.
Qed.

Lemma laid_out_lookup h lo hi cs nodes i c :
  laid_out h lo hi cs nodes → cs !! i = Some c →
  ∃ k anc r lo' hi',
    nodes !! i = Some (k, anc, r) ∧ lo ≤ lo' ∧ hi' ≤ hi ∧
    stored h c (chain_of (anc ++ [r])) lo' hi' ∧
    laid_out h hi' hi (drop (S i) cs) (drop (S i) nodes).
Proof.
  revert lo nodes i.
  induction cs as [|c0 cs IH]; intros lo [|[[k anc] r] nodes] i; simpl; try done.
  intros (mid & Hs & Hl) Hi.
  assert (lo ≤ mid).
  { destruct Hs as (a1 & ? & ? & ? & ? & ? & _ & _ & Hr & _).
    apply Forall_cons in Hr as [? _]. lia. }
  destruct i as [|i]; simpl in *.
  - inversion Hi; subst. exists k, anc, r, lo, mid.
    pose proof (laid_out_le _ _ _ _ _ Hl). by rewrite !drop_0.
  - destruct (IH _ _ _ Hl Hi) as (k' & anc' & r' & lo' & hi' & ? & ? & ? & ? & ?).
    exists k', anc', r', lo', hi'. repeat split; try done; lia.
Qed.

(** Chains at different places of the table are stored apart. *)
Lemma laid_out_apart h lo hi cs nodes i j ci cj :
  laid_out h lo hi cs nodes → i < j → cs !! i = Some ci → cs !! j = Some cj →
  ∃ ki anci ri kj ancj rj loi hii loj hij,
    nodes !! i = Some (ki, anci, ri) ∧ nodes !! j = Some (kj, ancj, rj) ∧
    stored h ci (chain_of (anci ++ [ri])) loi hii ∧
    stored h cj (chain_of (ancj ++ [rj])) loj hij ∧ hii ≤ loj.
Proof.
  intros Hl Hij Hi Hj.
  destruct (laid_out_lookup _ _ _ _ _ _ _ Hl Hi)
    as (k & anc & r & loi & hii & Hni & _ & _ & Hsi & Hl').
  assert (drop (S i) cs !! (j - S i) = Some cj) as Hj'.
  { rewrite lookup_drop. rewrite <- Hj. f_equal. lia. }
  destruct (laid_out_lookup _ _ _ _ _ _ _ Hl' Hj')
    as (k' & anc' & r' & loj & hij & Hnj & ? & _ & Hsj & _).
  rewrite lookup_drop in Hnj. replace (S i + (j - S i)) with j in Hnj by lia.
  eauto 15.
Qed.

Lemma laid_out_Forall2 h lo hi cs nodes :
  laid_out h lo hi cs nodes →
  Forall2 (λ c '(_, anc, r), ∃ lo' hi', stored h c (chain_of (anc ++ [r])) lo' hi') cs nodes.
Proof.
  revert lo nodes.
  induction cs as [|c cs IH]; intros lo [|[[k anc] r] nodes]; simpl; try done.
  intros (mid & Hs & Hl). constructor; [eauto|by eapply IH].
Qed.
End Chains.

Lemma clonable_pos d h0 routes :
  Forall (clonable d h0) (flat_map nodes routes) → routes ≠ [] → 0 < d.
Proof.
  destruct routes as [|[p n c a an rd ch] rs]; [done|]. simpl.
  intros [[t Ht] _]%Forall_cons _. destruct d; [done|lia].
Qed.

Lemma preorder_depth r : ∀ k anc, length anc = k →
  Forall (λ '(k', anc', _), length anc' = k') (preorder k anc r).
Proof.
  induction r as [p n c a an rd ch IH] using Route_ind. intros k anc Hk. simpl.
  constructor; [done|]. apply Forall_flat_map.
  eapply Forall_impl; [exact IH|]. simpl. intros r Hr. apply Hr.
  rewrite length_app. simpl. lia.
Qed.

Lemma declared_depth routes :
  Forall (λ '(k, anc, _), length anc = k) (declared routes).
Proof.
  apply Forall_flat_map, Forall_true. intros r. by apply preorder_depth.
Qed.

Lemma preorder_length r k anc : length (preorder k anc r) = length (nodes r).
Proof.
  revert k anc. induction r as [p n c a an rd ch IH] using Route_ind. intros k anc.
  simpl. f_equal. generalize (S k). generalize (anc ++ [Route.Build p n c a an rd ch]).
  induction IH as [|r ch' Hr _ IH']; intros anc' k'; simpl; [done|].
  by rewrite !length_app, Hr, IH'.
Qed.

Lemma declared_length routes : length (declared routes) = length (flat_map nodes routes).
Proof.
  unfold declared. induction routes as [|r rs IH]; simpl; [done|].
  by rewrite !length_app, preorder_length, IH.
Qed.

(** The declarations of the example of the specification,
    [{path:'a', children:[{path:'b'},{path:'c'}]}], here with a fade
    animation on ['a'] and on ['c']. *)
Definition fade_heap : heap :=
  [OPlain [("opacity", VNumber 0)]; OArray [VRef 0]; OPlain [("duration", VNumber 100)];
   OPlain [("keyframes", VRef 1); ("options", VRef 2)];
   OPlain [("show", VRef 3); ("hide", VRef 3)]].

Definition abc_routes : list Route :=
  [Route.Build "a" None None None (VRef 4) None
     [Route.Build "b" None None None VUndefined None [];
      Route.Build "c" None None None (VRef 4) None []]].

#[global] Instance clonable_dec d h0 r : Decision (clonable d h0 r).
Proof. unfold clonable. apply _. Defined.

(** ** The flattener: one chain per declared node *)

(** C3. Flattening produces exactly one chain per declared node, internal
    nodes included, in pre-order; the five sequences of the chain of a
    node of depth [depth] have [depth + 1] entries each (and hold what the
    node and its ancestors declare). *)
Theorem parseRoutes_one_chain_per_node (d : nat) (h0 : heap) (routes : list Route) :
  Forall (clonable d h0) (flat_map nodes routes) →
  ∃ table h',
    parseRoutes0 (S (S d)) routes h0 = Some (table, h') ∧
    length table = length (flat_map nodes routes) ∧
    Forall2 (λ c '(depth, ancestors, r),
        ∃ ch, read_chain d h' c = Some ch ∧
              ch = chain_of d h0 (ancestors ++ [r]) ∧
              length (InternalRoute.path ch) = S depth ∧
              length (InternalRoute.component ch) = S depth ∧
              length (InternalRoute.action ch) = S depth ∧
              length (InternalRoute.animation ch) = S depth ∧
              length (InternalRoute.redirect ch) = S depth)
      table (declared routes).
Proof.
  intros Hcl.
  destruct (decide (routes = [])) as [->|Hne].
  { eexists [], _. split; [done|]. by split; [|constructor]. }
  assert (0 < d) as Hd by (by eapply clonable_pos).
  destruct (parseRoutes0_ok d h0 Hd routes Hcl) as (table & h' & lo & Hp & Hpre & Hlo & Hl).
  exists table, h'. split; [done|].
  apply laid_out_Forall2 in Hl.
  split; [by rewrite (Forall2_length _ _ _ Hl), declared_length|].
  apply Forall2_same_length_lookup_2; [by eapply Forall2_length|].
  intros i c [[depth anc] r] Hc Hn.
  pose proof (Forall2_lookup_lr _ _ _ _ _ _ Hl Hc Hn) as (lo' & hi' & Hs). simpl in Hs.
  pose proof (Forall_lookup_1 _ _ _ _ (declared_depth routes) Hn) as Hdepth. simpl in Hdepth.
  eexists. split; [by eapply stored_read|]. split; [done|].
  simpl. rewrite !length_fmap, length_app. simpl. lia.
Qed.

Lemma parseRoutes_one_chain_per_node_witness :
  Forall (clonable 5 fade_heap) (flat_map nodes abc_routes) ∧
  ∃ table h',
    parseRoutes0 7 abc_routes fade_heap = Some (table, h') ∧
    length table = length (flat_map nodes abc_routes) ∧
    Forall2 (λ c '(depth, ancestors, r),
        ∃ ch, read_chain 5 h' c = Some ch ∧
              ch = chain_of 5 fade_heap (ancestors ++ [r]) ∧
              length (InternalRoute.path ch) = S depth ∧
              length (InternalRoute.component ch) = S depth ∧
              length (InternalRoute.action ch) = S depth ∧
              length (InternalRoute.animation ch) = S depth ∧
              length (InternalRoute.redirect ch) = S depth)
      table (declared abc_routes).
Proof.
  assert (Forall (clonable 5 fade_heap) (flat_map nodes abc_routes)) as H
    by (refine (bool_decide_unpack _ _); vm_compute; exact I).
  split; [exact H|].
  exact (parseRoutes_one_chain_per_node 5 fade_heap abc_routes H).
Defined.

(** ** The flattener: chains share no sequence *)

(** C4. Distinct chains of a flattened table never share a sequence
    array: an array of one chain is not an array of another, and whatever
    is stored in place of it (any mutation of that array) leaves every
    other chain reading as the chain of its declaration. *)
Theorem chains_share_no_sequence (d : nat) (h0 : heap) (routes : list Route)
    (table : list loc) (h' : heap) :
  Forall (clonable d h0) (flat_map nodes routes) →
  parseRoutes0 (S (S d)) routes h0 = Some (table, h') →
  ∀ i j ci cj depth ancestors r,
    i ≠ j → table !! i = Some ci → table !! j = Some cj →
    declared routes !! j = Some (depth, ancestors, r) →
    length (sequences h' ci) = 5 ∧
    read_chain d h' cj = Some (chain_of d h0 (ancestors ++ [r])) ∧
    ∀ a, a ∈ sequences h' ci →
      (a ∉ sequences h' cj) ∧
      ∀ o, read_chain d (<[a := o]> h') cj = Some (chain_of d h0 (ancestors ++ [r])).
Proof.
  intros Hcl Hp i j ci cj depth anc r Hij Hi Hj Hn.
  assert (routes ≠ []) as Hne.
  { intros ->. vm_compute in Hp. inversion Hp; subst. done. }
  assert (0 < d) as Hd by (by eapply clonable_pos).
  destruct (parseRoutes0_ok d h0 Hd routes Hcl) as (table' & h'' & lo & Hp' & Hpre & Hlo & Hl).
  rewrite Hp in Hp'. inversion Hp'; subst table' h''. clear Hp'.
  assert (∃ chi loi hii loj hij,
            stored d h0 h' ci chi loi hii ∧
            stored d h0 h' cj (chain_of d h0 (anc ++ [r])) loj hij ∧
            (hii ≤ loj ∨ hij ≤ loi)) as (chi & loi & hii & loj & hij & Hsi & Hsj & Hapart).
  { destruct (decide (i < j)) as [Hlt|Hge].
    - destruct (laid_out_apart d h0 Hd _ _ _ _ _ _ _ _ _ Hl Hlt Hi Hj)
        as (ki & anci & ri & kj & ancj & rj & loi & hii & loj & hij & Hni & Hnj & Hsi & Hsj & Hle).
      rewrite Hn in Hnj. inversion Hnj; subst. eauto 10.
    - assert (j < i) as Hlt by lia.
      destruct (laid_out_apart d h0 Hd _ _ _ _ _ _ _ _ _ Hl Hlt Hj Hi)
        as (kj & ancj & rj & ki & anci & ri & loj & hij & loi & hii & Hnj & Hni & Hsj & Hsi & Hle).
      rewrite Hn in Hnj. inversion Hnj; subst. eauto 10. }
  destruct (stored_sequences d h0 Hd _ _ _ _ _ Hsi) as (_ & Hri & Hleni).
  destruct (stored_sequences d h0 Hd _ _ _ _ _ Hsj) as (_ & Hrj & _).
  split; [done|]. split; [by eapply stored_read|].
  intros a Ha.
  pose proof (proj1 (Forall_forall _ _) Hri a Ha) as [Ha0 Hai].
  split.
  - intros Haj. pose proof (proj1 (Forall_forall _ _) Hrj a Haj) as [_ ?]. lia.
  - intros o. eapply stored_read; [exact Hsj|].
    intros l Hl'. rewrite list_lookup_insert_ne; [done|]. lia.
Qed.

Lemma chains_share_no_sequence_witness :
  ∃ table h',
    Forall (clonable 5 fade_heap) (flat_map nodes abc_routes) ∧
    parseRoutes0 7 abc_routes fade_heap = Some (table, h') ∧
    1 ≠ 2 ∧ table !! 1 = Some 31 ∧ table !! 2 = Some 46 ∧
    declared abc_routes !! 2 =
      Some (1, [Route.Build "a" None None None (VRef 4) None
                  [Route.Build "b" None None None VUndefined None [];
                   Route.Build "c" None None None (VRef 4) None []]],
            Route.Build "c" None None None (VRef 4) None []) ∧
    length (sequences h' 31) = 5 ∧
    read_chain 5 h' 46 = Some (chain_of 5 fade_heap
      ([Route.Build "a" None None None (VRef 4) None
          [Route.Build "b" None None None VUndefined None [];
           Route.Build "c" None None None (VRef 4) None []]] ++
       [Route.Build "c" None None None (VRef 4) None []])) ∧
    ∀ a, a ∈ sequences h' 31 →
      (a ∉ sequences h' 46) ∧
      ∀ o, read_chain 5 (<[a := o]> h') 46 = Some (chain_of 5 fade_heap
        ([Route.Build "a" None None None (VRef 4) None
            [Route.Build "b" None None None VUndefined None [];
             Route.Build "c" None None None (VRef 4) None []]] ++
         [Route.Build "c" None None None (VRef 4) None []])).
Proof.
  assert (Forall (clonable 5 fade_heap) (flat_map nodes abc_routes)) as H
    by (refine (bool_decide_unpack _ _); vm_compute; exact I).
  destruct (parseRoutes0 7 abc_routes fade_heap) as [[table h']|] eqn:Hp;
    [|vm_compute in Hp; discriminate Hp].
  exists table, h'.
  assert (table = [16; 31; 46]) as Ht
    by (vm_compute in Hp; injection Hp as <- _; reflexivity).
  assert (table !! 1 = Some 31) as H1 by (rewrite Ht; reflexivity).
  assert (table !! 2 = Some 46) as H2 by (rewrite Ht; reflexivity).
  assert (1 ≠ 2) as Hne by lia.
  split; [exact H|]. split; [reflexivity|]. split; [exact Hne|].
  split; [exact H1|]. split; [exact H2|]. split; [reflexivity|].
  exact (chains_share_no_sequence 5 fade_heap abc_routes table h' H Hp 1 2 31 46 _ _ _
           Hne H1 H2 eq_refl).
Defined.

(** C5. Matching returns the first chain of the table, in its stored
    order, whose joined path pattern matches: none of the chains before it
    matches.  When no pattern matches the result is [None] ([undefined]),
    not an error.  With the declarations [[{path:'*'}, {path:'users'}]]
    the route ['/users'] is matched by the wildcard chain, which comes
    first. *)
Theorem getMatchingRoute_first_in_table_order (pattern_test : string → string → bool)
    (routes : list InternalRoute) (route : string) :
  match getMatchingRoute pattern_test routes route with
  | Some r =>
      ∃ before after,
        routes = before ++ r :: after ∧
        matches pattern_test route r = true ∧
        Forall (λ x, matches pattern_test route x = false) before
  | None => Forall (λ x, matches pattern_test route x = false) routes
  end ∧
  (pattern_test "*" "/users" = true →
   ∃ r, getMatchingRoute pattern_test
          (table_of [plain_route "*"; plain_route "users"]) "/users" = Some r ∧
        table_of [plain_route "*"; plain_route "users"] !! 0 = Some r ∧
        InternalRoute.path r = ["*"]).
Proof.
  split.
  - unfold getMatchingRoute.
    induction routes as [|x routes IH]; simpl; [constructor|].
    destruct (matches pattern_test route x) eqn:Hx.
    + exists [], routes. by repeat split.
    + destruct (find (matches pattern_test route) routes) as [r|].
      * destruct IH as (before & after & -> & Hr & Hb).
        exists (x :: before), after. repeat split; [done|]. by constructor.
      * by constructor.
  - intros Hw. eexists. vm_compute table_of.
    unfold getMatchingRoute, matches. simpl. rewrite Hw. done.
Qed.

Lemma getMatchingRoute_first_in_table_order_witness :
  literal_test "*" "/users" = true ∧
  ∃ r, getMatchingRoute literal_test
         (table_of [plain_route "*"; plain_route "users"]) "/users" = Some r ∧
       table_of [plain_route "*"; plain_route "users"] !! 0 = Some r ∧
       InternalRoute.path r = ["*"].
Proof.
  split; [reflexivity|].
  exact (proj2 (getMatchingRoute_first_in_table_order literal_test [] "") eq_refl).
Defined.

(** ** Invocations of [navigate] *)

Section Invocations.
Variable pattern_test : string → string → bool.
Local Abbreviation navigate_from := (navigate_from pattern_test).
Local Abbreviation navigate := (navigate pattern_test).

Lemma navigate_from_S fuel route st :
  navigate_from (S fuel) route st =
    if negb (updateComplete st) then Some ([Pending], [], st) else
    match getMatchingRoute pattern_test (routes st) route with
    | None => Some ([Fulfilled ResolverResult], [], st)
    | Some futureRoute =>
        let chain := componentChain futureRoute (nextId st) in
        let next := nextId st + length chain in
        match whereToRedirect futureRoute with
        | Some target =>
            if MAX_REDIRECTIONS <? redirectionCount st
            then Some ([Rejected circular], [], thrown st next)
            else
              '(settled, events, st') ← navigate_from fuel target (redirected st next);
              Some (Fulfilled ResolverResult :: settled, events, st')
        | None =>
            let '(outlet', events) := replaceRouteNodes chain (outlet st) 0 in
            Some ([Fulfilled (RoutePath route)], events, settled_on st route outlet' next)
        end
    end.
Proof. done. Qed.

(** Every invocation ends: the counter bounds the nesting. *)
Lemma navigate_from_total fuel : ∀ route st,
  S MAX_REDIRECTIONS - redirectionCount st < fuel →
  is_Some (navigate_from fuel route st).
Proof.
  induction fuel as [|fuel IH]; intros route st Hf; [lia|].
  rewrite navigate_from_S.
  destruct (negb (updateComplete st)); [done|].
  destruct (getMatchingRoute _ _ _) as [fr|]; [|done]. cbv zeta.
  destruct (whereToRedirect fr) as [target|].
  - destruct (MAX_REDIRECTIONS <? redirectionCount st) eqn:Hc; [done|].
    apply Nat.ltb_ge in Hc.
    destruct (IH target (redirected st (nextId st + length (componentChain fr (nextId st)))))
      as [[[s e] st'] ->]; [simpl; lia|done].
  - by destruct (replaceRouteNodes _ _ _).
Qed.

(** More fuel than needed changes nothing. *)
Lemma navigate_from_more fuel : ∀ fuel' route st r,
  navigate_from fuel route st = Some r → fuel ≤ fuel' →
  navigate_from fuel' route st = Some r.
Proof.
  induction fuel as [|fuel IH]; intros [|fuel'] route st r Hn Hf; try done; [lia|].
  rewrite navigate_from_S in *.
  destruct (negb (updateComplete st)); [done|].
  destruct (getMatchingRoute _ _ _) as [fr|]; [|done]. cbv zeta in *.
  destruct (whereToRedirect fr) as [target|]; [|done].
  destruct (MAX_REDIRECTIONS <? redirectionCount st); [done|].
  destruct (navigate_from fuel target _) as [[[s e] st']|] eqn:Hrec; [|done].
  erewrite IH; [done|exact Hrec|lia].
Qed.

Lemma navigate_total route st : is_Some (navigate route st).
Proof. apply navigate_from_total. lia. Qed.
End Invocations.

(** ** Redirect loops *)

Section Redirects.
Variable pattern_test : string → string → bool.
Variable table : list InternalRoute.

Local Abbreviation hops := (hops pattern_test table).

Lemma hops_add i k route : hops (i + k) route = hops i route ≫= hops k.
Proof.
  revert route. induction i as [|i IH]; intros route; simpl; [done|].
  destruct (redirectTarget pattern_test table route) as [target|]; simpl; [apply IH|done].
Qed.

Lemma hops_down n m route : is_Some (hops m route) → n ≤ m → is_Some (hops n route).
Proof.
  intros Hm Hle. replace m with (n + (m - n)) in Hm by lia.
  rewrite hops_add in Hm. destruct (hops n route); [done|].
  by destruct Hm.
Qed.

(** A route that comes back after some redirects is redirected for
    ever. *)
Lemma cycle_redirects_forever i j q route :
  i < j → hops i route = Some q → hops j route = Some q →
  ∀ n, is_Some (hops n route).
Proof.
  intros Hij Hi Hj n.
  assert (hops (j - i) q = Some q) as Hp.
  { replace j with (i + (j - i)) in Hj by lia. rewrite hops_add, Hi in Hj. done. }
  assert (∀ m, hops (m * (j - i)) q = Some q) as Hm.
  { induction m as [|m IH]; [done|]. simpl. rewrite hops_add, Hp. done. }
  apply (hops_down n (i + n * (j - i))); [|nia].
  rewrite hops_add, Hi. simpl. by rewrite Hm.
Qed.

Lemma navigate_from_circular b : ∀ route st,
  routes st = table → updateComplete st = true →
  (∀ n, is_Some (hops n route)) →
  S MAX_REDIRECTIONS - redirectionCount st = b →
  ∃ st', navigate_from pattern_test (S b) route st =
           Some (replicate b (Fulfilled ResolverResult) ++ [Rejected circular], [], st') ∧
         redirectionCount st' = redirectionCount st + b ∧
         updateComplete st' = false ∧
         outlet st' = outlet st ∧ location st' = location st.
Proof.
  induction b as [|b IH]; intros route st Hr Hg Hh Hb.
  - rewrite navigate_from_S, Hg, Hr. cbn [negb].
    destruct (Hh 1) as [t Ht]. simpl in Ht. unfold redirectTarget in Ht.
    destruct (getMatchingRoute pattern_test table route) as [fr|]; [|done]. simpl in Ht.
    destruct (whereToRedirect fr) as [target|]; [|done]. cbv zeta.
    replace (MAX_REDIRECTIONS <? redirectionCount st) with true
      by (symmetry; apply Nat.ltb_lt; lia).
    eexists. split; [done|]. simpl. repeat split; lia.
  - rewrite navigate_from_S, Hg, Hr. cbn [negb].
    pose proof (Hh 1) as [t Ht]. simpl in Ht. unfold redirectTarget in Ht.
    destruct (getMatchingRoute pattern_test table route) as [fr|] eqn:Hfr; [|done]. simpl in Ht.
    destruct (whereToRedirect fr) as [target|] eqn:Hw; [|done]. cbv zeta.
    replace (MAX_REDIRECTIONS <? redirectionCount st) with false
      by (symmetry; apply Nat.ltb_ge; lia).
    destruct (IH target (redirected st (nextId st + length (componentChain fr (nextId st)))))
      as (st' & -> & Hc' & Hg' & Ho' & Hl'); [done|done| |simpl; lia|].
    { intros n. specialize (Hh (S n)). simpl in Hh. unfold redirectTarget in Hh.
      by rewrite Hfr in Hh; simpl in Hh; rewrite Hw in Hh. }
    exists st'. split; [done|]. simpl in *. repeat split; try done; lia.
Qed.
End Redirects.

(** C1, as the code has it.  When the redirects from the navigated route
    come back to a route already visited, the invocations follow each
    other until one of them reaches the redirect check with the counter
    above [MAX_REDIRECTIONS]: that invocation throws, and no invocation
    follows it.  From a counter of 0 this is after 201 redirects, in the
    202nd invocation; the promises of the 201 invocations before it,
    the one of the outer call among them, are fulfilled.  Nothing is
    mounted and the promise in [updateComplete] stays unresolved. *)
Theorem circular_redirection_throws (pattern_test : string → string → bool)
    (st : Router) (route q : string) (i j : nat) :
  updateComplete st = true →
  redirectionCount st ≤ S MAX_REDIRECTIONS →
  i < j →
  hops pattern_test (routes st) i route = Some q →
  hops pattern_test (routes st) j route = Some q →
  ∃ st',
    navigate pattern_test route st =
      Some (replicate (S MAX_REDIRECTIONS - redirectionCount st) (Fulfilled ResolverResult)
              ++ [Rejected circular], [], st') ∧
    redirectionCount st' = S MAX_REDIRECTIONS ∧
    updateComplete st' = false ∧
    outlet st' = outlet st ∧ location st' = location st.
Proof.
  intros Hg Hc Hij Hi Hj.
  destruct (navigate_from_circular pattern_test (routes st)
              (S MAX_REDIRECTIONS - redirectionCount st) route st)
    as (st' & Hn & Hc' & Hrest); [done|done| |done|].
  { by eapply cycle_redirects_forever. }
  exists st'. split; [exact Hn|]. split; [lia|done].
Qed.

Lemma circular_redirection_throws_witness :
  ∃ st',
    navigate literal_test "a" (ready self_loop) =
      Some (replicate 201 (Fulfilled ResolverResult) ++ [Rejected circular], [], st') ∧
    redirectionCount st' = 201 ∧
    updateComplete st' = false ∧
    outlet st' = outlet (ready self_loop) ∧ location st' = location (ready self_loop).
Proof.
  refine (circular_redirection_throws literal_test (ready self_loop) "a" "a" 0 1 _ _ _ _ _).
  - reflexivity.
  - vm_compute; lia.
  - lia.
  - reflexivity.
  - reflexivity.
Defined.

(** C1, as stated, fails on [{path:'a', redirect:'a'}]: the error comes
    after 201 redirects, not 200. *)
Lemma circular_redirection_after_200_counterexample :
  hops literal_test (table_of self_loop) 1 "a" = Some "a" ∧
  ∃ settled events st',
    navigate literal_test "a" (ready self_loop) = Some (settled, events, st') ∧
    settled = replicate 201 (Fulfilled ResolverResult) ++ [Rejected circular] ∧
    settled ≠ replicate 200 (Fulfilled ResolverResult) ++ [Rejected circular].
Proof.
  split; [reflexivity|].
  eexists _, _, _. split; [vm_compute; reflexivity|].
  split; [reflexivity|]. intros H. apply (f_equal length) in H. vm_compute in H. discriminate.
Qed.

(** ** Tearing a subtree down *)

Lemma Node_ind (P : Node → Prop) :
  (∀ i t a cs, Forall P cs → P (Element i t a cs)) →
  (∀ i d, P (CharacterData i d)) →
  ∀ n, P n.
Proof.
  intros He Hc. fix IH 1. intros [i t a cs|i d]; [|apply Hc]. apply He.
  induction cs as [|c cs IHcs]; constructor; [apply IH|exact IHcs].
Qed.

(** The nodes of a subtree, every node after its descendants. *)
Fixpoint postorder (n : Node) : list Node :=
  match n with
  | Element _ _ _ cs => cs ≫= postorder
  | CharacterData _ _ => []
  end ++ [n].

(** The nodes below [n]. *)
Definition descendants (n : Node) : list Node := childNodes n ≫= postorder.

Lemma postorder_eq n : postorder n = descendants n ++ [n].
Proof. by destruct n. Qed.

Lemma reversedRouteNodeRemoval_eq node removeParent :
  reversedRouteNodeRemoval node removeParent =
    (childNodes node ≫= λ child, reversedRouteNodeRemoval child false ++ removeRouteElement child)
    ++ (if removeParent then removeRouteElement node else []).
Proof.
  destruct node as [i t a cs|i d]; [|done]. simpl. f_equal.
  induction cs as [|c cs IH]; [done|]. simpl. by rewrite IH, <- app_assoc.
Qed.

(** The removal goes through the subtree in post-order: every node is
    removed after the nodes below it. *)
Lemma reversedRouteNodeRemoval_postorder node removeParent :
  reversedRouteNodeRemoval node removeParent =
    (descendants node ≫= removeRouteElement)
    ++ (if removeParent then removeRouteElement node else []).
Proof.
  revert removeParent. induction node as [i t a cs IH|i d] using Node_ind; intros rp; [|done].
  rewrite reversedRouteNodeRemoval_eq. f_equal. unfold descendants. cbn [childNodes].
  induction IH as [|c cs Hc _ IH']; [done|].
  rewrite !bind_cons, bind_app, IH', Hc, postorder_eq, bind_app, app_nil_r.
  rewrite bind_singleton. by rewrite <- !app_assoc.
Qed.

Lemma postorder_descendant parent child y :
  child ∈ childNodes parent → y ∈ postorder child → y ∈ descendants parent.
Proof. intros Hc Hy. apply list_elem_of_bind. eauto. Qed.

Lemma descendants_descendant parent child y :
  child ∈ childNodes parent → y ∈ descendants child → y ∈ descendants parent.
Proof.
  intros Hc Hy. eapply postorder_descendant; [done|].
  rewrite postorder_eq. apply elem_of_app. by left.
Qed.

Lemma child_descendant parent child : child ∈ childNodes parent → child ∈ descendants parent.
Proof.
  intros Hc. apply (postorder_descendant parent child); [done|].
  rewrite postorder_eq. apply elem_of_app. right. left.
Qed.

(** ** The removals and the insertions of a trace *)

(** The nodes that are removed, in the order of their removal. *)
Definition removed (events : list Event) : list nat :=
  omap (λ e, match e with Remove el => Some el | _ => None end) events.

(** The insertions, in their order: the parent and the element. *)
Definition inserted (events : list Event) : list (nat * nat) :=
  omap (λ e, match e with InsertAfterBegin parent el => Some (parent, el) | _ => None end)
    events.

Lemma removed_app l1 l2 : removed (l1 ++ l2) = removed l1 ++ removed l2.
Proof. apply omap_app. Qed.

Lemma inserted_app l1 l2 : inserted (l1 ++ l2) = inserted l1 ++ inserted l2.
Proof. apply omap_app. Qed.

Lemma inserted_cons_insert parent el l :
  inserted (InsertAfterBegin parent el :: l) = (parent, el) :: inserted l.
Proof. done. Qed.

Lemma removed_cons_insert parent el l : removed (InsertAfterBegin parent el :: l) = removed l.
Proof. done. Qed.

Lemma removed_animate el anim : removed (animate el anim) = [].
Proof. unfold animate. by destruct (truthy anim). Qed.

Lemma inserted_animate el anim : inserted (animate el anim) = [].
Proof. unfold animate. by destruct (truthy anim). Qed.

Lemma removed_removeRouteElement el : removed (removeRouteElement el) = [nid el].
Proof. unfold removeRouteElement. by rewrite removed_app, removed_animate. Qed.

Lemma inserted_removeRouteElement el : inserted (removeRouteElement el) = [].
Proof. unfold removeRouteElement. by rewrite inserted_app, inserted_animate. Qed.

Lemma removed_removals (ns : list Node) : removed (ns ≫= removeRouteElement) = nid <$> ns.
Proof.
  induction ns as [|n ns IH]; [done|].
  change ((n :: ns) ≫= removeRouteElement)
    with (removeRouteElement n ++ (ns ≫= removeRouteElement)).
  by rewrite removed_app, removed_removeRouteElement, IH.
Qed.

Lemma inserted_removals (ns : list Node) : inserted (ns ≫= removeRouteElement) = [].
Proof.
  induction ns as [|n ns IH]; [done|].
  change ((n :: ns) ≫= removeRouteElement)
    with (removeRouteElement n ++ (ns ≫= removeRouteElement)).
  by rewrite inserted_app, inserted_removeRouteElement, IH.
Qed.

Lemma with_childNodes_element n cs : is_element (with_childNodes n cs) = is_element n.
Proof. by destruct n. Qed.

Lemma with_childNodes_nid n cs : nid (with_childNodes n cs) = nid n.
Proof. by destruct n. Qed.

Lemma with_childNodes_tagName n cs : tagName (with_childNodes n cs) = tagName n.
Proof. by destruct n. Qed.

Lemma childNodes_with n cs : is_element n = true → childNodes (with_childNodes n cs) = cs.
Proof. by destruct n. Qed.

(** ** The reconciler *)

Lemma split_firstElementChild_Some nodes before child after :
  split_firstElementChild nodes = Some (before, child, after) →
  nodes = before ++ child :: after ∧ is_element child = true ∧
  Forall (λ n, is_element n = false) before.
Proof.
  revert before. induction nodes as [|n nodes IH]; intros before; simpl; [done|].
  destruct (is_element n) eqn:Hn.
  - intros [= <- <- <-]. by repeat split.
  - destruct (split_firstElementChild nodes) as [[[b c] a]|]; simpl; [|done].
    intros [= <- <- <-]. destruct (IH b eq_refl) as (-> & Hc & Hb).
    repeat split; [done|]. by constructor.
Qed.

Lemma split_firstElementChild_None nodes :
  split_firstElementChild nodes = None → Forall (λ n, is_element n = false) nodes.
Proof.
  induction nodes as [|n nodes IH]; simpl; [constructor|].
  destruct (is_element n) eqn:Hn; [done|].
  destruct (split_firstElementChild nodes) as [[[b c] a]|]; simpl; [done|].
  intros _. constructor; [done|by apply IH].
Qed.


(** The reconciliation of [parent] changes its child nodes only. *)
Lemma replaceRouteNodes_from_shape chain parent :
  ∃ cs, (replaceRouteNodes_from chain parent).1 = with_childNodes parent cs.
Proof.
  destruct chain as [|n chain]; simpl; [eauto|].
  destruct (split_firstElementChild _) as [[[b c] a]|].
  - destruct (replaceRouteNodes_from chain c). simpl. eauto.
  - destruct (replaceRouteNodes_from chain n). simpl. eauto.
Qed.

Lemma replaceRouteNodes_from_element chain parent :
  is_element (replaceRouteNodes_from chain parent).1 = is_element parent.
Proof.
  destruct (replaceRouteNodes_from_shape chain parent) as [cs ->].
  apply with_childNodes_element.
Qed.

Lemma replaceRouteNodes_from_tagName chain parent :
  tagName (replaceRouteNodes_from chain parent).1 = tagName parent.
Proof.
  destruct (replaceRouteNodes_from_shape chain parent) as [cs ->].
  apply with_childNodes_tagName.
Qed.

(** The element reached from [n] by [k] steps to the first element
    child. *)
Fixpoint descend (k : nat) (n : Node) : option Node :=
  match k with
  | 0 => Some n
  | S k => firstElementChild n ≫= descend k
  end.

Lemma firstElementChild_split parent before child after :
  is_element parent = true →
  Forall (λ n, is_element n = false) before → is_element child = true →
  firstElementChild (with_childNodes parent (before ++ child :: after)) = Some child.
Proof.
  intros Hp Hb Hc. unfold firstElementChild, children. rewrite childNodes_with by done.
  induction Hb as [|n before Hn _ IH]; simpl; rewrite filter_cons.
  - destruct (decide (is_element child)) as [|Hn]; [done|]. by rewrite Hc in Hn.
  - destruct (decide (is_element n)) as [Hy|]; [by rewrite Hn in Hy|done].
Qed.

(** The child nodes that the removal of the invalid ones leaves are the
    text nodes and the elements with the tag of [nodeToInsert]. *)
Lemma kept_elements nodeToInsert (nodes : list Node) :
  Forall (λ n, is_element n = true → tagName n = tagName nodeToInsert)
    (filter (λ n, negb (is_element n && invalid nodeToInsert n)) nodes).
Proof.
  apply Forall_forall. intros n [Hn _]%list_elem_of_filter He.
  rewrite He in Hn. simpl in Hn. unfold invalid in Hn.
  apply negb_prop_elim in Hn. rewrite bool_decide_spec in Hn.
  by destruct (decide (tagName n = tagName nodeToInsert)).
Qed.

(** ** Reconciling twice *)

Lemma filter_id {A} (P : A → bool) (l : list A) :
  Forall (λ x, P x = true) l → filter P l = l.
Proof.
  induction 1 as [|x l Hx _ IH]; [done|].
  rewrite filter_cons. destruct (decide (P x)) as [|Hn]; [by rewrite IH|].
  by rewrite Hx in Hn.
Qed.

Lemma filter_none {A} (P : A → bool) (l : list A) :
  Forall (λ x, P x = false) l → filter P l = [].
Proof.
  induction 1 as [|x l Hx _ IH]; [done|].
  rewrite filter_cons. destruct (decide (P x)) as [Hy|]; [|done].
  by rewrite Hx in Hy.
Qed.

Lemma invalid_tagName n1 n2 el : tagName n1 = tagName n2 → invalid n1 el = invalid n2 el.
Proof. unfold invalid. by intros ->. Qed.

Lemma not_invalid nodeToInsert el :
  tagName el = tagName nodeToInsert → invalid nodeToInsert el = false.
Proof. intros H. unfold invalid. apply bool_decide_eq_false_2. by intros Hn. Qed.



Lemma replaceRouteNodes_from_cons nodeToInsert chain parent :
  replaceRouteNodes_from (nodeToInsert :: chain) parent =
    let invalidNodes := filter (invalid nodeToInsert) (children parent) in
    let removals := invalidNodes ≫= (λ el, reversedRouteNodeRemoval el true) in
    let kept :=
      filter (λ n, negb (is_element n && invalid nodeToInsert n)) (childNodes parent) in
    match split_firstElementChild kept with
    | Some (before, child, after) =>
        let '(child', events) := replaceRouteNodes_from chain child in
        (with_childNodes parent (before ++ child' :: after), removals ++ events)
    | None =>
        let '(inserted, events) := replaceRouteNodes_from chain nodeToInsert in
        (with_childNodes parent (inserted :: kept),
         removals ++ [InsertAfterBegin (nid parent) (nid nodeToInsert)] ++
         animate nodeToInsert (member "show" (routeAnimation nodeToInsert)) ++ events)
    end.
Proof. done. Qed.




Lemma component_element_nid fr id i : nid (component_element fr id i) = id.
Proof. unfold component_element. by destruct (mjoin (mjoin _)). Qed.



(** ** One level past the chain *)

(** The call one level past the chain: it is made on the element
    [found] at the depth of the chain - an element that was there, with
    what was below it, or the last element of the chain, with what it has
    rendered - and removes every node below it. *)
Lemma replaceRouteNodes_from_teardown chain : ∀ parent,
  is_element parent = true →
  Forall (λ el, is_element el = true) chain →
  ∃ found earlier,
    found ∈ parent :: descendants parent ++ (chain ≫= postorder) ∧
    descend (length chain) (replaceRouteNodes_from chain parent).1
      = Some (with_childNodes found []) ∧
    is_element found = true ∧
    tagName found = tagName (default parent (last chain)) ∧
    (replaceRouteNodes_from chain parent).2
      = earlier ++ (descendants found ≫= removeRouteElement).
Proof.
  induction chain as [|nodeToInsert chain IH]; intros parent Hp Hch.
  - exists parent, []. simpl. split; [left|]. split; [done|]. split; [done|]. split; [done|].
    by rewrite reversedRouteNodeRemoval_postorder, app_nil_r.
  - apply Forall_cons in Hch as [Hn Hch].
    assert (tagName (default parent (last (nodeToInsert :: chain)))
            = tagName (default nodeToInsert (last chain))) as ->.
    { rewrite last_cons. by destruct (last chain). }
    rewrite replaceRouteNodes_from_cons. cbv zeta. cbn [length descend].
    destruct (split_firstElementChild _) as [[[before child] after]|] eqn:Hs.
    + apply split_firstElementChild_Some in Hs as (Hk & Hc & Hb).
      pose proof (kept_elements nodeToInsert (childNodes parent)) as Htag.
      rewrite Hk in Htag. apply Forall_app in Htag as [_ Htag].
      apply Forall_cons in Htag as [Htag _]. specialize (Htag Hc).
      assert (child ∈ childNodes parent) as Hin.
      { assert (child ∈ before ++ child :: after) as Hin by (apply elem_of_app; right; left).
        rewrite <- Hk in Hin. by apply list_elem_of_filter in Hin as [_ ?]. }
      destruct (IH child Hc Hch) as (found & earlier & Hf & Hd & He & Ht & Hev).
      pose proof (replaceRouteNodes_from_element chain child) as Hce.
      destruct (replaceRouteNodes_from chain child) as [child' events]. cbn [fst snd] in *.
      exists found, ((filter (invalid nodeToInsert) (children parent)
                        ≫= (λ el, reversedRouteNodeRemoval el true)) ++ earlier).
      split.
      { right. rewrite elem_of_app. apply elem_of_cons in Hf as [->|Hf].
        - left. by apply child_descendant.
        - apply elem_of_app in Hf as [Hf|Hf].
          + left. by eapply descendants_descendant.
          + right. rewrite bind_cons. apply elem_of_app. by right. }
      split.
      { rewrite firstElementChild_split by (done || by rewrite Hce). done. }
      split; [done|]. split.
      { rewrite Ht. destruct (last chain); [done|]. simpl. done. }
      by rewrite Hev, app_assoc.
    + destruct (IH nodeToInsert Hn Hch) as (found & earlier & Hf & Hd & He & Ht & Hev).
      pose proof (replaceRouteNodes_from_element chain nodeToInsert) as Hce.
      destruct (replaceRouteNodes_from chain nodeToInsert) as [ins events]. cbn [fst snd] in *.
      exists found,
        ((filter (invalid nodeToInsert) (children parent)
            ≫= (λ el, reversedRouteNodeRemoval el true)) ++
         [InsertAfterBegin (nid parent) (nid nodeToInsert)] ++
         animate nodeToInsert (member "show" (routeAnimation nodeToInsert)) ++ earlier).
      split.
      { right. rewrite elem_of_app. right. rewrite bind_cons, postorder_eq.
        apply elem_of_cons in Hf as [->|Hf].
        - apply elem_of_app. left. apply elem_of_app. right. left.
        - apply elem_of_app in Hf as [Hf|Hf].
          + apply elem_of_app. left. apply elem_of_app. by left.
          + apply elem_of_app. by right. }
      split.
      { assert (is_element ins = true) as Hi by (by rewrite Hce).
        match goal with |- context [with_childNodes parent (ins :: ?k)] =>
          pose proof (firstElementChild_split parent [] ins k Hp (Forall_nil_2 _) Hi) as Hfe
        end.
        simpl in Hfe. by rewrite Hfe. }
      split; [done|]. split; [done|].
      rewrite Hev. by repeat (rewrite <- ?app_assoc, <- ?app_comm_cons).
Qed.

(** C10. A reconciliation with a chain of [n] elements recurses one
    level past the chain.  That call is made on the element [found] at
    depth [n] on the way through the first element children - an element
    retained from what was mounted, with everything that was below it, or
    the last element of the chain, just inserted, with what it has
    rendered - and it tears down all the nodes below [found]: the
    reconciliation ends with their removals, every node below [found] being
    removed once, after the nodes below it.  So the deepest element is
    left without any child node; it has the tag of the last element of the
    chain. *)
Theorem deepest_element_has_no_child (componentChain : list Node) (outlet : Node) :
  is_element outlet = true →
  Forall (λ el, is_element el = true) componentChain →
  ∃ deepest found earlier teardown,
    descend (length componentChain) (replaceRouteNodes componentChain outlet 0).1
      = Some deepest ∧
    childNodes deepest = [] ∧
    tagName deepest = tagName (default outlet (last componentChain)) ∧
    found ∈ outlet :: descendants outlet ++ (componentChain ≫= postorder) ∧
    deepest = with_childNodes found [] ∧
    (replaceRouteNodes componentChain outlet 0).2 = earlier ++ teardown ∧
    removed teardown = nid <$> descendants found ∧
    inserted teardown = [] ∧
    ∀ x, x ∈ descendants found →
         Remove (nid x) ∈ (replaceRouteNodes componentChain outlet 0).2.
Proof.
  intros Ho Hch. unfold replaceRouteNodes. rewrite drop_0.
  destruct (replaceRouteNodes_from_teardown componentChain outlet Ho Hch)
    as (found & earlier & Hf & Hd & He & Ht & Hev).
  exists (with_childNodes found []), found, earlier, (descendants found ≫= removeRouteElement).
  split; [done|]. split; [by rewrite childNodes_with|].
  split; [by rewrite with_childNodes_tagName|].
  split; [done|]. split; [done|]. split; [done|].
  split; [apply removed_removals|]. split; [apply inserted_removals|].
  intros x Hx. rewrite Hev. apply elem_of_app. right.
  apply list_elem_of_bind. exists x. split; [|done].
  unfold removeRouteElement. apply elem_of_app. right. left.
Qed.

Lemma deepest_element_has_no_child_witness :
  is_element (Element 0 "OUTLET" SUndefined
                [Element 2 "A" SUndefined [Element 3 "C" SUndefined [Element 4 "P" SUndefined []]]])
    = true ∧
  Forall (λ el, is_element el = true)
    [Element 10 "A" SUndefined []; Element 11 "C" SUndefined [CharacterData 12 "rendered"]] ∧
  ∃ deepest found earlier teardown,
    descend 2
      (replaceRouteNodes
         [Element 10 "A" SUndefined []; Element 11 "C" SUndefined [CharacterData 12 "rendered"]]
         (Element 0 "OUTLET" SUndefined
            [Element 2 "A" SUndefined [Element 3 "C" SUndefined [Element 4 "P" SUndefined []]]])
         0).1 = Some deepest ∧
    childNodes deepest = [] ∧
    tagName deepest = Some "C" ∧
    found ∈ Element 0 "OUTLET" SUndefined
              [Element 2 "A" SUndefined [Element 3 "C" SUndefined [Element 4 "P" SUndefined []]]]
            :: descendants
                 (Element 0 "OUTLET" SUndefined
                    [Element 2 "A" SUndefined
                       [Element 3 "C" SUndefined [Element 4 "P" SUndefined []]]])
               ++ ([Element 10 "A" SUndefined [];
                    Element 11 "C" SUndefined [CharacterData 12 "rendered"]] ≫= postorder) ∧
    deepest = with_childNodes found [] ∧
    (replaceRouteNodes
       [Element 10 "A" SUndefined []; Element 11 "C" SUndefined [CharacterData 12 "rendered"]]
       (Element 0 "OUTLET" SUndefined
          [Element 2 "A" SUndefined [Element 3 "C" SUndefined [Element 4 "P" SUndefined []]]])
       0).2 = earlier ++ teardown ∧
    removed teardown = nid <$> descendants found ∧
    inserted teardown = [] ∧
    ∀ x, x ∈ descendants found →
         Remove (nid x) ∈
           (replaceRouteNodes
              [Element 10 "A" SUndefined [];
               Element 11 "C" SUndefined [CharacterData 12 "rendered"]]
              (Element 0 "OUTLET" SUndefined
                 [Element 2 "A" SUndefined
                    [Element 3 "C" SUndefined [Element 4 "P" SUndefined []]]])
              0).2.
Proof.
  assert (Forall (λ el, is_element el = true)
            [Element 10 "A" SUndefined [];
             Element 11 "C" SUndefined [CharacterData 12 "rendered"]]) as H
    by (repeat constructor).
  split; [reflexivity|]. split; [exact H|].
  exact (deepest_element_has_no_child
           [Element 10 "A" SUndefined []; Element 11 "C" SUndefined [CharacterData 12 "rendered"]]
           (Element 0 "OUTLET" SUndefined
              [Element 2 "A" SUndefined [Element 3 "C" SUndefined [Element 4 "P" SUndefined []]]])
           eq_refl H).
Defined.

(** ** Navigating again *)

Section Again.
Variable pattern_test : string → string → bool.


End Again.

Lemma navigate_from_routes pattern_test fuel : ∀ route st settled events st1,
  navigate_from pattern_test fuel route st = Some (settled, events, st1) →
  routes st1 = routes st.
Proof.
  induction fuel as [|fuel IH]; intros route st s e st1 H; [done|].
  rewrite navigate_from_S in H. destruct (negb (updateComplete st)); [by inversion H|].
  destruct (getMatchingRoute _ _ _) as [fr|]; [|by inversion H]. cbv zeta in H.
  destruct (whereToRedirect fr).
  - destruct (_ <? _); [by inversion H|].
    destruct (navigate_from _ fuel _ _) as [[[s' e'] st']|] eqn:Hn; [|done].
    inversion H; subst. by apply IH in Hn.
  - destruct (replaceRouteNodes _ _ _). by inversion H.
Qed.



(** ** The running reconciliation and the finished one *)

(** The [while] loop of [reversedRouteNodeRemoval], on the child nodes
    that remain. *)
Fixpoint remaining_until (awaited : nat) (remaining : list Node)
  : list Node * list Event * option nat :=
  match remaining with
  | [] => ([], [], Some awaited)
  | child :: remaining =>
      let '(child', events1, unspent1) :=
        reversedRouteNodeRemoval_until awaited child false in
      match resume unspent1 with
      | None => (option_list child' ++ remaining, events1, None)
      | Some awaited =>
          let '(child', events2, unspent2) :=
            removeRouteElement_until awaited (default child child') in
          match resume unspent2 with
          | None => (option_list child' ++ remaining, events1 ++ events2, None)
          | Some awaited =>
              let '(remaining, events3, unspent3) := remaining_until awaited remaining in
              (remaining, events1 ++ events2 ++ events3, unspent3)
          end
      end
  end.

Lemma reversedRouteNodeRemoval_until_eq awaited node removeParent :
  reversedRouteNodeRemoval_until awaited node removeParent =
    let '(remaining, events, unspent) := remaining_until awaited (childNodes node) in
    let node := with_childNodes node remaining in
    match unspent with
    | None => (Some node, events, None)
    | Some awaited =>
        if removeParent
        then
          let '(node, events', unspent) := removeRouteElement_until awaited node in
          (node, events ++ events', resume unspent)
        else (Some node, events, Some awaited)
    end.
Proof.
  destruct node as [i t a cs|i d]; [|done]. cbn [reversedRouteNodeRemoval_until childNodes].
  match goal with |- context [?loop awaited cs] =>
    assert (∀ b, loop b cs = remaining_until b cs) as ->; [|done]
  end.
  induction cs as [|c cs IH]; intros b; [done|]. cbn [remaining_until].
  destruct (reversedRouteNodeRemoval_until b c false) as [[c' e1] u1].
  destruct (resume u1) as [b1|]; [|done].
  destruct (removeRouteElement_until b1 (default c c')) as [[c'' e2] u2].
  destruct (resume u2) as [b2|]; [|done]. by rewrite IH.
Qed.

(** *** A call that has returned has done what the call run to its end does *)


Lemma removeRouteElement_with n cs :
  removeRouteElement (with_childNodes n cs) = removeRouteElement n.
Proof. by destruct n. Qed.





Lemma filter_cons_true {A} (P : A → bool) x (l : list A) :
  P x = true → filter P (x :: l) = x :: filter P l.
Proof. intros H. rewrite filter_cons, decide_True; [done|by rewrite H]. Qed.

Lemma filter_cons_false {A} (P : A → bool) x (l : list A) :
  P x = false → filter P (x :: l) = filter P l.
Proof. intros H. rewrite filter_cons, decide_False; [done|rewrite H; by intros ?]. Qed.



(** *** A reconciliation that has nothing to do *)





(** *** With enough of its [await]s resumed, a call returns *)

Lemma resume_sub b N : N < b → resume (Some (b - N)) = Some (b - S N).
Proof. intros H. replace (b - N) with (S (b - S N)) by lia. done. Qed.

Lemma animate_until_enough el anim :
  ∃ N, ∀ b, N ≤ b → animate_until b el anim = (animate el anim, Some (b - N)).
Proof.
  unfold animate_until, animate. destruct (truthy anim).
  - exists 2. intros [|[|b]] Hb; [lia|lia|]. simpl. by rewrite Nat.sub_0_r.
  - exists 0. intros b _. by rewrite Nat.sub_0_r.
Qed.

Lemma removeRouteElement_until_enough el :
  ∃ N, ∀ b, N ≤ b →
    removeRouteElement_until b el = (None, removeRouteElement el, Some (b - N)).
Proof.
  destruct (animate_until_enough el (member "hide" (routeAnimation el))) as [N HN].
  exists N. intros b Hb. unfold removeRouteElement_until. by rewrite (HN b Hb).
Qed.

Lemma remaining_until_enough (remaining : list Node) :
  Forall (λ c, ∃ N, ∀ b, N ≤ b →
            reversedRouteNodeRemoval_until b c false
            = (Some (with_childNodes c []), reversedRouteNodeRemoval c false, Some (b - N)))
    remaining →
  ∃ N, ∀ b, N ≤ b →
    remaining_until b remaining
    = ([], remaining ≫= (λ c, reversedRouteNodeRemoval c false ++ removeRouteElement c),
       Some (b - N)).
Proof.
  induction 1 as [|c cs [N1 H1] _ [N3 H3]].
  { exists 0. intros b _. simpl. by rewrite Nat.sub_0_r. }
  destruct (removeRouteElement_until_enough (with_childNodes c [])) as [N2 H2].
  exists (N1 + 1 + N2 + 1 + N3). intros b Hb. cbn [remaining_until].
  rewrite (H1 b) by lia. rewrite resume_sub by lia. simpl default.
  rewrite (H2 (b - S N1)) by lia. rewrite resume_sub by lia.
  rewrite (H3 (b - S N1 - S N2)) by lia.
  rewrite ?bind_cons, ?removeRouteElement_with, <- ?app_assoc.
  do 2 f_equal; lia.
Qed.

Lemma reversedRouteNodeRemoval_until_enough node : ∀ removeParent,
  ∃ N, ∀ b, N ≤ b →
    reversedRouteNodeRemoval_until b node removeParent
    = (if removeParent then None else Some (with_childNodes node []),
       reversedRouteNodeRemoval node removeParent, Some (b - N)).
Proof.
  induction node as [i t a cs IH|i d] using Node_ind; intros rp.
  - destruct (remaining_until_enough cs) as [N1 H1].
    { eapply Forall_impl; [exact IH|]. intros c Hc. apply (Hc false). }
    destruct (removeRouteElement_until_enough (Element i t a [])) as [N2 H2].
    destruct rp.
    + exists (N1 + N2 + 1). intros b Hb.
      rewrite reversedRouteNodeRemoval_until_eq, reversedRouteNodeRemoval_eq.
      cbn [childNodes]. rewrite (H1 b) by lia. cbn [with_childNodes].
      rewrite (H2 (b - N1)) by lia. rewrite resume_sub by lia.
      change (removeRouteElement (Element i t a [])) with (removeRouteElement (Element i t a cs)).
      do 2 f_equal; lia.
    + exists N1. intros b Hb.
      rewrite reversedRouteNodeRemoval_until_eq, reversedRouteNodeRemoval_eq.
      cbn [childNodes]. rewrite (H1 b) by lia. cbn [with_childNodes].
      by rewrite app_nil_r.
  - destruct (removeRouteElement_until_enough (CharacterData i d)) as [N2 H2].
    destruct rp.
    + exists (N2 + 1). intros b Hb. rewrite reversedRouteNodeRemoval_until_eq.
      cbn [childNodes remaining_until with_childNodes].
      rewrite (H2 b) by lia. rewrite resume_sub by lia. do 2 f_equal; lia.
    + exists 0. intros b Hb. rewrite reversedRouteNodeRemoval_until_eq. cbn.
      by rewrite Nat.sub_0_r.
Qed.

Lemma invalidNodes_until_enough nodeToInsert (childNodes : list Node) :
  ∃ N, ∀ b, N ≤ b →
    invalidNodes_until b nodeToInsert childNodes
    = (filter (λ n, negb (is_element n && invalid nodeToInsert n)) childNodes,
       filter (invalid nodeToInsert) (filter is_element childNodes)
         ≫= (λ el, reversedRouteNodeRemoval el true),
       Some (b - N)).
Proof.
  induction childNodes as [|el cs [N2 H2]].
  { exists 0. intros b _. simpl. by rewrite Nat.sub_0_r. }
  destruct (reversedRouteNodeRemoval_until_enough el true) as [N1 H1].
  destruct (is_element el && invalid nodeToInsert el) eqn:Hc.
  - apply andb_true_iff in Hc as [He Hi].
    exists (N1 + 1 + N2). intros b Hb. cbn [invalidNodes_until]. rewrite He, Hi. simpl andb.
    cbv iota. rewrite (H1 b) by lia. rewrite resume_sub by lia.
    rewrite (H2 (b - S N1)) by lia.
    rewrite (filter_cons_false (λ n, negb (is_element n && invalid nodeToInsert n)))
      by (by rewrite He, Hi).
    rewrite (filter_cons_true is_element), (filter_cons_true (invalid nodeToInsert)), bind_cons
      by done.
    do 2 f_equal; lia.
  - exists N2. intros b Hb. cbn [invalidNodes_until]. rewrite Hc. rewrite (H2 b) by lia.
    rewrite (filter_cons_true (λ n, negb (is_element n && invalid nodeToInsert n)))
      by (by rewrite Hc).
    destruct (is_element el) eqn:He.
    + rewrite (filter_cons_true is_element) by done.
      by rewrite (filter_cons_false (invalid nodeToInsert)).
    + by rewrite (filter_cons_false is_element).
Qed.

Lemma replaceRouteNodes_until_enough chain : ∀ parent,
  ∃ N, ∀ b, N ≤ b →
    replaceRouteNodes_until b chain parent
    = ((replaceRouteNodes_from chain parent).1, (replaceRouteNodes_from chain parent).2,
       Some (b - N)).
Proof.
  induction chain as [|nodeToInsert chain IH]; intros parent.
  - destruct (reversedRouteNodeRemoval_until_enough parent false) as [N HN].
    exists (S N). intros b Hb. cbn [replaceRouteNodes_until].
    rewrite (HN b) by lia. by rewrite resume_sub by lia.
  - destruct (invalidNodes_until_enough nodeToInsert (childNodes parent)) as [N1 H1].
    rewrite replaceRouteNodes_from_cons. cbv zeta. unfold children.
    destruct (split_firstElementChild _) as [[[before child] after]|] eqn:Hs.
    + destruct (IH child) as [N2 H2].
      exists (N1 + N2 + 1). intros b Hb. cbn [replaceRouteNodes_until].
      rewrite (H1 b) by lia. rewrite Hs. rewrite (H2 (b - N1)) by lia.
      rewrite resume_sub by lia.
      destruct (replaceRouteNodes_from chain child). cbn [fst snd]. do 2 f_equal; lia.
    + destruct (animate_until_enough nodeToInsert
                  (member "show" (routeAnimation nodeToInsert))) as [N2 H2].
      destruct (IH nodeToInsert) as [N3 H3].
      exists (N1 + N2 + N3 + 1). intros b Hb. cbn [replaceRouteNodes_until].
      rewrite (H1 b) by lia. rewrite Hs. cbv zeta. rewrite (H2 (b - N1)) by lia.
      rewrite (H3 (b - N1 - N2)) by lia. rewrite resume_sub by lia.
      destruct (replaceRouteNodes_from chain nodeToInsert). cbn [fst snd]. do 2 f_equal; lia.
Qed.

(** *** Navigations *)

Section Until.
Variable pattern_test : string → string → bool.

Lemma navigate_from_until_S awaited fuel route st :
  navigate_from_until pattern_test awaited (S fuel) route st =
    if negb (updateComplete st) then Some ([Pending], [], st, true) else
    match getMatchingRoute pattern_test (routes st) route with
    | None => Some ([Fulfilled ResolverResult], [], st, true)
    | Some futureRoute =>
        let chain := componentChain futureRoute (nextId st) in
        let next := nextId st + length chain in
        match whereToRedirect futureRoute with
        | Some target =>
            if MAX_REDIRECTIONS <? redirectionCount st
            then Some ([Rejected circular], [], thrown st next, true)
            else
              '(settled, events, st', finished) ←
                navigate_from_until pattern_test awaited fuel target (redirected st next);
              Some (Fulfilled ResolverResult :: settled, events, st', finished)
        | None =>
            let '(outlet', events, unspent) :=
              replaceRouteNodes_until awaited chain (outlet st) in
            Some ([Fulfilled (RoutePath route)], events,
                  settled_on st route outlet' next, bool_decide (is_Some unspent))
        end
    end.
Proof. done. Qed.


(** The promises settle as in [navigate_from], wherever the
    reconciliation stands. *)
Lemma navigate_from_until_settled awaited fuel : ∀ route st settled events st',
  navigate_from pattern_test fuel route st = Some (settled, events, st') →
  ∃ events' st'' finished,
    navigate_from_until pattern_test awaited fuel route st
    = Some (settled, events', st'', finished).
Proof.
  induction fuel as [|fuel IH]; intros route st s e st' H; [done|].
  rewrite navigate_from_S in H. rewrite navigate_from_until_S.
  destruct (negb (updateComplete st)); [injection H as <- <- <-; by eexists _, _, _|].
  destruct (getMatchingRoute _ _ _) as [fr|]; [|injection H as <- <- <-; by eexists _, _, _].
  cbv zeta in *. destruct (whereToRedirect fr) as [target|].
  - destruct (_ <? _); [injection H as <- <- <-; by eexists _, _, _|].
    destruct (navigate_from _ fuel _ _) as [[[s' e'] st'']|] eqn:Hn; [|done].
    simpl in H. injection H as <- <- <-.
    destruct (IH _ _ _ _ _ Hn) as (e2 & st2 & f2 & ->). simpl. by eexists _, _, _.
  - destruct (replaceRouteNodes _ _ _) as [o' ev]. injection H as <- <- <-.
    destruct (replaceRouteNodes_until _ _ _) as [[o2 ev2] u2]. by eexists _, _, _.
Qed.


(** With enough of the [await]s of the reconciliation resumed, it has
    run to its end. *)
Lemma navigate_from_until_enough fuel : ∀ route st settled events st',
  navigate_from pattern_test fuel route st = Some (settled, events, st') →
  ∃ N, ∀ awaited, N ≤ awaited →
    navigate_from_until pattern_test awaited fuel route st = Some (settled, events, st', true).
Proof.
  induction fuel as [|fuel IH]; intros route st s e st' H; [done|].
  rewrite navigate_from_S in H.
  assert (∀ r, (∀ awaited, navigate_from_until pattern_test awaited (S fuel) route st = r) →
            ∃ N : nat, ∀ awaited, N ≤ awaited →
              navigate_from_until pattern_test awaited (S fuel) route st = r) as Hconst.
  { intros r Hr. exists 0. intros awaited _. apply Hr. }
  destruct (negb (updateComplete st)) eqn:Hg.
  { injection H as <- <- <-. apply Hconst. intros a. by rewrite navigate_from_until_S, Hg. }
  destruct (getMatchingRoute _ _ _) as [fr|] eqn:Hm.
  2:{ injection H as <- <- <-. apply Hconst. intros a. by rewrite navigate_from_until_S, Hg, Hm. }
  cbv zeta in *. destruct (whereToRedirect fr) as [target|] eqn:Hw.
  - destruct (_ <? _) eqn:Hc.
    { injection H as <- <- <-. apply Hconst. intros a.
      rewrite navigate_from_until_S, Hg, Hm. cbv zeta. by rewrite Hw, Hc. }
    destruct (navigate_from _ fuel _ _) as [[[s' e'] st'']|] eqn:Hn; [|done].
    simpl in H. injection H as <- <- <-.
    destruct (IH _ _ _ _ _ Hn) as [N HN]. exists N. intros a Ha.
    rewrite navigate_from_until_S, Hg, Hm. cbv zeta. by rewrite Hw, Hc, (HN a Ha).
  - unfold replaceRouteNodes in H. rewrite drop_0 in H.
    destruct (replaceRouteNodes_until_enough (componentChain fr (nextId st)) (outlet st))
      as [N HN].
    destruct (replaceRouteNodes_from _ _) as [o' ev]. injection H as <- <- <-.
    exists N. intros a Ha.
    rewrite navigate_from_until_S, Hg, Hm. cbv zeta. by rewrite Hw, (HN a Ha).
Qed.

Lemma navigate_until_total awaited route st :
  is_Some (navigate_until pattern_test awaited route st).
Proof.
  destruct (navigate_total pattern_test route st) as [[[s e] st'] H].
  destruct (navigate_from_until_settled awaited _ _ _ _ _ _ H) as (e' & st'' & f & H').
  unfold navigate_until. by rewrite H'.
Qed.

End Until.






(** ** A redirect from end to end *)



(** ** Who sees the circular-redirection error *)

Lemma navigate_from_rejected pattern_test fuel : ∀ route st settled events st',
  navigate_from pattern_test fuel route st = Some (settled, events, st') →
  Rejected circular ∈ settled →
  last settled = Some (Rejected circular) ∧
  (head settled = Some (Rejected circular) ↔ MAX_REDIRECTIONS < redirectionCount st) ∧
  (head settled ≠ Some (Rejected circular) → head settled = Some (Fulfilled ResolverResult)).
Proof.
  induction fuel as [|fuel IH]; intros route st s e st' H Hin; [done|].
  rewrite navigate_from_S in H.
  destruct (negb (updateComplete st)).
  { injection H as <- <- <-. apply list_elem_of_singleton in Hin. done. }
  destruct (getMatchingRoute _ _ _) as [fr|]; cbv zeta in H.
  2:{ injection H as <- <- <-. apply list_elem_of_singleton in Hin. done. }
  destruct (whereToRedirect fr) as [target|].
  - destruct (MAX_REDIRECTIONS <? redirectionCount st) eqn:Hc.
    + injection H as <- <- <-. apply Nat.ltb_lt in Hc. by repeat split.
    + destruct (navigate_from _ fuel _ _) as [[[s' e'] st'']|] eqn:Hn; [|done].
      injection H as <- <- <-. apply Nat.ltb_ge in Hc.
      apply elem_of_cons in Hin as [|Hin]; [done|].
      destruct (IH _ _ _ _ _ Hn Hin) as (Hlast & _ & _).
      split; [|split].
      * rewrite last_cons, Hlast. done.
      * simpl. split; [done|lia].
      * done.
  - destruct (replaceRouteNodes _ _ _). injection H as <- <- <-.
    apply list_elem_of_singleton in Hin. done.
Qed.

(** C7, as the code has it.  The circular-redirection error rejects the
    promise of the invocation that finds the counter above the
    threshold, the last of the chain.  That is the promise returned to
    the external caller only when the external call itself finds the
    counter above [MAX_REDIRECTIONS]; when an invocation started by a
    redirect finds it, the promise of the external caller has been
    fulfilled with the value of [resolver(true)]. *)
Theorem circular_error_rejects_last_invocation (pattern_test : string → string → bool)
    (route : string) (st st' : Router) (settled : list Settled) (events : list Event) :
  navigate pattern_test route st = Some (settled, events, st') →
  Rejected circular ∈ settled →
  last settled = Some (Rejected circular) ∧
  (head settled = Some (Rejected circular) ↔ MAX_REDIRECTIONS < redirectionCount st) ∧
  (head settled ≠ Some (Rejected circular) → head settled = Some (Fulfilled ResolverResult)).
Proof. apply navigate_from_rejected. Qed.

Lemma circular_error_rejects_last_invocation_witness :
  ∃ settled events st',
    navigate literal_test "a" (ready self_loop) = Some (settled, events, st') ∧
    Rejected circular ∈ settled ∧
    last settled = Some (Rejected circular) ∧
    (head settled = Some (Rejected circular)
     ↔ MAX_REDIRECTIONS < redirectionCount (ready self_loop)) ∧
    (head settled ≠ Some (Rejected circular) → head settled = Some (Fulfilled ResolverResult)).
Proof.
  destruct (navigate literal_test "a" (ready self_loop)) as [[[settled events] st']|] eqn:H;
    [|vm_compute in H; discriminate H].
  assert (Rejected circular ∈ settled) as Hin.
  { vm_compute in H. injection H as <- _ _. apply list_elem_of_In, in_rev. simpl. by left. }
  exists settled, events, st'. split; [reflexivity|]. split; [exact Hin|].
  exact (circular_error_rejects_last_invocation literal_test "a" (ready self_loop) st'
           settled events H Hin).
Defined.

(** C7, as stated, fails on [{path:'a', redirect:'a'}]: the error is
    thrown, but the promise returned to the caller of [navigate('a')] is
    fulfilled; the rejected promise is the one of the 202nd invocation. *)
Lemma circular_error_not_to_caller_counterexample :
  ∃ settled events st',
    navigate literal_test "a" (ready self_loop) = Some (settled, events, st') ∧
    settled !! 201 = Some (Rejected circular) ∧
    head settled = Some (Fulfilled ResolverResult) ∧
    head settled ≠ Some (Rejected circular).
Proof.
  eexists _, _, _. split; [vm_compute; reflexivity|]. by repeat split.
Qed.

(** ** What a redirecting invocation does *)

Lemma removeRouteElement_no_insert el parent c :
  InsertAfterBegin parent c ∉ removeRouteElement el.
Proof.
  unfold removeRouteElement, animate. destruct (truthy _); simpl; intros H;
    repeat (apply elem_of_cons in H as [H|H]; [discriminate H|]);
    by apply elem_of_nil in H.
Qed.

Lemma reversedRouteNodeRemoval_no_insert node removeParent parent c :
  InsertAfterBegin parent c ∉ reversedRouteNodeRemoval node removeParent.
Proof.
  rewrite reversedRouteNodeRemoval_postorder, elem_of_app, list_elem_of_bind.
  intros [(el & Hin & _)|Hin].
  - by apply removeRouteElement_no_insert in Hin.
  - destruct removeParent; [by apply removeRouteElement_no_insert in Hin|].
    by apply elem_of_nil in Hin.
Qed.

(** Only elements of the chain are inserted. *)
Lemma replaceRouteNodes_from_inserts chain : ∀ parent p c,
  InsertAfterBegin p c ∈ (replaceRouteNodes_from chain parent).2 → c ∈ nid <$> chain.
Proof.
  induction chain as [|n chain IH]; intros parent p c.
  - simpl. intros H. by apply reversedRouteNodeRemoval_no_insert in H.
  - rewrite replaceRouteNodes_from_cons. cbv zeta.
    assert (∀ l : list Node,
      InsertAfterBegin p c ∉ l ≫= (λ el, reversedRouteNodeRemoval el true)) as Hrem.
    { intros l (el & Hin & _)%list_elem_of_bind.
      by apply reversedRouteNodeRemoval_no_insert in Hin. }
    destruct (split_firstElementChild _) as [[[before child] after]|].
    + specialize (IH child p c).
      destruct (replaceRouteNodes_from chain child) as [child' events]. simpl.
      rewrite elem_of_app. intros [H|H]; [by apply Hrem in H|].
      apply elem_of_cons. right. by apply IH.
    + specialize (IH n p c).
      destruct (replaceRouteNodes_from chain n) as [inserted events]. simpl.
      rewrite elem_of_app, elem_of_cons, elem_of_app.
      intros [H|[H|[H|H]]].
      * by apply Hrem in H.
      * injection H as _ ->. apply elem_of_cons. by left.
      * unfold animate in H. destruct (truthy _); simpl in H;
          repeat (apply elem_of_cons in H as [H|H]; [discriminate H|]);
          by apply elem_of_nil in H.
      * apply elem_of_cons. right. by apply IH.
Qed.

Lemma componentChain_nid fr next : nid <$> componentChain fr next
  = seq next (length (InternalRoute.component fr)).
Proof.
  unfold componentChain. rewrite <- list_fmap_compose.
  replace (seq next (length (InternalRoute.component fr)))
    with (Nat.add next <$> seq 0 (length (InternalRoute.component fr)))
    by (rewrite fmap_add_seq; f_equal; lia).
  apply list_fmap_ext. intros _ i _. simpl. apply component_element_nid.
Qed.

(** The elements that a navigation inserts are elements that it has
    created. *)
Lemma navigate_from_inserts pattern_test fuel : ∀ route st settled events st' p c,
  navigate_from pattern_test fuel route st = Some (settled, events, st') →
  InsertAfterBegin p c ∈ events → nextId st ≤ c.
Proof.
  induction fuel as [|fuel IH]; intros route st s e st' p c H Hin; [done|].
  rewrite navigate_from_S in H.
  destruct (negb (updateComplete st)).
  { injection H as <- <- <-. by apply elem_of_nil in Hin. }
  destruct (getMatchingRoute _ _ _) as [fr|]; cbv zeta in H.
  2:{ injection H as <- <- <-. by apply elem_of_nil in Hin. }
  destruct (whereToRedirect fr) as [target|].
  - destruct (MAX_REDIRECTIONS <? redirectionCount st).
    { injection H as <- <- <-. by apply elem_of_nil in Hin. }
    destruct (navigate_from _ fuel _ _) as [[[s' e'] st'']|] eqn:Hn; [|done].
    injection H as <- <- <-. apply (IH _ _ _ _ _ p c Hn) in Hin. simpl in Hin. lia.
  - destruct (replaceRouteNodes _ _ _) as [o' ev] eqn:Hr. injection H as <- <- <-.
    unfold replaceRouteNodes in Hr. rewrite drop_0 in Hr.
    assert (InsertAfterBegin p c ∈
              (replaceRouteNodes_from (componentChain fr (nextId st)) (outlet st)).2) as Hin'
      by (by rewrite Hr).
    apply replaceRouteNodes_from_inserts in Hin'.
    rewrite componentChain_nid, elem_of_seq in Hin'. lia.
Qed.

(** C6, as the code has it.  A matched chain whose own, deepest redirect
    entry is defined redirects, provided the counter is not above
    [MAX_REDIRECTIONS]: the invocation leaves the counter incremented and
    its promise resolved to the invocation of [navigate] on the target,
    which it starts, and returns; what follows is what that invocation
    does, and none of the elements that this invocation has created is
    inserted.  A chain whose deepest entry is undefined does not redirect,
    whatever the entries of its ancestors: it is committed. *)
Theorem redirect_at_deepest_index (pattern_test : string → string → bool)
    (route : string) (st : Router) (futureRoute : InternalRoute) :
  updateComplete st = true →
  getMatchingRoute pattern_test (routes st) route = Some futureRoute →
  let chain := componentChain futureRoute (nextId st) in
  let next := nextId st + length chain in
  (∀ target,
     last (InternalRoute.redirect futureRoute) = Some (Some target) →
     redirectionCount st ≤ MAX_REDIRECTIONS →
     ∃ settled events st',
       navigate pattern_test target (redirected st next) = Some (settled, events, st') ∧
       navigate pattern_test route st
         = Some (Fulfilled ResolverResult :: settled, events, st') ∧
       ∀ el parent, el ∈ chain → InsertAfterBegin parent (nid el) ∉ events) ∧
  (last (InternalRoute.redirect futureRoute) = Some None →
     navigate pattern_test route st
       = Some ([Fulfilled (RoutePath route)],
               (replaceRouteNodes chain (outlet st) 0).2,
               settled_on st route (replaceRouteNodes chain (outlet st) 0).1 next)).
Proof.
  intros Hg Hm chain next. split.
  - intros target Hlast Hc.
    destruct (navigate_total pattern_test target (redirected st next)) as [[[s e] st'] Hn].
    exists s, e, st'. split; [done|]. split.
    + unfold navigate in *. cbn [redirectionCount redirected] in Hn.
      replace (S MAX_REDIRECTIONS - redirectionCount st)
        with (S (S MAX_REDIRECTIONS - S (redirectionCount st))) by lia.
      rewrite navigate_from_S, Hg, Hm. cbn [negb]. cbv zeta.
      unfold whereToRedirect. rewrite Hlast. cbn [mjoin option_join].
      replace (MAX_REDIRECTIONS <? redirectionCount st) with false
        by (symmetry; apply Nat.ltb_ge; lia).
      fold chain. fold next. by rewrite Hn.
    + intros el parent Hel Hin.
      eapply navigate_from_inserts in Hin; [|exact Hn]. cbn [nextId redirected] in Hin.
      assert (nid el ∈ nid <$> chain) as Hid by (by apply list_elem_of_fmap_2).
      unfold chain in Hid. rewrite componentChain_nid, elem_of_seq in Hid.
      unfold next, chain, componentChain in Hin. rewrite length_fmap, length_seq in Hin. lia.
  - intros Hlast. unfold navigate.
    rewrite navigate_from_S, Hg, Hm. cbn [negb]. cbv zeta.
    unfold whereToRedirect. rewrite Hlast. cbn [mjoin option_join].
    fold chain. fold next. by destruct (replaceRouteNodes chain (outlet st) 0).
Qed.

Lemma redirect_at_deepest_index_witness :
  ∃ futureRoute,
    updateComplete (ready home_away) = true ∧
    getMatchingRoute literal_test (routes (ready home_away)) "/away" = Some futureRoute ∧
    last (InternalRoute.redirect futureRoute) = Some (Some "home") ∧
    redirectionCount (ready home_away) ≤ MAX_REDIRECTIONS ∧
    ∃ settled events st',
      navigate literal_test "home" (redirected (ready home_away) 2)
        = Some (settled, events, st') ∧
      navigate literal_test "/away" (ready home_away)
        = Some (Fulfilled ResolverResult :: settled, events, st') ∧
      ∀ el parent, el ∈ componentChain futureRoute 1 →
                   InsertAfterBegin parent (nid el) ∉ events.
Proof.
  eexists. split; [reflexivity|]. split; [reflexivity|]. split; [reflexivity|].
  split; [vm_compute; lia|].
  refine (proj1 (redirect_at_deepest_index literal_test "/away" (ready home_away) _
                   eq_refl eq_refl) "home" eq_refl _).
  vm_compute; lia.
Defined.

(** [{path:'a', redirect:'b'}], without a route for ['b']: every
    [navigate('a')] makes one redirect, to a route that nothing matches. *)
Definition dead_end : list Route :=
  [Route.Build "a" None None None VUndefined (Some "b") []].

Fixpoint navigate_times (n : nat) (route : string) (st : Router) : option Router :=
  match n with
  | 0 => Some st
  | S n => '(_, _, st') ← navigate literal_test route st; navigate_times n route st'
  end.

(** C6, as stated, fails once the counter is above the threshold, here
    after 201 navigations to ['a']: the chain is matched and its deepest
    redirect entry is defined, but the invocation throws; the counter is
    not incremented, the promise in [updateComplete] is not resolved, and
    no invocation is started. *)
Lemma redirect_above_threshold_counterexample :
  ∃ st futureRoute st',
    navigate_times 201 "a" (ready dead_end) = Some st ∧
    updateComplete st = true ∧
    getMatchingRoute literal_test (routes st) "a" = Some futureRoute ∧
    last (InternalRoute.redirect futureRoute) = Some (Some "b") ∧
    navigate literal_test "a" st = Some ([Rejected circular], [], st') ∧
    redirectionCount st' ≠ S (redirectionCount st) ∧
    updateComplete st' ≠ true.
Proof.
  eexists _, _, _. split; [vm_compute; reflexivity|].
  by repeat split.
Qed.

(** ** The order of a reconciliation *)

(** The node that an event is about. *)
Definition subject (e : Event) : nat :=
  match e with
  | StopAnimations el | AnimateTo el _ _ | Remove el | InsertAfterBegin _ el => el
  end.

(** Every [a] in [l] comes before every [b] in [l]. *)
Definition before (a b : Event) (l : list Event) : Prop :=
  ∀ i j, l !! i = Some a → l !! j = Some b → i < j.

Definition is_animation_of (el : nat) (e : Event) : bool :=
  match e with AnimateTo el' _ _ => Nat.eqb el' el | _ => false end.

Lemma before_split a b (l1 l2 : list Event) :
  a ∉ l2 → b ∉ l1 → before a b (l1 ++ l2).
Proof.
  intros Ha Hb i j Hi Hj.
  destruct (decide (i < length l1)) as [|Hi'].
  - destruct (decide (j < length l1)) as [Hj'|]; [|lia].
    rewrite lookup_app_l in Hj by done. by apply list_elem_of_lookup_2 in Hj.
  - rewrite lookup_app_r in Hi by lia. by apply list_elem_of_lookup_2 in Hi.
Qed.

Lemma before_middle a b (l m r : list Event) :
  before a b m → a ∉ l → a ∉ r → b ∉ l → b ∉ r → before a b (l ++ m ++ r).
Proof.
  intros Hm Hal Har Hbl Hbr i j Hi Hj.
  assert (∀ e k, e ∉ l → e ∉ r → (l ++ m ++ r) !! k = Some e →
            length l ≤ k ∧ m !! (k - length l) = Some e) as Hin.
  { intros e k Hl Hr Hk.
    destruct (decide (k < length l)) as [|Hk'].
    { rewrite lookup_app_l in Hk by done. by apply list_elem_of_lookup_2 in Hk. }
    rewrite lookup_app_r in Hk by lia. split; [lia|].
    destruct (decide (k - length l < length m)) as [|Hk''].
    { by rewrite lookup_app_l in Hk. }
    rewrite lookup_app_r in Hk by lia. by apply list_elem_of_lookup_2 in Hk. }
  destruct (Hin a i Hal Har Hi) as [? Hi'].
  destruct (Hin b j Hbl Hbr Hj) as [? Hj'].
  specialize (Hm _ _ Hi' Hj'). lia.
Qed.

Lemma removeRouteElement_subject el e : e ∈ removeRouteElement el → subject e = nid el.
Proof.
  unfold removeRouteElement, animate. destruct (truthy _); simpl; intros H;
    repeat (apply elem_of_cons in H as [->|H]; [done|]); by apply elem_of_nil in H.
Qed.

Lemma removals_subject (ns : list Node) e :
  e ∈ ns ≫= removeRouteElement → subject e ∈ nid <$> ns.
Proof.
  intros (n & He & Hn)%list_elem_of_bind.
  rewrite (removeRouteElement_subject _ _ He). by apply list_elem_of_fmap_2.
Qed.

(** In the removal of nodes with distinct identities, what is done to a
    node comes before what is done to a later one. *)
Lemma removals_before (l1 l2 l3 : list Node) x y ex ey :
  NoDup (nid <$> (l1 ++ x :: l2 ++ y :: l3)) →
  ex ∈ removeRouteElement x → ey ∈ removeRouteElement y →
  before ex ey ((l1 ++ x :: l2 ++ y :: l3) ≫= removeRouteElement).
Proof.
  intros Hnd Hex Hey.
  replace (l1 ++ x :: l2 ++ y :: l3) with ((l1 ++ x :: l2) ++ (y :: l3)) in *
    by (by rewrite <- app_assoc).
  rewrite bind_app. rewrite fmap_app in Hnd. apply NoDup_app in Hnd as (_ & Hdis & _).
  apply before_split.
  - intros Hin%removals_subject. rewrite (removeRouteElement_subject _ _ Hex) in Hin.
    apply (Hdis (nid x)); [|done]. apply list_elem_of_fmap_2.
    apply elem_of_app. right. by left.
  - intros Hin%removals_subject. rewrite (removeRouteElement_subject _ _ Hey) in Hin.
    apply (Hdis (nid y)); [done|]. apply list_elem_of_fmap_2. by left.
Qed.

(** A node comes after its child nodes in the post-order of a tree that
    holds it. *)
Lemma postorder_child_first root : ∀ x y,
  y ∈ postorder root → x ∈ childNodes y →
  ∃ l1 l2 l3, postorder root = l1 ++ x :: l2 ++ y :: l3.
Proof.
  induction root as [i t a cs IH|i d] using Node_ind; intros x y Hy Hx.
  - rewrite postorder_eq in Hy |- *. unfold descendants in *. cbn [childNodes] in *.
    apply elem_of_app in Hy as [Hy|Hy].
    + apply list_elem_of_bind in Hy as (c & Hy & Hc).
      apply list_elem_of_split in Hc as (cs1 & cs2 & ->).
      apply Forall_app in IH as [_ IH]. apply Forall_cons in IH as [IH _].
      destruct (IH x y Hy Hx) as (l1 & l2 & l3 & Hpo).
      rewrite bind_app, bind_cons, Hpo.
      exists ((cs1 ≫= postorder) ++ l1), l2, (l3 ++ (cs2 ≫= postorder) ++ [Element i t a (cs1 ++ c :: cs2)]).
      by repeat (rewrite <- ?app_assoc, <- ?app_comm_cons).
    + apply list_elem_of_singleton in Hy as ->. cbn [childNodes] in Hx.
      apply list_elem_of_split in Hx as (cs1 & cs2 & ->).
      rewrite bind_app, bind_cons, (postorder_eq x).
      exists ((cs1 ≫= postorder) ++ descendants x), (cs2 ≫= postorder), [].
      by repeat (rewrite <- ?app_assoc, <- ?app_comm_cons).
  - simpl in Hy. apply list_elem_of_singleton in Hy as ->. by apply elem_of_nil in Hx.
Qed.

Lemma before_app_l a b (l1 l2 : list Event) :
  before a b l1 → a ∉ l2 → before a b (l1 ++ l2).
Proof.
  intros H1 Ha i j Hi Hj.
  destruct (decide (i < length l1)) as [Hi'|Hi'].
  - destruct (decide (j < length l1)) as [Hj'|]; [|lia].
    rewrite lookup_app_l in Hi, Hj by done. by apply (H1 i j).
  - rewrite lookup_app_r in Hi by lia. by apply list_elem_of_lookup_2 in Hi.
Qed.

Lemma reversedRouteNodeRemoval_true el :
  reversedRouteNodeRemoval el true = postorder el ≫= removeRouteElement.
Proof.
  by rewrite reversedRouteNodeRemoval_postorder, postorder_eq, bind_app, bind_singleton.
Qed.

Lemma removals_postorder (els : list Node) :
  els ≫= (λ el, reversedRouteNodeRemoval el true) = (els ≫= postorder) ≫= removeRouteElement.
Proof.
  induction els as [|el els IH]; [done|].
  by rewrite !bind_cons, bind_app, IH, reversedRouteNodeRemoval_true.
Qed.

(** What a reconciliation does, it does to nodes below the parent or to
    nodes of the chain. *)
Lemma replaceRouteNodes_from_subject chain : ∀ parent e,
  e ∈ (replaceRouteNodes_from chain parent).2 →
  subject e ∈ nid <$> (descendants parent ++ (chain ≫= postorder)).
Proof.
  induction chain as [|n chain IH]; intros parent e.
  - simpl. rewrite reversedRouteNodeRemoval_postorder, !app_nil_r.
    apply removals_subject.
  - rewrite replaceRouteNodes_from_cons. cbv zeta.
    assert (e ∈ filter (invalid n) (children parent) ≫= (λ el, reversedRouteNodeRemoval el true)
            → subject e ∈ nid <$> (descendants parent ++ ((n :: chain) ≫= postorder))) as Hrem.
    { rewrite removals_postorder. intros (y & He & Hy)%list_elem_of_bind.
      apply list_elem_of_bind in Hy as (c & Hy & [_ [_ Hc]%list_elem_of_filter]%list_elem_of_filter).
      rewrite (removeRouteElement_subject _ _ He). apply list_elem_of_fmap_2, elem_of_app.
      left. by eapply postorder_descendant. }
    destruct (split_firstElementChild _) as [[[before child] after]|] eqn:Hs.
    + apply split_firstElementChild_Some in Hs as (Hk & _ & _).
      assert (child ∈ childNodes parent) as Hc.
      { eapply (proj1 (list_elem_of_filter _ _ _)). rewrite Hk.
        apply elem_of_app. right. by left. }
      specialize (IH child e).
      destruct (replaceRouteNodes_from chain child) as [child' events]. cbn [fst snd] in *.
      rewrite elem_of_app. intros [H|H]; [by apply Hrem|].
      apply IH in H. rewrite fmap_app, elem_of_app in H. rewrite bind_cons, !fmap_app, !elem_of_app.
      destruct H as [H|H]; [left|by right; right].
      apply list_elem_of_fmap in H as (y & -> & Hy). apply list_elem_of_fmap_2.
      by eapply descendants_descendant.
    + specialize (IH n e).
      destruct (replaceRouteNodes_from chain n) as [inserted events]. cbn [fst snd] in *.
      intros H. apply elem_of_app in H as [H|H]; [by apply Hrem|].
      rewrite bind_cons, (postorder_eq n), !fmap_app, !elem_of_app.
      apply elem_of_cons in H as [->|H]; [|apply elem_of_app in H as [H|H]].
      * right. left. right. simpl. by left.
      * right. left. right. unfold animate in H. destruct (truthy _); simpl in H;
          repeat (apply elem_of_cons in H as [->|H]; [by left|]); by apply elem_of_nil in H.
      * apply IH in H. rewrite fmap_app, elem_of_app in H.
        destruct H as [H|H]; [right; left; by left|right; by right].
Qed.

Lemma split_firstElementChild_no_element nodes :
  Forall (λ n, is_element n = false) nodes → split_firstElementChild nodes = None.
Proof.
  induction 1 as [|n nodes Hn _ IH]; [done|]. simpl. by rewrite Hn, IH.
Qed.

Lemma invalid_true nodeToInsert el :
  tagName el ≠ tagName nodeToInsert → invalid nodeToInsert el = true.
Proof. intros H. unfold invalid. by apply bool_decide_eq_true_2. Qed.

Lemma animate_subject el anim e : e ∈ animate el anim → subject e = nid el.
Proof.
  unfold animate. destruct (truthy _); simpl; intros H;
    repeat (apply elem_of_cons in H as [->|H]; [done|]); by apply elem_of_nil in H.
Qed.

Lemma is_animation_of_subject el e : is_animation_of el e = true → subject e = el.
Proof. destruct e; try done. simpl. by intros ?%Nat.eqb_eq. Qed.

(** When no element under [parent] has the tag of [nodeToInsert], all of
    them are torn down, then [nodeToInsert] is inserted and shown, then
    the reconciliation goes on below it. *)
Lemma replaceRouteNodes_from_replace nodeToInsert chain parent :
  Forall (λ child, tagName child ≠ tagName nodeToInsert) (children parent) →
  (replaceRouteNodes_from (nodeToInsert :: chain) parent).2 =
    ((children parent ≫= postorder) ≫= removeRouteElement) ++
    [InsertAfterBegin (nid parent) (nid nodeToInsert)] ++
    animate nodeToInsert (member "show" (routeAnimation nodeToInsert)) ++
    (replaceRouteNodes_from chain nodeToInsert).2.
Proof.
  intros Hmis. rewrite replaceRouteNodes_from_cons. cbv zeta.
  rewrite (filter_id (invalid nodeToInsert) (children parent)).
  2:{ eapply Forall_impl; [exact Hmis|]. intros. by apply invalid_true. }
  rewrite split_firstElementChild_no_element.
  2:{ apply Forall_forall. intros n [Hn Hin]%list_elem_of_filter.
      destruct (is_element n) eqn:He; [|done]. exfalso.
      assert (n ∈ children parent) as Hc by (apply list_elem_of_filter; by rewrite He).
      apply (proj1 (Forall_forall _ _) Hmis) in Hc.
      rewrite (invalid_true _ _ Hc) in Hn. done. }
  rewrite removals_postorder.
  by destruct (replaceRouteNodes_from chain nodeToInsert).
Qed.

Lemma kept_first_element nodeToInsert (nodes : list Node) :
  filter is_element (filter (λ n, negb (is_element n && invalid nodeToInsert n)) nodes)
  = filter (λ n, bool_decide (tagName n = tagName nodeToInsert)) (filter is_element nodes).
Proof.
  rewrite !list_filter_filter. apply list_filter_iff. intros n. unfold invalid.
  destruct (is_element n); simpl; [|tauto].
  destruct (decide (tagName n = tagName nodeToInsert)) as [He|Hne].
  - rewrite (bool_decide_eq_true_2 _ He), bool_decide_eq_false_2; [tauto|]. by intros ?.
  - rewrite (bool_decide_eq_false_2 _ Hne), bool_decide_eq_true_2; [|done]. simpl. tauto.
Qed.

Lemma split_firstElementChild_head nodes :
  head (filter is_element nodes) = (λ s, s.1.2) <$> split_firstElementChild nodes.
Proof.
  destruct (split_firstElementChild nodes) as [[[before child] after]|] eqn:Hs; simpl.
  - apply split_firstElementChild_Some in Hs as (-> & Hc & Hb).
    rewrite filter_app, filter_none, filter_cons, decide_True; [done|by rewrite Hc|].
    eapply Forall_impl; [exact Hb|]. by intros n ->.
  - apply split_firstElementChild_None in Hs.
    rewrite filter_none; [done|].
    eapply Forall_impl; [exact Hs|]. by intros n ->.
Qed.

(** ** A teardown within a longer trace *)

Lemma NoDup_fmap_eq {A B} (f : A → B) (l : list A) x y :
  NoDup (f <$> l) → x ∈ l → y ∈ l → f x = f y → x = y.
Proof.
  induction l as [|z l IH]; intros Hnd Hx Hy Hf; [by apply elem_of_nil in Hx|].
  rewrite fmap_cons in Hnd. apply NoDup_cons in Hnd as [Hz Hnd].
  apply elem_of_cons in Hx as [Hx|Hx]; apply elem_of_cons in Hy as [Hy|Hy]; subst.
  - done.
  - exfalso. apply Hz. rewrite Hf. by apply list_elem_of_fmap_2.
  - exfalso. apply Hz. rewrite <- Hf. by apply list_elem_of_fmap_2.
  - by apply IH.
Qed.

Lemma head_elem_of {A} (l : list A) (x : A) : head l = Some x → x ∈ l.
Proof. destruct l as [|y l]; [done|]. simpl. intros [= ->]. by left. Qed.

Lemma bind_partition {A B} (P : A → bool) (f : A → list B) (l : list A) :
  l ≫= f ≡ₚ (filter P l ≫= f) ++ (filter (λ x, negb (P x)) l ≫= f).
Proof.
  induction l as [|x l IH]; [done|].
  rewrite bind_cons, !filter_cons.
  destruct (decide (P x)) as [H1|H1]; destruct (decide (negb (P x))) as [H2|H2].
  - by destruct (P x).
  - by rewrite bind_cons, <- app_assoc, <- IH.
  - rewrite bind_cons, IH, !app_assoc. f_equiv. apply Permutation_app_comm.
  - by destruct (P x).
Qed.

Lemma filter_subject_none (l : list Event) (i : nat) :
  (∀ e, e ∈ l → subject e ≠ i) → filter (λ e, bool_decide (subject e = i)) l = [].
Proof.
  intros H. apply filter_none, Forall_forall. intros e He.
  apply bool_decide_eq_false_2. by apply H.
Qed.

Lemma filter_subject_all (l : list Event) (i : nat) :
  (∀ e, e ∈ l → subject e = i) → filter (λ e, bool_decide (subject e = i)) l = l.
Proof.
  intros H. apply filter_id, Forall_forall. intros e He.
  apply bool_decide_eq_true_2. by apply H.
Qed.

(** The nodes [ns], each with its own identity, are torn down in this
    order, and nothing of what follows is done to one of them. *)
Section Teardown.
Variables (ns : list Node) (tail : list Event).
Hypothesis ns_NoDup : NoDup (nid <$> ns).
Hypothesis tail_apart : ∀ e, e ∈ tail → subject e ∉ nid <$> ns.

Lemma teardown_own y e :
  y ∈ ns → e ∈ (ns ≫= removeRouteElement) ++ tail → subject e = nid y →
  e ∈ removeRouteElement y.
Proof.
  intros Hy [He|He]%elem_of_app Hs.
  - apply list_elem_of_bind in He as (z & He & Hz).
    assert (z = y) as ->; [|done].
    apply (NoDup_fmap_eq nid ns); [done|done|done|].
    by rewrite <- (removeRouteElement_subject _ _ He).
  - exfalso. apply (tail_apart _ He). rewrite Hs. by apply list_elem_of_fmap_2.
Qed.

Lemma teardown_filter y :
  y ∈ ns →
  filter (λ e, bool_decide (subject e = nid y)) ((ns ≫= removeRouteElement) ++ tail)
  = removeRouteElement y.
Proof.
  intros Hy.
  assert (∀ e, e ∈ tail → subject e ≠ nid y) as Ht.
  { intros e He Hs. apply (tail_apart _ He). rewrite Hs. by apply list_elem_of_fmap_2. }
  pose proof ns_NoDup as Hnd. revert Hnd.
  apply list_elem_of_split in Hy as (r1 & r2 & ->).
  rewrite fmap_app, fmap_cons. intros (_ & Hd1 & Hnd2)%NoDup_app.
  apply NoDup_cons in Hnd2 as [Hd2 _].
  rewrite bind_app, bind_cons, !filter_app.
  rewrite (filter_subject_none (r1 ≫= removeRouteElement)).
  2:{ intros e He%removals_subject Hs. rewrite Hs in He. apply (Hd1 _ He). by left. }
  rewrite (filter_subject_none (r2 ≫= removeRouteElement)).
  2:{ intros e He%removals_subject Hs. by rewrite Hs in He. }
  rewrite (filter_subject_none tail) by done.
  rewrite (filter_subject_all (removeRouteElement y)).
  2:{ intros e He. by apply removeRouteElement_subject. }
  by rewrite !app_nil_r.
Qed.

Lemma teardown_children_first (el x y : Node) (k1 k2 : list Node) (ex ey : Event) :
  ns = k1 ++ postorder el ++ k2 →
  y ∈ postorder el → x ∈ childNodes y →
  subject ex = nid x → subject ey = nid y →
  before ex ey ((ns ≫= removeRouteElement) ++ tail).
Proof.
  intros Hns Hy Hx Hsx Hsy i j Hi Hj.
  destruct (postorder_child_first el x y Hy Hx) as (l1 & l2 & l3 & Hpo).
  assert (ns = (k1 ++ l1) ++ x :: l2 ++ y :: (l3 ++ k2)) as Hr.
  { rewrite Hns, Hpo. by repeat (rewrite <- ?app_assoc, <- ?app_comm_cons). }
  assert (x ∈ ns) as Hxn.
  { rewrite Hr. apply elem_of_app. right. by left. }
  assert (y ∈ ns) as Hyn.
  { rewrite Hr. apply elem_of_app. right. right. apply elem_of_app. right. by left. }
  assert (ex ∈ removeRouteElement x) as Hex.
  { apply teardown_own; [done| |done]. by eapply list_elem_of_lookup_2. }
  assert (ey ∈ removeRouteElement y) as Hey.
  { apply teardown_own; [done| |done]. by eapply list_elem_of_lookup_2. }
  revert i j Hi Hj. change (before ex ey ((ns ≫= removeRouteElement) ++ tail)).
  apply before_app_l.
  - pose proof ns_NoDup as Hnd. rewrite Hr in Hnd |- *. by apply removals_before.
  - intros He. apply (tail_apart _ He). rewrite Hsx. by apply list_elem_of_fmap_2.
Qed.

Lemma teardown_before_tail (y : Node) (e e' : Event) :
  y ∈ ns → subject e = nid y → subject e' ∉ nid <$> ns →
  before e e' ((ns ≫= removeRouteElement) ++ tail).
Proof.
  intros Hy Hs Hs'. apply before_split.
  - intros He. apply (tail_apart _ He). rewrite Hs. by apply list_elem_of_fmap_2.
  - by intros He%removals_subject.
Qed.

End Teardown.

(** What a reconciliation does at the depth of [nodeToInsert]: the
    element children of [parent] with another tag are torn down; then the
    first element child with the tag of [nodeToInsert], when there is one,
    is descended into, and else [nodeToInsert] is inserted and shown. *)
Lemma replaceRouteNodes_from_level nodeToInsert chain parent :
  (replaceRouteNodes_from (nodeToInsert :: chain) parent).2 =
    ((filter (invalid nodeToInsert) (children parent) ≫= postorder) ≫= removeRouteElement) ++
    match head (filter (λ n, bool_decide (tagName n = tagName nodeToInsert))
                  (children parent)) with
    | Some child => (replaceRouteNodes_from chain child).2
    | None =>
        [InsertAfterBegin (nid parent) (nid nodeToInsert)] ++
        animate nodeToInsert (member "show" (routeAnimation nodeToInsert)) ++
        (replaceRouteNodes_from chain nodeToInsert).2
    end.
Proof.
  rewrite replaceRouteNodes_from_cons. cbv zeta. rewrite removals_postorder.
  assert (head (filter (λ n, bool_decide (tagName n = tagName nodeToInsert))
                  (children parent))
          = (λ s, s.1.2) <$> split_firstElementChild
              (filter (λ n, negb (is_element n && invalid nodeToInsert n))
                 (childNodes parent))) as ->.
  { unfold children. rewrite <- kept_first_element. apply split_firstElementChild_head. }
  destruct (split_firstElementChild _) as [[[b c] a]|]; simpl.
  - by destruct (replaceRouteNodes_from chain c).
  - by destruct (replaceRouteNodes_from chain nodeToInsert).
Qed.

(** C2. A reconciliation reaches, at some depth, a parent with an
    element child [el] whose tag is not the one of the desired element
    [nodeToInsert]; all nodes have their own identity.  In what the call
    does:
    - each node [y] of the subtree of [el] is removed, once, and what is
      done to [y] is, in this order: its animations are stopped and its
      exit animation is played, when it has one, and it is removed;
    - what is done to a node of the subtree comes after what is done to
      each of its child nodes;
    - when no element under [parent] has the tag of [nodeToInsert]
      (mounted [[A,B]], desired [[A,C]]): [nodeToInsert] is inserted,
      once, after everything done to the subtree of [el]; then its
      animations are stopped and its enter animation is played, once, when
      it has one; nothing else is done to it;
    - when an element [child] with the tag of [nodeToInsert] is mounted
      beside [el]: nothing is done to [nodeToInsert] or to [child]; no node
      is inserted at this depth and no enter animation is played for
      it. *)
Theorem exit_before_enter (componentChain : list Node) (parent nodeToInsert el : Node)
    (depth : nat) :
  componentChain !! depth = Some nodeToInsert →
  el ∈ children parent →
  tagName el ≠ tagName nodeToInsert →
  NoDup (nid <$> (descendants parent ++ (drop depth componentChain ≫= postorder))) →
  let events := (replaceRouteNodes componentChain parent depth).2 in
  let done_to (n : Node) := filter (λ e, bool_decide (subject e = nid n)) events in
  let insertion := InsertAfterBegin (nid parent) (nid nodeToInsert) in
  let show := member "show" (routeAnimation nodeToInsert) in
  let hide (y : Node) := member "hide" (routeAnimation y) in
  (∀ y, y ∈ postorder el →
     done_to y =
       (if truthy (hide y)
        then [StopAnimations (nid y);
              AnimateTo (nid y) (member "keyframes" (hide y)) (member "options" (hide y))]
        else []) ++ [Remove (nid y)]) ∧
  (∀ y x ex ey,
     y ∈ postorder el → x ∈ childNodes y →
     subject ex = nid x → subject ey = nid y →
     before ex ey events) ∧
  (Forall (λ child, tagName child ≠ tagName nodeToInsert) (children parent) →
     done_to nodeToInsert =
       insertion ::
       (if truthy show
        then [StopAnimations (nid nodeToInsert);
              AnimateTo (nid nodeToInsert) (member "keyframes" show) (member "options" show)]
        else []) ∧
     ∀ y e, y ∈ postorder el → subject e = nid y → before e insertion events) ∧
  (∀ child,
     head (filter (λ n, bool_decide (tagName n = tagName nodeToInsert)) (children parent))
       = Some child →
     done_to nodeToInsert = [] ∧ done_to child = []).
Proof.
  intros Hnth Hel Hne Hnd events done_to insertion show hide.
  unfold done_to, events, replaceRouteNodes. clear done_to events.
  rewrite (drop_S _ _ _ Hnth) in Hnd |- *.
  set (rest := drop (S depth) componentChain) in *.
  rewrite replaceRouteNodes_from_level. fold insertion. fold show.
  set (removedNodes := filter (invalid nodeToInsert) (children parent) ≫= postorder).
  set (keptNodes :=
         filter (λ c, negb (invalid nodeToInsert c)) (children parent) ≫= postorder).
  set (tail := match head _ with Some child => _ | None => _ end).
  (* identities *)
  rewrite bind_cons, (postorder_eq nodeToInsert), !fmap_app in Hnd. simpl in Hnd.
  apply NoDup_app in Hnd as (Hnd_parent & Hapart & Hnd_chain).
  assert (children parent ≫= postorder ≡ₚ removedNodes ++ keptNodes) as Hperm
    by apply bind_partition.
  assert ((children parent ≫= postorder) `sublist_of` descendants parent) as Hsub.
  { unfold descendants, children. apply bind_sublist, sublist_filter. }
  assert (NoDup (nid <$> (removedNodes ++ keptNodes))) as Hnd_both.
  { rewrite <- Hperm. eapply sublist_NoDup; [exact Hnd_parent|by apply fmap_sublist]. }
  rewrite fmap_app in Hnd_both.
  apply NoDup_app in Hnd_both as (Hnd_removed & Hrk & Hnd_kept).
  assert (∀ y, y ∈ removedNodes ∨ y ∈ keptNodes → nid y ∈ nid <$> descendants parent)
    as Hin_parent.
  { intros y Hy. apply list_elem_of_fmap_2. eapply elem_of_sublist; [|exact Hsub].
    rewrite Hperm. by apply elem_of_app. }
  assert (∀ i, i ∈ nid <$> removedNodes → i ∈ nid <$> descendants parent) as Hrm_parent.
  { intros i (y & -> & Hy)%list_elem_of_fmap. apply Hin_parent. by left. }
  assert (∀ i, i ∈ (nid <$> descendants nodeToInsert) ++ (nid <$> rest ≫= postorder)
               ∨ i = nid nodeToInsert →
            i ∈ ((nid <$> descendants nodeToInsert) ++ [nid nodeToInsert])
                ++ (nid <$> rest ≫= postorder)) as Hchain.
  { intros i [[Hi|Hi]%elem_of_app|Hi]; apply elem_of_app.
    - left. apply elem_of_app. by left.
    - by right.
    - subst i. left. apply elem_of_app. right. by left. }
  assert (nid nodeToInsert ∉ nid <$> descendants parent) as Hc_parent.
  { intros Hin. apply (Hapart _ Hin), Hchain. by right. }
  assert (∀ i, i ∈ nid <$> descendants parent → i ∉ nid <$> rest ≫= postorder) as Hrest.
  { intros i Hin Hi. apply (Hapart _ Hin), Hchain. left. apply elem_of_app. by right. }
  assert (nid nodeToInsert ∉ (nid <$> descendants nodeToInsert) ++ (nid <$> rest ≫= postorder))
    as Hc_below.
  { rewrite <- app_assoc in Hnd_chain. apply NoDup_app in Hnd_chain as (_ & Hd1 & Hnd2).
    simpl in Hnd2. apply NoDup_cons in Hnd2 as [Hd2 _].
    rewrite elem_of_app. intros [Hin|Hin]; [|done].
    apply (Hd1 _ Hin). by left. }
  assert (∀ e, e ∈ (replaceRouteNodes_from rest nodeToInsert).2 →
            subject e ∈ (nid <$> descendants nodeToInsert) ++ (nid <$> rest ≫= postorder))
    as Hs_below.
  { intros e He%replaceRouteNodes_from_subject. by rewrite fmap_app in He. }
  (* the element that is retained, when there is one *)
  assert (∀ child,
            head (filter (λ n, bool_decide (tagName n = tagName nodeToInsert))
                    (children parent)) = Some child →
            child ∈ children parent ∧ tagName child = tagName nodeToInsert ∧
            (∀ y, y ∈ postorder child → y ∈ keptNodes) ∧
            nid child ∉ nid <$> descendants child) as Hchild.
  { intros child Hh.
    assert (child ∈ filter (λ n, bool_decide (tagName n = tagName nodeToInsert))
                      (children parent)) as Hc.
    { by apply head_elem_of. }
    apply list_elem_of_filter in Hc as [Ht%bool_decide_unpack Hc].
    assert (child ∈ filter (λ c, negb (invalid nodeToInsert c)) (children parent)) as Hk.
    { apply list_elem_of_filter. split; [|done]. unfold invalid.
      by rewrite bool_decide_eq_false_2 by (by intros ?). }
    split; [done|]. split; [done|].
    apply list_elem_of_split in Hk as (g1 & g2 & Hg).
    split.
    { intros y Hy. unfold keptNodes. rewrite Hg. apply list_elem_of_bind.
      exists child. split; [done|]. apply elem_of_app. right. by left. }
    unfold keptNodes in Hnd_kept. rewrite Hg, bind_app, bind_cons, !fmap_app in Hnd_kept.
    apply NoDup_app in Hnd_kept as (_ & _ & Hnd_kept).
    apply NoDup_app in Hnd_kept as (Hnd_kept & _ & _).
    rewrite postorder_eq, fmap_app in Hnd_kept.
    apply NoDup_app in Hnd_kept as (_ & Hd & _).
    intros Hin. apply (Hd _ Hin). by left. }
  assert (∀ child e,
            head (filter (λ n, bool_decide (tagName n = tagName nodeToInsert))
                    (children parent)) = Some child →
            e ∈ (replaceRouteNodes_from rest child).2 →
            (subject e ∉ nid <$> removedNodes) ∧
            subject e ≠ nid nodeToInsert ∧ subject e ≠ nid child) as Hs_child.
  { intros child e Hh He. destruct (Hchild child Hh) as (Hc & Ht & Hk & Hself).
    apply replaceRouteNodes_from_subject in He. rewrite fmap_app in He.
    assert (nid child ∈ nid <$> keptNodes) as Hck.
    { apply list_elem_of_fmap_2, Hk. rewrite postorder_eq. apply elem_of_app. right. by left. }
    apply elem_of_app in He as [He|He].
    - assert (subject e ∈ nid <$> keptNodes) as Hek.
      { apply list_elem_of_fmap in He as (y & -> & Hy). apply list_elem_of_fmap_2, Hk.
        rewrite postorder_eq. apply elem_of_app. by left. }
      split; [intros Hin; by apply (Hrk _ Hin)|]. split.
      + intros Hs. apply Hc_parent. rewrite <- Hs.
        apply list_elem_of_fmap in Hek as (y & -> & Hy). apply Hin_parent. by right.
      + intros Hs. by rewrite Hs in He.
    - split; [intros Hin%Hrm_parent; by apply (Hrest _ Hin)|]. split.
      + intros Hs. apply Hc_below. rewrite <- Hs. apply elem_of_app. by right.
      + intros Hs. rewrite Hs in He.
        apply list_elem_of_fmap in Hck as (y & Heq & Hy). rewrite Heq in He.
        apply (Hrest (nid y)); [|done]. apply Hin_parent. by right. }
  assert (∀ e, e ∈ tail → subject e ∉ nid <$> removedNodes) as Htail.
  { intros e He. unfold tail in He. destruct (head _) as [child|] eqn:Hh.
    - by apply (Hs_child child e).
    - intros Hin%Hrm_parent. apply (Hapart _ Hin), Hchain.
      apply elem_of_cons in He as [->|He]; [by right|].
      apply elem_of_app in He as [He|He].
      + right. by apply animate_subject in He.
      + left. by apply Hs_below. }
  assert (el ∈ filter (invalid nodeToInsert) (children parent)) as Hel'.
  { apply list_elem_of_filter. split; [|done]. unfold invalid. by apply bool_decide_pack. }
  assert (∀ y, y ∈ postorder el → y ∈ removedNodes) as Hy_removed.
  { intros y Hy. apply list_elem_of_bind. eauto. }
  split; [|split; [|split]].
  - intros y Hy.
    by rewrite (teardown_filter removedNodes tail Hnd_removed Htail y (Hy_removed y Hy)).
  - intros y x ex ey Hy Hx Hsx Hsy.
    apply list_elem_of_split in Hel' as (k1 & k2 & Hk).
    apply (teardown_children_first removedNodes tail Hnd_removed Htail el x y
             (k1 ≫= postorder) (k2 ≫= postorder)); try done.
    unfold removedNodes. by rewrite Hk, bind_app, bind_cons.
  - intros Hmis.
    assert (tail = [insertion] ++ animate nodeToInsert show
                     ++ (replaceRouteNodes_from rest nodeToInsert).2) as ->.
    { unfold tail. destruct (head _) as [child|] eqn:Hh; [|done].
      destruct (Hchild child eq_refl) as (Hc & Ht & _).
      by apply (proj1 (Forall_forall _ _) Hmis) in Hc. }
    split.
    + rewrite !filter_app.
      rewrite (filter_subject_none (removedNodes ≫= removeRouteElement)).
      2:{ intros e He%removals_subject Hs. rewrite Hs in He. by apply Hc_parent, Hrm_parent. }
      rewrite (filter_subject_all [insertion]).
      2:{ by intros e ->%list_elem_of_singleton. }
      rewrite (filter_subject_all (animate nodeToInsert show)).
      2:{ intros e He. by apply animate_subject in He. }
      rewrite (filter_subject_none (replaceRouteNodes_from rest nodeToInsert).2).
      2:{ intros e He%Hs_below Hs. rewrite Hs in He. by apply Hc_below. }
      unfold animate. by destruct (truthy show).
    + intros y e Hy Hs.
      apply (teardown_before_tail removedNodes _ Htail y); [by apply Hy_removed|done|].
      intros Hin%Hrm_parent. by apply Hc_parent.
  - intros child Hh.
    assert (tail = (replaceRouteNodes_from rest child).2) as Htl.
    { unfold tail. by rewrite Hh. }
    destruct (Hchild child Hh) as (Hc & Ht & Hk & Hself).
    assert (nid child ∈ nid <$> keptNodes) as Hck.
    { apply list_elem_of_fmap_2, Hk. rewrite postorder_eq. apply elem_of_app. right. by left. }
    assert (∀ e, e ∈ (removedNodes ≫= removeRouteElement) ++ tail →
              subject e ≠ nid nodeToInsert ∧ subject e ≠ nid child) as Hnone.
    { intros e [He|He]%elem_of_app.
      - apply removals_subject in He. split.
        + intros Hs. rewrite Hs in He. by apply Hc_parent, Hrm_parent.
        + intros Hs. rewrite Hs in He. by apply (Hrk _ He).
      - rewrite Htl in He. by apply (Hs_child child e Hh He). }
    split.
    + apply filter_subject_none. intros e He. by apply Hnone.
    + apply filter_subject_none. intros e He. by apply Hnone.
Qed.


(** The example of the specification: [[A,B]] is mounted, with a text
    node and an element under [B]; [[A,C]] is desired. *)
Definition fade : snapshot :=
  SObject [("show", SObject [("keyframes", SString "in"); ("options", SNumber 100)]);
           ("hide", SObject [("keyframes", SString "out"); ("options", SNumber 100)])].

Definition mounted_B : Node :=
  Element 3 "B" fade [CharacterData 4 "text"; Element 5 "D" SUndefined []].

Definition mounted_A : Node := Element 2 "A" fade [mounted_B].

Definition desired_C : Node := Element 11 "C" fade [].

Definition desired_AC : list Node := [Element 10 "A" fade []; desired_C].

(** [B] and an element [C] are mounted side by side under [A]. *)
Definition mounted_C : Node := Element 6 "C" fade [].

Definition mounted_A_with_C : Node := Element 2 "A" fade [mounted_B; mounted_C].

Definition mounted_outlet : Node := Element 0 "OUTLET" SUndefined [mounted_A_with_C].

Lemma exit_before_enter_witness :
  desired_AC !! 1 = Some desired_C ∧
  mounted_B ∈ children mounted_A ∧
  tagName mounted_B ≠ tagName desired_C ∧
  NoDup (nid <$> (descendants mounted_A ++ (drop 1 desired_AC ≫= postorder))) ∧
  let events := (replaceRouteNodes desired_AC mounted_A 1).2 in
  let done_to (n : Node) := filter (λ e, bool_decide (subject e = nid n)) events in
  let insertion := InsertAfterBegin (nid mounted_A) (nid desired_C) in
  let show := member "show" (routeAnimation desired_C) in
  let hide (y : Node) := member "hide" (routeAnimation y) in
  (∀ y, y ∈ postorder mounted_B →
     done_to y =
       (if truthy (hide y)
        then [StopAnimations (nid y);
              AnimateTo (nid y) (member "keyframes" (hide y)) (member "options" (hide y))]
        else []) ++ [Remove (nid y)]) ∧
  (∀ y x ex ey,
     y ∈ postorder mounted_B → x ∈ childNodes y →
     subject ex = nid x → subject ey = nid y →
     before ex ey events) ∧
  (Forall (λ child, tagName child ≠ tagName desired_C) (children mounted_A) →
     done_to desired_C =
       insertion ::
       (if truthy show
        then [StopAnimations (nid desired_C);
              AnimateTo (nid desired_C) (member "keyframes" show) (member "options" show)]
        else []) ∧
     ∀ y e, y ∈ postorder mounted_B → subject e = nid y → before e insertion events) ∧
  (∀ child,
     head (filter (λ n, bool_decide (tagName n = tagName desired_C)) (children mounted_A))
       = Some child →
     done_to desired_C = [] ∧ done_to child = []).
Proof.
  assert (desired_AC !! 1 = Some desired_C) as H1 by reflexivity.
  assert (mounted_B ∈ children mounted_A) as H2 by (vm_compute; left).
  assert (tagName mounted_B ≠ tagName desired_C) as H3 by discriminate.
  assert (NoDup (nid <$> (descendants mounted_A ++ (drop 1 desired_AC ≫= postorder)))) as H4
    by (refine (bool_decide_unpack _ _); vm_compute; exact I).
  split; [exact H1|]. split; [exact H2|]. split; [exact H3|]. split; [exact H4|].
  exact (exit_before_enter desired_AC mounted_A desired_C mounted_B 1 H1 H2 H3 H4).
Defined.

(** [[A,C]] is desired where [B] and [C] are mounted side by side under
    [A]: [B] does not match, and is torn down; the mounted [C] is
    retained; no element is inserted and no enter animation is played. *)
Lemma exit_before_enter_counterexample :
  let events := (replaceRouteNodes desired_AC mounted_outlet 0).2 in
  descend 2 mounted_outlet = Some mounted_B ∧
  desired_AC !! 1 = Some desired_C ∧
  tagName mounted_B ≠ tagName desired_C ∧
  NoDup (nid <$> (descendants mounted_outlet ++ (desired_AC ≫= postorder))) ∧
  events = [Remove 4; Remove 5;
            StopAnimations 3; AnimateTo 3 (SString "out") (SNumber 100); Remove 3] ∧
  (∀ p n, InsertAfterBegin p n ∉ events) ∧
  (∀ n options, AnimateTo n (SString "in") options ∉ events) ∧
  filter (is_animation_of (nid desired_C)) events
    ≠ [AnimateTo (nid desired_C) (SString "in") (SNumber 100)].
Proof.
  assert ((replaceRouteNodes desired_AC mounted_outlet 0).2
          = [Remove 4; Remove 5;
             StopAnimations 3; AnimateTo 3 (SString "out") (SNumber 100); Remove 3]) as Hev
    by (vm_compute; reflexivity).
  cbv zeta. rewrite Hev.
  split; [reflexivity|]. split; [reflexivity|]. split; [discriminate|].
  split; [refine (bool_decide_unpack _ _); vm_compute; exact I|].
  split; [reflexivity|].
  split; [|split].
  - intros p n H.
    repeat (apply elem_of_cons in H as [H|H]; [discriminate H|]). by apply elem_of_nil in H.
  - intros n options H.
    repeat (apply elem_of_cons in H as [H|H]; [discriminate H|]). by apply elem_of_nil in H.
  - vm_compute. discriminate.
Qed.

(** * Further properties *)

(** ** What [deepClone] allocates *)

(** The values that an object holds. *)
Definition fields (o : object) : list value :=
  match o with
  | OArray elems => elems
  | ODate _ => []
  | OPlain props => props.*2
  end.

(** The object at [l] holds a reference to [l']. *)
Definition refers (h : heap) (l l' : loc) : Prop :=
  ∃ o, h !! l = Some o ∧ VRef l' ∈ fields o.

(** [a] is [l] or an object found from [l] by following references:
    an array, a date or a plain object.  A function is a value of its
    own ([VFunction]), which stands for the function object: it is not
    in the heap, and [deepClone] returns it as it is. *)
Inductive reaches (h : heap) : loc → loc → Prop :=
| reaches_here l : reaches h l l
| reaches_step l l' a : refers h l l' → reaches h l' a → reaches h l a.

Lemma array_map_prefix f elems : ∀ (h : heap) elems' h',
  (∀ v (h : heap) v' h', f v h = Some (v', h') → h `prefix_of` h') →
  array_map f elems h = Some (elems', h') → h `prefix_of` h'.
Proof.
  induction elems as [|v rest IH]; intros h elems' h' Hf Hm; simpl in Hm.
  { by inversion Hm. }
  destruct (f v h) as [[v1 h1]|] eqn:Hv; simpl in Hm; [|done].
  destruct (array_map f rest h1) as [[rest' h2]|] eqn:Hr; simpl in Hm; [|done].
  inversion Hm; subst. etrans; [by eapply Hf|by eapply IH].
Qed.

Lemma for_in_prefix f props : ∀ clone (h : heap) props' h',
  (∀ v (h : heap) v' h', f v h = Some (v', h') → h `prefix_of` h') →
  for_in f props clone h = Some (props', h') → h `prefix_of` h'.
Proof.
  induction props as [|[p v] rest IH]; intros clone h props' h' Hf Hm; simpl in Hm.
  { by inversion Hm. }
  destruct (f v h) as [[v1 h1]|] eqn:Hv; simpl in Hm; [|done].
  etrans; [by eapply Hf|by eapply IH].
Qed.

(** [deepClone] writes to no object that exists: it only adds objects. *)
Lemma deepClone_prefix n : ∀ v (h : heap) v' h',
  deepClone n v h = Some (v', h') → h `prefix_of` h'.
Proof.
  induction n as [|n IH]; intros v h v' h' Hc; [done|].
  destruct v; simpl in Hc; try (by inversion Hc).
  destruct (h !! l) as [[elems|time|props]|]; simpl in Hc; [| | |done].
  - destruct (array_map _ elems h) as [[elems' h1]|] eqn:Hm; simpl in Hc; [|done].
    inversion Hc; subst. etrans; [by eapply array_map_prefix|by apply prefix_app_r].
  - inversion Hc; subst. by apply prefix_app_r.
  - destruct (for_in _ props [] h) as [[props' h1]|] eqn:Hm; simpl in Hc; [|done].
    inversion Hc; subst. etrans; [by eapply for_in_prefix|by apply prefix_app_r].
Qed.

(** A primitive is returned as it is; the copy of an object is the last
    object of the heap that the call leaves. *)
Lemma deepClone_result n v (h : heap) v' h' :
  deepClone n v h = Some (v', h') →
  match v with
  | VRef _ => ∃ c, v' = VRef c ∧ length h ≤ c ∧ length h' = S c
  | _ => v' = v ∧ h' = h
  end.
Proof.
  intros Hc. pose proof (deepClone_prefix _ _ _ _ _ Hc) as Hp.
  destruct n as [|n]; [done|].
  destruct v; simpl in Hc; try (by inversion Hc).
  destruct (h !! l) as [[elems|time|props]|]; simpl in Hc; [| | |done].
  - destruct (array_map _ elems h) as [[elems' h1]|] eqn:Hm; simpl in Hc; [|done].
    inversion Hc; subst. exists (length h1). split; [done|].
    apply array_map_prefix in Hm; [|apply deepClone_prefix].
    apply prefix_length in Hm. rewrite length_app. simpl. lia.
  - inversion Hc; subst. exists (length h). rewrite length_app. simpl. split; [done|lia].
  - destruct (for_in _ props [] h) as [[props' h1]|] eqn:Hm; simpl in Hc; [|done].
    inversion Hc; subst. exists (length h1). split; [done|].
    apply for_in_prefix in Hm; [|apply deepClone_prefix].
    apply prefix_length in Hm. rewrite length_app. simpl. lia.
Qed.

(** The copies of the elements of an array, position by position: the
    references among them go to objects made one after the other. *)
Lemma array_map_refs n elems : ∀ (h : heap) elems' h',
  array_map (deepClone n) elems h = Some (elems', h') →
  length elems' = length elems ∧
  (∀ i v', elems' !! i = Some v' →
     ∃ v, elems !! i = Some v ∧
          match v with
          | VRef _ => ∃ c, v' = VRef c ∧ length h ≤ c < length h'
          | _ => v' = v
          end) ∧
  (∀ i j a b, i < j → elems' !! i = Some (VRef a) → elems' !! j = Some (VRef b) → a < b).
Proof.
  induction elems as [|v rest IH]; intros h elems' h' Hm; simpl in Hm.
  { inversion Hm; subst. split; [done|]. split; intros; by simplify_list_eq. }
  destruct (deepClone n v h) as [[v1 h1]|] eqn:Hv; simpl in Hm; [|done].
  destruct (array_map _ rest h1) as [[rest' h2]|] eqn:Hr; simpl in Hm; [|done].
  inversion Hm; subst. clear Hm.
  destruct (IH _ _ _ Hr) as (Hlen & Hpos & Hinc).
  pose proof (prefix_length _ _ (deepClone_prefix _ _ _ _ _ Hv)) as L1.
  pose proof (prefix_length _ _ (array_map_prefix _ _ _ _ _ (deepClone_prefix n) Hr)) as L2.
  pose proof (deepClone_result _ _ _ _ _ Hv) as Hres.
  split; [simpl; by rewrite Hlen|]. split.
  - intros [|i] v' Hi; simpl in Hi.
    + inversion Hi; subst. exists v. split; [done|].
      destruct v; try (by destruct Hres).
      destruct Hres as (c & -> & ? & ?). exists c. split; [done|lia].
    + destruct (Hpos _ _ Hi) as (v0 & Hv0 & Hm). exists v0. split; [done|].
      destruct v0; try done. destruct Hm as (c & -> & ?). exists c. split; [done|lia].
  - intros [|i] [|j] a b Hij Hi Hj; simpl in *; try lia.
    + inversion Hi; subst.
      destruct (Hpos _ _ Hj) as (v0 & _ & Hm).
      destruct v0; try done. destruct Hm as (c & [= <-] & ?).
      destruct v; try (by destruct Hres). destruct Hres as (c' & [= <-] & ? & ?). lia.
    + eapply Hinc; [|done..]. lia.
Qed.

(** X1. An array that holds the same object at two places is copied with
    two copies of that object: [deepClone] copies every occurrence on its
    own, it does not keep track of what it has copied.  Both copies are
    new objects. *)
Theorem clone_copies_a_shared_element_twice (stack : nat) (h h' : heap) (l : loc)
    (elems : list value) (v' : value) :
  h !! l = Some (OArray elems) →
  deepClone stack (VRef l) h = Some (v', h') →
  ∃ c elems',
    v' = VRef c ∧ h' !! c = Some (OArray elems') ∧ length elems' = length elems ∧
    ∀ i j x, i ≠ j → elems !! i = Some (VRef x) → elems !! j = Some (VRef x) →
      ∃ a b, elems' !! i = Some (VRef a) ∧ elems' !! j = Some (VRef b) ∧
             a ≠ b ∧ length h ≤ a ∧ length h ≤ b.
Proof.
  intros Hl Hc. destruct stack as [|n]; [done|].
  simpl in Hc. rewrite Hl in Hc. simpl in Hc.
  destruct (array_map _ elems h) as [[elems' h1]|] eqn:Hm; simpl in Hc; [|done].
  inversion Hc; subst. clear Hc.
  destruct (array_map_refs _ _ _ _ _ Hm) as (Hlen & Hpos & Hinc).
  exists (length h1), elems'. split; [done|]. split; [apply lookup_alloc|]. split; [done|].
  assert (∀ i x, elems !! i = Some (VRef x) →
            ∃ a, elems' !! i = Some (VRef a) ∧ length h ≤ a) as Hcopy.
  { intros i x Hi.
    destruct (lookup_lt_is_Some_2 elems' i) as [w Hw].
    { rewrite Hlen. by eapply lookup_lt_Some. }
    destruct (Hpos _ _ Hw) as (v0 & Hv0 & Hw').
    rewrite Hi in Hv0. inversion Hv0; subst.
    destruct Hw' as (a & -> & ? & _). by exists a. }
  intros i j x Hij Hi Hj.
  destruct (Hcopy _ _ Hi) as (a & Ha & ?), (Hcopy _ _ Hj) as (b & Hb & ?).
  exists a, b. repeat split; try done.
  destruct (Nat.lt_total i j) as [Hlt|[?|Hlt]]; [|done|].
  - pose proof (Hinc _ _ _ _ Hlt Ha Hb). lia.
  - pose proof (Hinc _ _ _ _ Hlt Hb Ha). lia.
Qed.

Definition shared_twice : heap := [OPlain [("opacity", VNumber 0)]; OArray [VRef 0; VRef 0]].

Lemma clone_copies_a_shared_element_twice_witness :
  ∃ c elems',
    VRef 4 = VRef c ∧
    (shared_twice ++ [OPlain [("opacity", VNumber 0)]; OPlain [("opacity", VNumber 0)];
                      OArray [VRef 2; VRef 3]]) !! c = Some (OArray elems') ∧
    length elems' = length [VRef 0; VRef 0] ∧
    ∀ i j x, i ≠ j → [VRef 0; VRef 0] !! i = Some (VRef x) →
      [VRef 0; VRef 0] !! j = Some (VRef x) →
      ∃ a b, elems' !! i = Some (VRef a) ∧ elems' !! j = Some (VRef b) ∧
             a ≠ b ∧ length shared_twice ≤ a ∧ length shared_twice ≤ b.
Proof.
  exact (clone_copies_a_shared_element_twice 3 shared_twice _ 1 [VRef 0; VRef 0] (VRef 4)
           eq_refl eq_refl).
Defined.

(** Reading in a longer heap what was complete in a shorter one. *)
Lemma reaches_prefix (h h' : heap) c :
  h `prefix_of` h' → (∀ a, reaches h c a → a < length h) →
  ∀ a, reaches h' c a → reaches h c a.
Proof.
  intros Hp Hcl a Hr. induction Hr as [l|l l' a (o & Hl & Hin) Hr IH]; [constructor|].
  assert (refers h l l') as Href.
  { exists o. split; [|done]. destruct Hp as [k ->].
    rewrite lookup_app_l in Hl; [done|]. apply Hcl. constructor. }
  eapply reaches_step; [exact Href|]. apply IH.
  intros b Hb. apply Hcl. by eapply reaches_step.
Qed.

Lemma put_prop_values p v props w :
  w ∈ (put_prop p v props).*2 → w = v ∨ w ∈ props.*2.
Proof.
  induction props as [|[q u] rest IH]; simpl.
  { rewrite list_elem_of_singleton. by left. }
  destruct (String.eqb p q); simpl; rewrite !elem_of_cons.
  - intros [->|Hw]; [by left|right; by right].
  - intros [->|Hw]; [right; by left|].
    destruct (IH Hw) as [->|?]; [by left|right; by right].
Qed.

Section DeepCloneFresh.
Variable n : nat.
Hypothesis IH : ∀ v (h : heap) c h',
  deepClone n v h = Some (VRef c, h') →
  ∀ a, reaches h' c a → length h ≤ a < length h'.

Lemma array_map_fresh elems : ∀ (h : heap) elems' h',
  array_map (deepClone n) elems h = Some (elems', h') →
  ∀ c, VRef c ∈ elems' → ∀ a, reaches h' c a → length h ≤ a < length h'.
Proof.
  induction elems as [|v rest IHe]; intros h elems' h' Hm c Hc a Ha; simpl in Hm.
  { inversion Hm; subst. by apply elem_of_nil in Hc. }
  destruct (deepClone n v h) as [[v1 h1]|] eqn:Hv; simpl in Hm; [|done].
  destruct (array_map _ rest h1) as [[rest' h2]|] eqn:Hr; simpl in Hm; [|done].
  inversion Hm; subst. clear Hm.
  pose proof (deepClone_prefix _ _ _ _ _ Hv) as P1.
  pose proof (array_map_prefix _ _ _ _ _ (deepClone_prefix n) Hr) as P2.
  pose proof (prefix_length _ _ P1). pose proof (prefix_length _ _ P2).
  apply elem_of_cons in Hc as [<-|Hc].
  - pose proof (IH _ _ _ _ Hv) as Hcl.
    apply (reaches_prefix h1 h') in Ha; [|done|intros b Hb; by apply Hcl].
    apply Hcl in Ha. lia.
  - pose proof (IHe _ _ _ Hr c Hc a Ha). lia.
Qed.

Lemma for_in_fresh lo props : ∀ clone (h : heap) props' h',
  for_in (deepClone n) props clone h = Some (props', h') →
  lo ≤ length h →
  (∀ c, VRef c ∈ clone.*2 → ∀ a, reaches h c a → lo ≤ a < length h) →
  ∀ c, VRef c ∈ props'.*2 → ∀ a, reaches h' c a → lo ≤ a < length h'.
Proof.
  induction props as [|[p v] rest IHp]; intros clone h props' h' Hm Hlo Hcl; simpl in Hm.
  { inversion Hm; subst. exact Hcl. }
  destruct (deepClone n v h) as [[v1 h1]|] eqn:Hv; simpl in Hm; [|done].
  pose proof (deepClone_prefix _ _ _ _ _ Hv) as P1.
  pose proof (prefix_length _ _ P1).
  eapply IHp; [exact Hm|lia|].
  intros c Hc a Ha. apply put_prop_values in Hc as [<-|Hc].
  - pose proof (IH _ _ _ _ Hv a Ha). lia.
  - apply (reaches_prefix h h1) in Ha; [|done|intros b Hb; by apply (Hcl c)].
    pose proof (Hcl c Hc a Ha). lia.
Qed.
End DeepCloneFresh.

Lemma deepClone_fresh n : ∀ v (h : heap) c h',
  deepClone n v h = Some (VRef c, h') →
  ∀ a, reaches h' c a → length h ≤ a < length h'.
Proof.
  induction n as [|n IH]; intros v h c h' Hc; [done|].
  destruct v; simpl in Hc; try (by inversion Hc).
  assert (∀ (h1 : heap) o,
    h `prefix_of` h1 →
    (∀ x, VRef x ∈ fields o → ∀ a, reaches h1 x a → length h ≤ a < length h1) →
    ∀ a, reaches (h1 ++ [o]) (length h1) a → length h ≤ a < length (h1 ++ [o])) as Hlast.
  { intros h1 o Hp Ho a Ha. pose proof (prefix_length _ _ Hp). rewrite length_app. simpl.
    inversion Ha as [|? x ? (o' & Hl & Hin) Hr]; subst; [lia|].
    rewrite lookup_alloc in Hl. inversion Hl; subst.
    apply (reaches_prefix h1) in Hr; [|by apply prefix_app_r|intros b Hb; by apply (Ho x)].
    pose proof (Ho x Hin a Hr). lia. }
  destruct (h !! l) as [[elems|time|props]|]; simpl in Hc; [| | |done].
  - destruct (array_map _ elems h) as [[elems' h1]|] eqn:Hm; simpl in Hc; [|done].
    inversion Hc; subst. apply Hlast.
    + eapply array_map_prefix; [apply deepClone_prefix|done].
    + simpl. by eapply array_map_fresh.
  - inversion Hc; subst. apply Hlast; [done|]. simpl. intros x Hx. by apply elem_of_nil in Hx.
  - destruct (for_in _ props [] h) as [[props' h1]|] eqn:Hm; simpl in Hc; [|done].
    inversion Hc; subst. apply Hlast.
    + eapply for_in_prefix; [apply deepClone_prefix|done].
    + simpl. eapply for_in_fresh; [exact IH|exact Hm|done|].
      intros x Hx. by apply elem_of_nil in Hx.
Qed.

(** ** What a copy holds *)

(** The value [v] is held by [l] or by an array or object found from
    [l]: it is an element or the value of a property there. *)
Definition holds (h : heap) (l : loc) (v : value) : Prop :=
  ∃ a o, reaches h l a ∧ h !! a = Some o ∧ v ∈ fields o.

Lemma reaches_grow (h h' : heap) l a : reaches h l a → h `prefix_of` h' → reaches h' l a.
Proof.
  intros Hr Hp. induction Hr as [l|l l' a (o & Hl & Hin) _ IH]; [constructor|].
  eapply reaches_step; [|exact IH]. exists o. split; [by eapply prefix_lookup_Some|done].
Qed.

Lemma holds_grow (h h' : heap) l v : holds h l v → h `prefix_of` h' → holds h' l v.
Proof.
  intros (a & o & Hr & Ha & Hv) Hp. exists a, o.
  split; [by eapply reaches_grow|]. split; [by eapply prefix_lookup_Some|done].
Qed.

Lemma holds_shrink (h h' : heap) c v :
  h `prefix_of` h' → (∀ a, reaches h c a → a < length h) → holds h' c v → holds h c v.
Proof.
  intros Hp Hcl (a & o & Hr & Ha & Hv).
  apply (reaches_prefix h h' c Hp Hcl) in Hr.
  exists a, o. split; [done|]. split; [|done].
  destruct Hp as [k ->]. rewrite lookup_app_l in Ha; [done|]. by apply Hcl.
Qed.

Lemma holds_step (h : heap) l x o v :
  h !! l = Some o → VRef x ∈ fields o → holds h x v → holds h l v.
Proof.
  intros Hl Hx (a & o' & Hr & Ha & Hv). exists a, o'.
  split; [|done]. eapply reaches_step; [|exact Hr]. by exists o.
Qed.

(** Where the elements of a copied array come from. *)
Lemma array_map_from n elems : ∀ (h : heap) elems' h' v',
  array_map (deepClone n) elems h = Some (elems', h') → v' ∈ elems' →
  ∃ v hi hj, v ∈ elems ∧ deepClone n v hi = Some (v', hj) ∧
             h `prefix_of` hi ∧ hj `prefix_of` h'.
Proof.
  induction elems as [|v rest IH]; intros h elems' h' v' Hm Hin; simpl in Hm.
  { inversion Hm; subst. by apply elem_of_nil in Hin. }
  destruct (deepClone n v h) as [[v1 h1]|] eqn:Hv; simpl in Hm; [|done].
  destruct (array_map _ rest h1) as [[rest' h2]|] eqn:Hr; simpl in Hm; [|done].
  inversion Hm; subst. clear Hm.
  pose proof (deepClone_prefix _ _ _ _ _ Hv) as P1.
  pose proof (array_map_prefix _ _ _ _ _ (deepClone_prefix n) Hr) as P2.
  apply elem_of_cons in Hin as [->|Hin].
  - exists v, h, h1. split; [left|]. done.
  - destruct (IH _ _ _ _ Hr Hin) as (v0 & hi & hj & Hv0 & Hc & Hpi & Hpj).
    exists v0, hi, hj. split; [by right|]. split; [done|]. split; [by etrans|done].
Qed.

Lemma put_prop_in p v props q w :
  (q, w) ∈ put_prop p v props → (q, w) = (p, v) ∨ (q, w) ∈ props.
Proof.
  induction props as [|[q0 u] rest IH]; simpl.
  { rewrite list_elem_of_singleton. by left. }
  destruct (String.eqb p q0) eqn:He; rewrite !elem_of_cons.
  - apply String.eqb_eq in He as ->. intros [->|Hw]; [by left|right; by right].
  - intros [->|Hw]; [right; by left|].
    destruct (IH Hw) as [->|?]; [by left|right; by right].
Qed.

(** Where the properties of a copied object come from. *)
Lemma for_in_from n props : ∀ clone (h : heap) props' h' q v',
  for_in (deepClone n) props clone h = Some (props', h') → (q, v') ∈ props' →
  (q, v') ∈ clone ∨
  ∃ v hi hj, (q, v) ∈ props ∧ deepClone n v hi = Some (v', hj) ∧
             h `prefix_of` hi ∧ hj `prefix_of` h'.
Proof.
  induction props as [|[p v] rest IH]; intros clone h props' h' q v' Hm Hin; simpl in Hm.
  { inversion Hm; subst. by left. }
  destruct (deepClone n v h) as [[v1 h1]|] eqn:Hv; simpl in Hm; [|done].
  pose proof (deepClone_prefix _ _ _ _ _ Hv) as P1.
  pose proof (for_in_prefix _ _ _ _ _ _ (deepClone_prefix n) Hm) as P2.
  destruct (IH _ _ _ _ _ _ Hm Hin) as [Hc|(v0 & hi & hj & Hv0 & Hc & Hpi & Hpj)].
  - apply put_prop_in in Hc as [[= -> ->]|Hc]; [|by left].
    right. exists v, h, h1. split; [left|]. done.
  - right. exists v0, hi, hj. split; [by right|]. split; [done|]. split; [by etrans|done].
Qed.

(** The primitives and functions that a copy holds, at any depth, are
    held by the original. *)
Lemma deepClone_holds n : ∀ l (h : heap) c h' w,
  deepClone n (VRef l) h = Some (VRef c, h') →
  is_primitive w → holds h' c w → holds h' l w.
Proof.
  induction n as [|n IH]; intros l h c h' w Hc Hw Hh; [done|].
  pose proof (deepClone_prefix _ _ _ _ _ Hc) as Hp.
  simpl in Hc.
  destruct (h !! l) as [o|] eqn:Hl; simpl in Hc; [|done].
  pose proof (prefix_lookup_Some _ _ _ _ Hl Hp) as Hl'.
  (* what the copy holds itself, and what the copies below it hold *)
  assert (∀ (h1 : heap) o',
    h `prefix_of` h1 → c = length h1 → h' = h1 ++ [o'] →
    (∀ v', v' ∈ fields o' →
       ∃ v hi hj, v ∈ fields o ∧ deepClone n v hi = Some (v', hj) ∧
                  h `prefix_of` hi ∧ hj `prefix_of` h1) →
    holds h' l w) as Hcase.
  { intros h1 o' Hp1 -> -> Hfrom.
    destruct Hh as (a & oa & Hr & Ha & Hin).
    inversion Hr as [|? x ? (oc & Hlc & Hx) Hrx]; subst.
    - rewrite lookup_alloc in Ha. inversion Ha; subst oa.
      destruct (Hfrom w Hin) as (v & hi & hj & Hv & Hd & _ & _).
      apply deepClone_result in Hd.
      destruct v;
        try (destruct Hd as [-> _]; exists l, o; split; [constructor|split; [exact Hl'|exact Hv]]).
      destruct Hd as (c' & -> & _). done.
    - rewrite lookup_alloc in Hlc. inversion Hlc; subst oc.
      destruct (Hfrom (VRef x) Hx) as (v & hi & hj & Hv & Hd & Hpi & Hpj).
      pose proof (deepClone_result _ _ _ _ _ Hd) as Hres.
      destruct v as [| | | | | |y]; try (by destruct Hres).
      assert (hj `prefix_of` h1 ++ [o']) as Hpj' by (etrans; [exact Hpj|by apply prefix_app_r]).
      assert (holds hj x w) as Hx'.
      { apply (holds_shrink hj (h1 ++ [o'])); [done| |by exists a, oa].
        intros b Hb. apply (deepClone_fresh _ _ _ _ _ Hd) in Hb. lia. }
      apply (IH _ _ _ _ _ Hd Hw) in Hx'.
      eapply holds_step; [exact Hl'|exact Hv|]. by eapply holds_grow. }
  destruct o as [elems|time|props]; simpl in Hc.
  - destruct (array_map _ elems h) as [[elems' h1]|] eqn:Hm; simpl in Hc; [|done].
    inversion Hc; subst. apply (Hcase h1 (OArray elems')); [|done|done|].
    + eapply array_map_prefix; [apply deepClone_prefix|done].
    + simpl. intros v' Hv'. by eapply array_map_from.
  - inversion Hc; subst. apply (Hcase h (ODate time)); [done|done|done|].
    simpl. intros v' Hv'. by apply elem_of_nil in Hv'.
  - destruct (for_in _ props [] h) as [[props' h1]|] eqn:Hm; simpl in Hc; [|done].
    inversion Hc; subst. apply (Hcase h1 (OPlain props')); [|done|done|].
    + eapply for_in_prefix; [apply deepClone_prefix|done].
    + simpl. intros v' Hv'. apply list_elem_of_fmap in Hv' as ([q v''] & -> & Hin). simpl.
      destruct (for_in_from _ _ _ _ _ _ _ _ Hm Hin) as [Hnil|(v & hi & hj & Hv & Hd & Hpi & Hpj)].
      { by apply elem_of_nil in Hnil. }
      exists v, hi, hj. split; [|done].
      apply list_elem_of_fmap. by exists (q, v).
Qed.

(** X2. [clone] copies arrays, dates and plain objects, and nothing
    else.  Every array, date and plain object that can be found from the
    copy by following references is one that the call has made, and the
    call leaves every object that existed as it was.  A function is not
    copied: [deepClone] returns it as it is, so every function that the
    copy holds, at any depth, is a function that the original holds - the
    copy shares its functions with the original. *)
Theorem clone_copies_objects_and_shares_functions (stack : nat) (l c : loc) (h h' : heap) :
  clone stack l h = Some (c, h') →
  h `prefix_of` h' ∧
  (∀ a, reaches h' c a → length h ≤ a < length h') ∧
  (∀ f, holds h' c (VFunction f) → holds h' l (VFunction f)).
Proof.
  unfold clone. intros Hc.
  destruct (deepClone stack (VRef l) h) as [[v h1]|] eqn:Hd; simpl in Hc; [|done].
  destruct v; try done. inversion Hc; subst.
  split; [by eapply deepClone_prefix|]. split; [by eapply deepClone_fresh|].
  intros f. by apply (deepClone_holds _ _ _ _ _ _ Hd).
Qed.

(** An object with a function and an array. *)
Definition with_callback : heap :=
  [OArray [VNumber 1]; OPlain [("run", VFunction (Some "my-view")); ("list", VRef 0)]].

Lemma clone_copies_objects_and_shares_functions_witness :
  ∃ c h',
    clone 3 1 with_callback = Some (c, h') ∧
    with_callback `prefix_of` h' ∧
    (∀ a, reaches h' c a → length with_callback ≤ a < length h') ∧
    (∀ f, holds h' c (VFunction f) → holds h' 1 (VFunction f)).
Proof.
  destruct (clone 3 1 with_callback) as [[c h']|] eqn:H; [|vm_compute in H; discriminate H].
  exists c, h'. split; [reflexivity|].
  exact (clone_copies_objects_and_shares_functions 3 1 c with_callback h' H).
Defined.

(** X3. A value that reads as [t] - it is finite, [stack] levels deep at
    most - is copied to a value that reads as [t].  The copy and the
    original are independent: the copy reads as [t] whatever becomes of
    the objects that existed before the call, and the original reads as
    [t] whatever becomes of the objects that the call has made. *)
Theorem clone_reads_as_the_original (stack : nat) (v : value) (h : heap) (t : snapshot) :
  snapshot_of stack h v = Some t →
  ∃ v' h',
    deepClone stack v h = Some (v', h') ∧
    snapshot_of stack h' v' = Some t ∧
    (∀ h2, agree (λ l, length h ≤ l < length h') h' h2 → snapshot_of stack h2 v' = Some t) ∧
    (∀ h2, agree (λ l, l < length h) h' h2 → snapshot_of stack h2 v = Some t).
Proof.
  intros Hs. destruct (deepClone_spec _ _ _ _ Hs) as (v' & h' & Hc & Hp & Hcf).
  exists v', h'. split; [done|]. split; [by apply Hcf|]. split; [exact Hcf|].
  intros h2 Hag. eapply snapshot_agree; [exact Hs|].
  intros l Hl. rewrite <- Hag by done. by apply agree_prefix.
Qed.

Lemma clone_reads_as_the_original_witness :
  ∃ t v' h',
    snapshot_of 5 fade_heap (VRef 4) = Some t ∧
    deepClone 5 (VRef 4) fade_heap = Some (v', h') ∧
    snapshot_of 5 h' v' = Some t ∧
    (∀ h2, agree (λ l, length fade_heap ≤ l < length h') h' h2 →
           snapshot_of 5 h2 v' = Some t) ∧
    (∀ h2, agree (λ l, l < length fade_heap) h' h2 → snapshot_of 5 h2 (VRef 4) = Some t).
Proof.
  destruct (snapshot_of 5 fade_heap (VRef 4)) as [t|] eqn:H; [|vm_compute in H; discriminate H].
  destruct (clone_reads_as_the_original 5 (VRef 4) fade_heap t H) as (v' & h' & H').
  exists t, v', h'. split; [reflexivity|]. exact H'.
Defined.

(** ** Values that [deepClone] cannot copy *)

Section Cyclic.
(** [endless] holds of addresses from each of which a reference leads
    to another one of them: references can be followed for ever. *)
Variables (h : heap) (endless : loc → Prop).
Hypothesis endless_step : ∀ l, endless l → ∃ l', refers h l l' ∧ endless l'.

Lemma array_map_throws n elems l' (h1 : heap) :
  (∀ h2 : heap, h1 `prefix_of` h2 → deepClone n (VRef l') h2 = None) →
  VRef l' ∈ elems → array_map (deepClone n) elems h1 = None.
Proof.
  revert h1. induction elems as [|v rest IH]; intros h1 Hn Hin.
  { by apply elem_of_nil in Hin. }
  simpl. destruct (deepClone n v h1) as [[v1 h2]|] eqn:Hv; simpl; [|done].
  apply elem_of_cons in Hin as [<-|Hin].
  { rewrite Hn in Hv; done. }
  rewrite IH; [done| |done].
  intros h3 Hp. apply Hn. etrans; [|exact Hp]. by eapply deepClone_prefix.
Qed.

Lemma for_in_throws n props l' : ∀ clone (h1 : heap),
  (∀ h2 : heap, h1 `prefix_of` h2 → deepClone n (VRef l') h2 = None) →
  VRef l' ∈ props.*2 → for_in (deepClone n) props clone h1 = None.
Proof.
  induction props as [|[p v] rest IH]; intros clone h1 Hn Hin.
  { by apply elem_of_nil in Hin. }
  simpl. destruct (deepClone n v h1) as [[v1 h2]|] eqn:Hv; simpl; [|done].
  simpl in Hin. apply elem_of_cons in Hin as [<-|Hin].
  { rewrite Hn in Hv; done. }
  apply IH; [|done].
  intros h3 Hp. apply Hn. etrans; [|exact Hp]. by eapply deepClone_prefix.
Qed.

Lemma deepClone_endless n : ∀ l (h1 : heap),
  endless l → h `prefix_of` h1 → deepClone n (VRef l) h1 = None.
Proof.
  induction n as [|n IH]; intros l h1 Hl Hp; [done|].
  destruct (endless_step l Hl) as (l' & (o & Ho & Hin) & Hl').
  simpl. rewrite (prefix_lookup_Some _ _ _ _ Ho Hp). simpl.
  assert (∀ h2 : heap, h1 `prefix_of` h2 → deepClone n (VRef l') h2 = None) as Hn.
  { intros h2 Hp2. apply IH; [done|by etrans]. }
  destruct o as [elems|time|props]; simpl in Hin.
  - by rewrite (array_map_throws n elems l' h1 Hn Hin).
  - by apply elem_of_nil in Hin.
  - by rewrite (for_in_throws n props l' [] h1 Hn Hin).
Qed.
End Cyclic.

(** X4. [deepClone] does not return on a value that holds a cycle: when an
    object [m] that can be found from [l] can be found again from an
    object it refers to, no stack is deep enough for the copy of [l]. *)
Theorem clone_of_a_cyclic_value_throws (h : heap) (l m m' : loc) :
  reaches h l m → refers h m m' → reaches h m' m →
  ∀ stack, deepClone stack (VRef l) h = None.
Proof.
  intros Hlm Hmm' Hm'm stack.
  apply (deepClone_endless h (λ x, reaches h x m)); [|done|done].
  intros x Hx. inversion Hx as [|? x' ? Href Hr]; subst.
  - by exists m'.
  - by exists x'.
Qed.

(** [a = []; a.push({ self: a })] *)
Definition knot : heap := [OArray [VRef 1]; OPlain [("self", VRef 0)]].

Lemma clone_of_a_cyclic_value_throws_witness :
  reaches knot 0 0 ∧ refers knot 0 1 ∧ reaches knot 1 0 ∧
  ∀ stack, deepClone stack (VRef 0) knot = None.
Proof.
  assert (refers knot 0 1) as H01.
  { exists (OArray [VRef 1]). split; [reflexivity|]. simpl. left. }
  assert (refers knot 1 0) as H10.
  { exists (OPlain [("self", VRef 0)]). split; [reflexivity|]. simpl. left. }
  assert (reaches knot 1 0) as R10 by (eapply reaches_step; [exact H10|constructor]).
  split; [constructor|]. split; [exact H01|]. split; [exact R10|].
  exact (clone_of_a_cyclic_value_throws knot 0 0 1 (reaches_here knot 0) H01 R10).
Defined.

(** ** From the declarations to the match *)

(** The declared nodes in pre-order, each with its ancestors before it:
    the line of declarations from a root to the node. *)
Definition lines (routes : list Route) : list (list Route) :=
  (λ '(_, ancestors, r), ancestors ++ [r]) <$> declared routes.

Lemma find_fmap {A B} (f : B → bool) (g : A → B) (l : list A) :
  find f (g <$> l) = g <$> find (λ x, f (g x)) l.
Proof.
  induction l as [|x l IH]; [done|]. simpl. destruct (f (g x)); [done|exact IH].
Qed.

(** The table that [setRoutes] stores, read back: the chains of the
    lines, in pre-order. *)
Lemma parseRoutes0_table d h0 routes :
  Forall (clonable d h0) (flat_map nodes routes) →
  ∃ table h',
    parseRoutes0 (S (S d)) routes h0 = Some (table, h') ∧ h0 `prefix_of` h' ∧
    read_table d h' table = Some (chain_of d h0 <$> lines routes).
Proof.
  intros Hcl.
  destruct (decide (routes = [])) as [->|Hne].
  { eexists [], _. split; [done|]. split; [|done].
    unfold empty_route, alloc. rewrite <- !app_assoc. by apply prefix_app_r. }
  assert (0 < d) as Hd by (by eapply clonable_pos).
  destruct (parseRoutes0_ok d h0 Hd routes Hcl) as (table & h' & lo & Hp & Hpre & Hlo & Hl).
  exists table, h'. split; [done|]. split; [done|].
  apply laid_out_Forall2 in Hl.
  apply mapM_Some. unfold lines. rewrite <- list_fmap_compose. apply Forall2_fmap_r.
  eapply Forall2_impl; [exact Hl|].
  intros c [[k anc] r] (lo' & hi' & Hs). simpl. by eapply stored_read.
Qed.

(** X5. Flattening and matching together: a route is matched by the first
    declaration, in pre-order - a parent before its children, a subtree
    before the next sibling - whose path, joined with ['/'] to the paths
    of its ancestors, matches; the chain found is the one of that
    declaration. *)
Theorem first_declaration_in_preorder_matches (d : nat) (h0 : heap) (routes : list Route)
    (pattern_test : string → string → bool) (route : string) :
  Forall (clonable d h0) (flat_map nodes routes) →
  ∃ table h' rs,
    parseRoutes0 (S (S d)) routes h0 = Some (table, h') ∧
    read_table d h' table = Some rs ∧
    getMatchingRoute pattern_test rs route =
      chain_of d h0 <$>
        find (λ line, pattern_test (join "/" (Route.path <$> line)) route) (lines routes).
Proof.
  intros Hcl. destruct (parseRoutes0_table d h0 routes Hcl) as (table & h' & Hp & _ & Hr).
  exists table, h', (chain_of d h0 <$> lines routes). split; [done|]. split; [done|].
  unfold getMatchingRoute. by rewrite find_fmap.
Qed.

Lemma first_declaration_in_preorder_matches_witness :
  Forall (clonable 5 fade_heap) (flat_map nodes abc_routes) ∧
  ∃ table h' rs,
    parseRoutes0 7 abc_routes fade_heap = Some (table, h') ∧
    read_table 5 h' table = Some rs ∧
    getMatchingRoute literal_test rs "/a/c" =
      chain_of 5 fade_heap <$>
        find (λ line, literal_test (join "/" (Route.path <$> line)) "/a/c") (lines abc_routes).
Proof.
  assert (Forall (clonable 5 fade_heap) (flat_map nodes abc_routes)) as H
    by (refine (bool_decide_unpack _ _); vm_compute; exact I).
  split; [exact H|].
  exact (first_declaration_in_preorder_matches 5 fade_heap abc_routes literal_test "/a/c" H).
Defined.

(** ** What the chains share with the declarations *)

(** The entries of the [animation] sequence of the chain at [c], as
    they are stored: a reference is not followed. *)
Definition animations (h : heap) (c : loc) : option (list value) :=
  match h !! c with
  | Some (OPlain props) => read_array h (get_prop "animation" props)
  | _ => None
  end.

(** A value that is not an object of the declarations' heap [h0]: a
    primitive, or an object made later. *)
Definition made_after (h0 : heap) (v : value) : Prop :=
  ∀ a, v = VRef a → length h0 ≤ a.

(** The chain at [c] holds [k] copies and then the animation that [r]
    declares, itself. *)
Definition own_last (h0 h : heap) (c : loc) (k : nat) (r : Route) : Prop :=
  ∃ vs, animations h c = Some (vs ++ [Route.animation r]) ∧ length vs = k ∧
        Forall (made_after h0) vs.

Lemma animations_prefix (h h' : heap) c ws :
  animations h c = Some ws → h `prefix_of` h' → animations h' c = Some ws.
Proof.
  unfold animations, read_array. intros Ha Hp.
  destruct (h !! c) as [[| |props]|] eqn:Hc; try done.
  rewrite (prefix_lookup_Some _ _ _ _ Hc Hp).
  destruct (get_prop "animation" props) as [| | | | | |a]; try done.
  destruct (h !! a) as [[elems| |]|] eqn:Ha'; try done.
  by rewrite (prefix_lookup_Some _ _ _ _ Ha' Hp).
Qed.

Lemma own_last_prefix h0 (h h' : heap) c k r :
  own_last h0 h c k r → h `prefix_of` h' → own_last h0 h' c k r.
Proof.
  intros (vs & Ha & Hk & Hf) Hp. exists vs. split; [by eapply animations_prefix|done].
Qed.

Section Own.
Variables (d : nat) (h0 : heap).

Lemma stored_animations h c ch lo hi :
  stored d h0 h c ch lo hi →
  ∃ a4 vs name a1 a2 a3 a5,
    h !! c = Some (OPlain (chain_props a1 a2 a3 a4 a5 name)) ∧
    h !! a4 = Some (OArray vs) ∧ animations h c = Some vs ∧
    length vs = length (InternalRoute.animation ch).
Proof.
  intros (a1 & a2 & a3 & a4 & a5 & vs & Hc & Hnd & Hr & Hlo & Hhi & H1 & H2 & H3 & H4 & H5 & Han).
  exists a4, vs, (InternalRoute.name ch), a1, a2, a3, a5.
  split; [done|]. split; [done|]. split.
  - unfold animations. rewrite Hc. simpl. by rewrite H4.
  - eapply Forall2_length, (Han h). by intros l _.
Qed.

Local Ltac lia_addr :=
  repeat match goal with H : _ ≠ _ |- _ => clear H end; lia.

(** The six statements after [clone(route)] succeed on a stored chain,
    whatever the declaration: they write to the objects of the chain
    only, and put the declared animation, as it is, at the end of the
    [animation] sequence. *)
Lemma append_route_heap h c ch lo hi r ws :
  stored d h0 h c ch lo hi → animations h c = Some ws →
  ∃ h' props a4,
    append_route c r h = Some h' ∧
    (∀ hb, hb `prefix_of` h → length hb ≤ lo → hb `prefix_of` h') ∧
    h' !! c = Some (OPlain props) ∧ get_prop "animation" props = VRef a4 ∧
    h' !! a4 = Some (OArray (ws ++ [Route.animation r])).
Proof.
  intros (a1 & a2 & a3 & a4 & a5 & vs & Hc & Hnd & Hr & Hlo & Hhi & H1 & H2 & H3 & H4 & H5 & Han)
    Hws.
  assert (ws = vs) as ->.
  { unfold animations in Hws. rewrite Hc in Hws. simpl in Hws. rewrite H4 in Hws.
    by inversion Hws. }
  pose proof Hnd as Hne.
  rewrite !NoDup_cons, !not_elem_of_cons, !elem_of_nil in Hne.
  apply Forall_cons in Hr as [R1 Hr]. apply Forall_cons in Hr as [R2 Hr].
  apply Forall_cons in Hr as [R3 Hr]. apply Forall_cons in Hr as [R4 Hr].
  apply Forall_cons in Hr as [R5 Hr]. apply Forall_cons in Hr as [Rc _].
  destruct Hne as ((N12 & N13 & N14 & N15 & N1c & _) & (N23 & N24 & N25 & N2c & _) &
                   (N34 & N35 & N3c & _) & (N45 & N4c & _) & (N5c & _) & _).
  pose proof (lookup_lt_Some _ _ _ Hc) as Lc.
  pose proof (lookup_lt_Some _ _ _ H1) as L1. pose proof (lookup_lt_Some _ _ _ H2) as L2.
  pose proof (lookup_lt_Some _ _ _ H3) as L3. pose proof (lookup_lt_Some _ _ _ H4) as L4.
  pose proof (lookup_lt_Some _ _ _ H5) as L5.
  set (props' := chain_props a1 a2 a3 a4 a5 (Route.name r)).
  set (hA := <[c := OPlain props']> h).
  set (hB := <[a1 := OArray ((VString <$> InternalRoute.path ch) ++ [VString (Route.path r)])]> hA).
  set (hC := <[a5 := OArray ((of_string <$> InternalRoute.redirect ch) ++ [of_string (Route.redirect r)])]> hB).
  set (hD := <[a2 := OArray ((of_string <$> InternalRoute.component ch) ++ [of_string (Route.component r)])]> hC).
  set (hE := <[a3 := OArray ((of_action <$> InternalRoute.action ch) ++ [of_action (Route.action r)])]> hD).
  set (hF := <[a4 := OArray (vs ++ [Route.animation r])]> hE).
  assert (hA !! c = Some (OPlain props')) as HcA
    by (by apply list_lookup_insert_eq).
  exists hF, props', a4. split.
  { unfold append_route, write_prop. rewrite Hc. cbn [mbind option_bind].
    change (put_prop "name" _ _) with props'. fold hA.
    erewrite (push_prop_eq hA c props' "path" a1); [|done|done|]; last first.
    { unfold hA. by rewrite list_lookup_insert_ne. }
    cbn [mbind option_bind]. fold hB.
    erewrite (push_prop_eq hB c props' "redirect" a5); [|..|done| ]; last first.
    { unfold hB, hA. by rewrite !list_lookup_insert_ne. }
    { unfold hB. by rewrite list_lookup_insert_ne. }
    cbn [mbind option_bind]. fold hC.
    erewrite (push_prop_eq hC c props' "component" a2); [|..|done| ]; last first.
    { unfold hC, hB, hA. by rewrite !list_lookup_insert_ne. }
    { unfold hC, hB. by rewrite !list_lookup_insert_ne. }
    cbn [mbind option_bind]. fold hD.
    erewrite (push_prop_eq hD c props' "action" a3); [|..|done| ]; last first.
    { unfold hD, hC, hB, hA. by rewrite !list_lookup_insert_ne. }
    { unfold hD, hC, hB. by rewrite !list_lookup_insert_ne. }
    cbn [mbind option_bind]. fold hE.
    erewrite (push_prop_eq hE c props' "animation" a4); [|..|done| ]; last first.
    { unfold hE, hD, hC, hB, hA. by rewrite !list_lookup_insert_ne. }
    { unfold hE, hD, hC, hB. by rewrite !list_lookup_insert_ne. }
    done. }
  split.
  { intros hb Hb Hlen. unfold hF, hE, hD, hC, hB, hA.
    do 6 (apply prefix_insert; [|lia_addr]). done. }
  split; [unfold hF, hE, hD, hC, hB; by rewrite !list_lookup_insert_ne|].
  split; [done|].
  unfold hF. rewrite list_lookup_insert_eq
    by (unfold hE, hD, hC, hB, hA; rewrite !length_insert; lia_addr).
  done.
Qed.

Lemma append_route_animations h c ch lo hi r ws h' :
  stored d h0 h c ch lo hi → animations h c = Some ws →
  append_route c r h = Some h' →
  animations h' c = Some (ws ++ [Route.animation r]).
Proof.
  intros Hs Hws Happ.
  destruct (append_route_heap h c ch lo hi r ws Hs Hws) as (h2 & props & a4 & Ha & _ & Hc & Hg & H4).
  rewrite Happ in Ha. inversion Ha; subst h2.
  unfold animations. rewrite Hc, Hg. simpl. by rewrite H4.
Qed.

Hypothesis d_pos : 0 < d.

(** In the copy of a chain the animation entries are copies, or
    primitives. *)
Lemma clone_animations h route ch lo hi c h' :
  stored d h0 h route ch lo hi → h0 `prefix_of` h →
  clone (S (S d)) route h = Some (c, h') →
  ∃ ws, animations h' c = Some ws ∧ length ws = length (InternalRoute.animation ch) ∧
        Forall (made_after h0) ws.
Proof.
  intros Hs Hp0 Hc.
  destruct (clone_stored d h0 d_pos _ _ _ _ _ Hs) as (c' & h'' & Hc' & Hp & Hs').
  rewrite Hc in Hc'. inversion Hc'; subst c' h''. clear Hc'.
  destruct (stored_animations _ _ _ _ _ Hs') as (a4 & ws & name & a1 & a2 & a3 & a5 & Hl & H4 & Ha & Hlen).
  exists ws. split; [done|]. split; [done|].
  apply Forall_forall. intros v Hv a ->.
  unfold clone in Hc.
  destruct (deepClone (S (S d)) (VRef route) h) as [[v1 h1]|] eqn:Hd; simpl in Hc; [|done].
  destruct v1; try done. inversion Hc; subst.
  pose proof (prefix_length _ _ Hp0).
  assert (reaches h' c a) as Hr.
  { apply (reaches_step _ c a4); [|apply (reaches_step _ a4 a); [|constructor]].
    - exists (OPlain (chain_props a1 a2 a3 a4 a5 name)). split; [done|].
      simpl. rewrite !elem_of_cons. auto 10.
    - exists (OArray ws). split; [done|]. done. }
  pose proof (deepClone_fresh _ _ _ _ _ Hd a Hr). lia.
Qed.

Definition flattens_own (r : Route) : Prop :=
  ∀ depth ancestors pr route h lo hi,
    h0 `prefix_of` h → stored d h0 h route (chain_of d h0 ancestors) lo hi →
    length ancestors = depth →
    ∃ cs h', parseRoute (S (S d)) r pr route h = Some (pr ++ cs, h') ∧
             h `prefix_of` h' ∧
             Forall2 (λ c '(k, _, r'), own_last h0 h' c k r') cs (preorder depth ancestors r).

Lemma Forall2_own_prefix (h h' : heap) cs (ns : list (nat * list Route * Route)) :
  Forall2 (λ c '(k, _, r'), own_last h0 h c k r') cs ns → h `prefix_of` h' →
  Forall2 (λ c '(k, _, r'), own_last h0 h' c k r') cs ns.
Proof.
  intros HF Hp. eapply Forall2_impl; [exact HF|].
  intros c [[k anc] r] Ho. by eapply own_last_prefix.
Qed.

Lemma parseRoutes_own rs : Forall flattens_own rs →
  ∀ depth ancestors pr route h lo hi,
    h0 `prefix_of` h → stored d h0 h route (chain_of d h0 ancestors) lo hi →
    length ancestors = depth →
    ∃ cs h', parseRoutes (S (S d)) rs pr route h = Some (pr ++ cs, h') ∧
             h `prefix_of` h' ∧
             Forall2 (λ c '(k, _, r'), own_last h0 h' c k r') cs
               (flat_map (preorder depth ancestors) rs).
Proof.
  induction 1 as [|r rs Hr _ IH]; intros depth anc pr route h lo hi Hp0 Hs Hlen.
  - exists [], h. simpl. rewrite app_nil_r. by repeat split.
  - destruct (Hr depth anc pr route h lo hi Hp0 Hs Hlen) as (cs1 & h1 & Hpr & Hp1 & Ho1).
    destruct (IH depth anc (pr ++ cs1) route h1 lo hi) as (cs2 & h2 & Hps & Hp2 & Ho2);
      [by etrans|by eapply stored_prefix|done|].
    exists (cs1 ++ cs2), h2. simpl. rewrite Hpr; simpl. rewrite Hps, app_assoc.
    split; [done|]. split; [by etrans|].
    apply Forall2_app; [by eapply Forall2_own_prefix|done].
Qed.

Lemma parseRoute_own r : Forall (clonable d h0) (nodes r) → flattens_own r.
Proof.
  induction r as [p n c a an rd ch IH] using Route_ind.
  intros Hcl depth anc pr route h lo hi Hp0 Hs Hlen.
  set (r := Route.Build p n c a an rd ch) in *.
  simpl in Hcl. apply Forall_cons in Hcl as [Hr Hch].
  assert (Forall flattens_own ch) as Hfl.
  { clear -IH Hch. induction IH as [|r' ch' Hr' _ IH']; [done|].
    simpl in Hch. apply Forall_app in Hch as [? ?]. constructor; auto. }
  rewrite parseRoute_append.
  destruct (clone_stored d h0 d_pos _ _ _ _ _ Hs) as (cl & h1 & Hclone & Hp1 & Hs1).
  destruct (clone_animations _ _ _ _ _ _ _ Hs Hp0 Hclone) as (ws & Hws & Hwl & Hwf).
  rewrite Hclone. simpl.
  destruct (append_route_stored d h0 d_pos _ _ _ _ _ r Hs1) as (h2 & Happ & Hlen2 & Hframe & Hs2);
    [by etrans|done|].
  pose proof (append_route_animations _ _ _ _ _ _ _ _ Hs1 Hws Happ) as Hown.
  rewrite Happ. simpl.
  rewrite <- chain_of_snoc in Hs2.
  destruct (parseRoutes_own ch Hfl (S depth) (anc ++ [r]) (pr ++ [cl]) cl h2
              (length h) (length h1)) as (cs & h3 & -> & Hp3 & Ho3);
    [etrans; [exact Hp0|]; by apply Hframe|done|rewrite length_app; simpl; lia|].
  exists (cl :: cs), h3. rewrite <- app_assoc. split; [done|].
  split; [etrans; [|exact Hp3]; by apply Hframe|].
  simpl. constructor; [|done].
  eapply own_last_prefix; [|exact Hp3].
  exists ws. split; [done|]. split; [|done].
  rewrite Hwl. simpl. by rewrite length_fmap.
Qed.

Lemma parseRoutes0_own routes :
  Forall (clonable d h0) (flat_map nodes routes) →
  ∃ table h', parseRoutes0 (S (S d)) routes h0 = Some (table, h') ∧
              Forall2 (λ c '(k, _, r'), own_last h0 h' c k r') table (declared routes).
Proof.
  intros Hcl. unfold parseRoutes0.
  destruct (empty_route_stored d h0 d_pos) as (h1 & -> & Hp & Hlen & Hs).
  destruct (parseRoutes_own routes) with (depth := 0) (ancestors := @nil Route) (pr := @nil loc)
    (route := length h0 + 5) (h := h1) (lo := length h0) (hi := length h0 + 6)
    as (cs & h2 & Hps & Hp2 & Hl); [|done|done|done|].
  { clear -Hcl d_pos. induction routes as [|r rs IH]; [done|].
    simpl in Hcl. apply Forall_app in Hcl as [? ?].
    constructor; [by apply parseRoute_own|by apply IH]. }
  by exists cs, h2.
Qed.
End Own.

(** X6. [parseRoutes] writes to no object of the declarations.  In every
    chain of the table, the animation entry of the node itself is the
    value that the node declares - when that is an object, the very
    object of the declaration, shared with it - while the entries of its
    ancestors, one for each, are copies that [parseRoutes] has made. *)
Theorem own_animation_is_the_declared_object (d : nat) (h0 : heap) (routes : list Route)
    (table : list loc) (h' : heap) :
  Forall (clonable d h0) (flat_map nodes routes) →
  parseRoutes0 (S (S d)) routes h0 = Some (table, h') →
  h0 `prefix_of` h' ∧
  Forall2 (λ c '(depth, _, r),
      (∀ a, Route.animation r = VRef a → a < length h0) ∧
      ∃ copies,
        animations h' c = Some (copies ++ [Route.animation r]) ∧
        length copies = depth ∧
        Forall (λ v, ∀ a, v = VRef a → length h0 ≤ a) copies)
    table (declared routes).
Proof.
  intros Hcl Hp.
  destruct (decide (routes = [])) as [->|Hne].
  { simpl in Hp. unfold parseRoutes0 in Hp.
    destruct (empty_route h0) as [route h1] eqn:He. simpl in Hp. inversion Hp; subst.
    split; [|constructor].
    unfold empty_route, alloc in He. inversion He. rewrite <- !app_assoc. by apply prefix_app_r. }
  assert (0 < d) as Hd by (by eapply clonable_pos).
  destruct (parseRoutes0_table d h0 routes Hcl) as (table1 & h1 & Hp1 & Hpre & _).
  rewrite Hp in Hp1. inversion Hp1; subst table1 h1. split; [done|].
  destruct (parseRoutes0_own d h0 Hd routes Hcl) as (table2 & h2 & Hp2 & Ho).
  rewrite Hp in Hp2. inversion Hp2; subst table2 h2.
  assert (Forall (λ '(_, _, r), clonable d h0 r) (declared routes)) as Hdecl.
  { clear -Hcl. unfold declared.
    induction routes as [|r rs IH]; [constructor|].
    simpl in Hcl |- *. apply Forall_app in Hcl as [Hr Hrs].
    apply Forall_app. split; [|by apply IH].
    clear -Hr. generalize 0 (@nil Route).
    induction r as [p n c a an rd ch IH] using Route_ind. intros k anc.
    simpl in Hr |- *. apply Forall_cons in Hr as [Hr Hch].
    constructor; [done|].
    generalize (S k) (anc ++ [Route.Build p n c a an rd ch]).
    induction IH as [|r' ch' Hr' _ IH']; intros k' anc'; [constructor|].
    simpl in Hch |- *. apply Forall_app in Hch as [? ?].
    apply Forall_app. split; [by apply Hr'|by apply IH']. }
  apply Forall2_same_length_lookup_2; [by eapply Forall2_length|].
  intros i c [[depth anc] r] Hc Hn.
  pose proof (Forall2_lookup_lr _ _ _ _ _ _ Ho Hc Hn) as Hown. simpl in Hown.
  pose proof (Forall_lookup_1 _ _ _ _ Hdecl Hn) as Hcr. simpl in Hcr.
  split; [|exact Hown].
  intros a Ha. destruct Hcr as [t Ht]. rewrite Ha in Ht.
  destruct d as [|d']; [done|]. simpl in Ht.
  destruct (h0 !! a) eqn:Hl; [|done]. by eapply lookup_lt_Some.
Qed.

Lemma own_animation_is_the_declared_object_witness :
  ∃ table h',
    Forall (clonable 5 fade_heap) (flat_map nodes abc_routes) ∧
    parseRoutes0 7 abc_routes fade_heap = Some (table, h') ∧
    fade_heap `prefix_of` h' ∧
    Forall2 (λ c '(depth, _, r),
        (∀ a, Route.animation r = VRef a → a < length fade_heap) ∧
        ∃ copies,
          animations h' c = Some (copies ++ [Route.animation r]) ∧
          length copies = depth ∧
          Forall (λ v, ∀ a, v = VRef a → length fade_heap ≤ a) copies)
      table (declared abc_routes).
Proof.
  assert (Forall (clonable 5 fade_heap) (flat_map nodes abc_routes)) as H
    by (refine (bool_decide_unpack _ _); vm_compute; exact I).
  destruct (parseRoutes0 7 abc_routes fade_heap) as [[table h']|] eqn:Hp;
    [|vm_compute in Hp; discriminate Hp].
  exists table, h'. split; [exact H|]. split; [reflexivity|].
  exact (own_animation_is_the_declared_object 5 fade_heap abc_routes table h' H Hp).
Defined.

(** ** Declarations that [parseRoutes] cannot flatten *)

Lemma array_map_more (f g : value → heap → option (value * heap)) elems :
  (∀ v (h : heap) r, f v h = Some r → g v h = Some r) →
  ∀ (h : heap) r, array_map f elems h = Some r → array_map g elems h = Some r.
Proof.
  intros Hfg. induction elems as [|v rest IH]; intros h r Hm; [done|].
  simpl in Hm |- *.
  destruct (f v h) as [[v1 h1]|] eqn:Hv; simpl in Hm; [|done].
  rewrite (Hfg _ _ _ Hv). simpl.
  destruct (array_map f rest h1) as [[rest' h2]|] eqn:Hr; simpl in Hm; [|done].
  by rewrite (IH _ _ Hr).
Qed.

Lemma for_in_more (f g : value → heap → option (value * heap)) props :
  (∀ v (h : heap) r, f v h = Some r → g v h = Some r) →
  ∀ clone (h : heap) r, for_in f props clone h = Some r → for_in g props clone h = Some r.
Proof.
  intros Hfg. induction props as [|[p v] rest IH]; intros clone h r Hm; [done|].
  simpl in Hm |- *.
  destruct (f v h) as [[v1 h1]|] eqn:Hv; simpl in Hm; [|done].
  rewrite (Hfg _ _ _ Hv). simpl. by apply IH.
Qed.

(** A deeper stack changes nothing to a copy that a shallower one
    allows. *)
Lemma deepClone_more n : ∀ m v (h : heap) r,
  deepClone n v h = Some r → n ≤ m → deepClone m v h = Some r.
Proof.
  induction n as [|n IH]; intros [|m] v h r Hc Hle; try done; [lia|].
  assert (∀ v (h : heap) r, deepClone n v h = Some r → deepClone m v h = Some r) as Hnm.
  { intros v' h1 r' Hv. apply (IH m) in Hv; [done|lia]. }
  destruct v; simpl in Hc |- *; try done.
  destruct (h !! l) as [[elems|time|props]|]; simpl in Hc |- *; [|done| |done].
  - destruct (array_map _ elems h) as [[elems' h1]|] eqn:Hm; simpl in Hc; [|done].
    by rewrite (array_map_more _ _ _ Hnm _ _ Hm).
  - destruct (for_in _ props [] h) as [[props' h1]|] eqn:Hm; simpl in Hc; [|done].
    by rewrite (for_in_more _ _ _ Hnm _ _ _ Hm).
Qed.

Lemma clone_more n m l (h : heap) r :
  clone n l h = Some r → n ≤ m → clone m l h = Some r.
Proof.
  unfold clone. intros Hc Hle.
  destruct (deepClone n (VRef l) h) as [[v h1]|] eqn:Hd; [|done].
  by rewrite (deepClone_more _ _ _ _ _ Hd Hle).
Qed.

Lemma parseRoute_steps stack r pr route h :
  parseRoute stack r pr route h =
    '(c, h) ← clone stack route h;
    h ← append_route c r h;
    parseRoutes stack (Route.children r) (pr ++ [c]) c h.
Proof.
  rewrite parseRoute_eq. destruct (clone _ route h) as [[c h1]|]; [|done].
  unfold append_route. simpl.
  repeat (match goal with |- context [mbind _ ?x] => destruct x as [?h|]; simpl; [|done] end).
  done.
Qed.

Lemma get_prop_ref p props a : get_prop p props = VRef a → VRef a ∈ props.*2.
Proof.
  induction props as [|[q v] rest IH]; simpl; [done|].
  destruct (String.eqb p q); [intros ->; left|intros Hg; right; auto].
Qed.

Lemma refers_prefix (h h' : heap) l l' : refers h l l' → h `prefix_of` h' → refers h' l l'.
Proof. intros (o & Hl & Hin) Hp. exists o. split; [by eapply prefix_lookup_Some|done]. Qed.

(** X7. The animation that a declaration holds is copied when the chain of
    the declaration is copied for a child, and only then.  A declaration
    with children whose animation holds a cycle makes [parseRoutes] throw,
    whatever the stack; a declaration without children is flattened, its
    animation stored as it is. *)
Theorem cyclic_animation_throws_when_there_are_children (h0 : heap) (a m m' : loc)
    (path : string) (name component : option string) (action : option Action)
    (redirect : option string) :
  reaches h0 a m → refers h0 m m' → reaches h0 m' m →
  (∀ stack child children rest,
     parseRoutes0 stack
       (Route.Build path name component action (VRef a) redirect (child :: children) :: rest) h0
       = None) ∧
  (∀ stack, 3 ≤ stack →
     ∃ c h',
       parseRoutes0 stack [Route.Build path name component action (VRef a) redirect []] h0
         = Some ([c], h') ∧
       animations h' c = Some [VRef a]).
Proof.
  intros Ham Hmm' Hm'm. split.
  - intros stack child children rest.
    destruct stack as [|s]; [done|].
    assert (0 < S s) as d_pos by lia.
    unfold parseRoutes0.
    destruct (empty_route_stored (S s) h0 d_pos) as (h1 & -> & Hp01 & Hlen & Hs0).
    cbn [parseRoutes]. rewrite parseRoute_steps.
    destruct (clone (S s) (length h0 + 5) h1) as [[cl hc]|] eqn:Hcl; [|done].
    cbn [mbind option_bind].
    destruct (clone_stored (S s) h0 d_pos _ _ _ _ _ Hs0) as (c' & h' & Hc' & Hpre & Hs1).
    rewrite (clone_more _ (S (S (S s))) _ _ _ Hcl) in Hc' by lia.
    inversion Hc'; subst c' h'. clear Hc'.
    destruct (stored_animations _ _ _ _ _ _ _ Hs1)
      as (b4 & ws & nm & b1 & b2 & b3 & b5 & _ & _ & Hws & _).
    destruct (append_route_heap (S s) h0 hc cl _ _ _
                (Route.Build path name component action (VRef a) redirect (child :: children))
                ws Hs1 Hws) as (h2 & props & a4 & -> & Hframe & Hc2 & Hg & H4).
    cbn [mbind option_bind Route.children parseRoutes]. rewrite parseRoute_steps.
    assert (h0 `prefix_of` h2) as Hp02.
    { apply Hframe; [by etrans|]. apply prefix_length in Hp01. lia. }
    assert (clone (S s) cl h2 = None) as ->; [|done].
    unfold clone.
    rewrite (deepClone_endless h2 (λ x, x = cl ∨ x = a4 ∨ reaches h0 x m)); [done| |by left|done].
    intros x [->|[->|Hx]].
    + exists a4. split; [|by right; left].
      exists (OPlain props). split; [done|]. by apply (get_prop_ref "animation").
    + exists a. split; [|by right; right].
      exists (OArray (ws ++ [VRef a])). split; [done|].
      simpl. apply elem_of_app. right. left.
    + inversion Hx as [|? x' ? Href Hr]; subst.
      * exists m'. split; [by eapply refers_prefix|by right; right].
      * exists x'. split; [by eapply refers_prefix|by right; right].
  - intros stack Hstack.
    destruct stack as [|[|d]]; [lia|lia|].
    assert (0 < d) as d_pos by lia.
    unfold parseRoutes0.
    destruct (empty_route_stored d h0 d_pos) as (h1 & -> & Hp01 & Hlen & Hs0).
    cbn [parseRoutes]. rewrite parseRoute_steps.
    destruct (clone_stored d h0 d_pos _ _ _ _ _ Hs0) as (cl & hc & -> & Hpre & Hs1).
    cbn [mbind option_bind].
    destruct (stored_animations _ _ _ _ _ _ _ Hs1)
      as (b4 & ws & nm & b1 & b2 & b3 & b5 & _ & _ & Hws & Hwl).
    destruct ws; [|done].
    destruct (append_route_heap d h0 hc cl _ _ _
                (Route.Build path name component action (VRef a) redirect [])
                [] Hs1 Hws) as (h2 & props & a4 & -> & Hframe & Hc2 & Hg & H4).
    cbn [mbind option_bind Route.children parseRoutes].
    exists cl, h2. split; [done|].
    unfold animations. rewrite Hc2, Hg. simpl. by rewrite H4.
Qed.

Lemma cyclic_animation_throws_when_there_are_children_witness :
  reaches knot 0 0 ∧ refers knot 0 1 ∧ reaches knot 1 0 ∧
  (∀ stack child children rest,
     parseRoutes0 stack
       (Route.Build "a" None None None (VRef 0) None (child :: children) :: rest) knot
       = None) ∧
  (∀ stack, 3 ≤ stack →
     ∃ c h',
       parseRoutes0 stack [Route.Build "a" None None None (VRef 0) None []] knot
         = Some ([c], h') ∧
       animations h' c = Some [VRef 0]).
Proof.
  assert (refers knot 0 1) as H01.
  { exists (OArray [VRef 1]). split; [reflexivity|]. simpl. left. }
  assert (refers knot 1 0) as H10.
  { exists (OPlain [("self", VRef 0)]). split; [reflexivity|]. simpl. left. }
  assert (reaches knot 1 0) as R10 by (eapply reaches_step; [exact H10|constructor]).
  split; [constructor|]. split; [exact H01|]. split; [exact R10|].
  exact (cyclic_animation_throws_when_there_are_children knot 0 0 1 "a" None None None None
           (reaches_here knot 0) H01 R10).
Defined.

(** ** How a navigation ends *)

Section Ends.
Variable pattern_test : string → string → bool.

Lemma navigate_from_nonempty fuel : ∀ route st settled events st',
  navigate_from pattern_test fuel route st = Some (settled, events, st') → settled ≠ [].
Proof.
  destruct fuel as [|fuel]; intros route st settled events st' Hn; [done|].
  rewrite navigate_from_S in Hn.
  destruct (negb (updateComplete st)); [by inversion Hn|].
  destruct (getMatchingRoute _ _ _) as [fr|]; [|by inversion Hn]. cbv zeta in Hn.
  destruct (whereToRedirect fr) as [target|].
  - destruct (MAX_REDIRECTIONS <? redirectionCount st); [by inversion Hn|].
    destruct (navigate_from _ fuel target _) as [[[s e] st1]|]; [|done].
    by inversion Hn.
  - destruct (replaceRouteNodes _ _ _). by inversion Hn.
Qed.

Lemma last_cons_nonempty {A} (x : A) (l : list A) : l ≠ [] → last (x :: l) = last l.
Proof. by destruct l. Qed.

(** A chain of invocations that ends on a route that nothing matches. *)
Lemma navigate_from_unmatched fuel : ∀ route st settled events st',
  navigate_from pattern_test fuel route st = Some (settled, events, st') →
  last settled = Some (Fulfilled ResolverResult) →
  events = [] ∧ outlet st' = outlet st ∧ location st' = location st ∧
  routes st' = routes st ∧ updateComplete st' = true ∧
  redirectionCount st' = redirectionCount st + (length settled - 1) ∧
  ∃ q, hops pattern_test (routes st) (length settled - 1) route = Some q ∧
       getMatchingRoute pattern_test (routes st) q = None.
Proof.
  induction fuel as [|fuel IH]; intros route st settled events st' Hn Hl; [done|].
  rewrite navigate_from_S in Hn.
  destruct (updateComplete st) eqn:Hu; [|by inversion Hn; subst]. cbn [negb] in Hn.
  destruct (getMatchingRoute _ _ route) as [fr|] eqn:Hm.
  2:{ inversion Hn; subst. repeat split; try done. by exists route. }
  cbv zeta in Hn.
  destruct (whereToRedirect fr) as [target|] eqn:Hw.
  - destruct (MAX_REDIRECTIONS <? redirectionCount st); [by inversion Hn; subst|].
    destruct (navigate_from _ fuel target _) as [[[s e] st1]|] eqn:Hrec; [|done].
    cbn [mbind option_bind] in Hn. inversion Hn; subst. clear Hn.
    pose proof (navigate_from_nonempty _ _ _ _ _ _ Hrec) as Hne.
    rewrite last_cons_nonempty in Hl by done.
    destruct (IH _ _ _ _ _ Hrec Hl) as (-> & Ho & Hloc & Hr & Hup & Hcount & q & Hq & Hnone).
    simpl in Ho, Hloc, Hr, Hcount, Hq, Hnone.
    repeat split; try done.
    + destruct s; [done|]. simpl in *. lia.
    + exists q. split; [|done].
      destruct s as [|x s]; [done|]. simpl length. rewrite Nat.sub_succ, Nat.sub_0_r.
      simpl in Hq. rewrite Nat.sub_0_r in Hq.
      change (hops pattern_test (routes st) (S (length s)) route)
        with (redirectTarget pattern_test (routes st) route ≫= hops pattern_test (routes st) (length s)).
      unfold redirectTarget. rewrite Hm. simpl. rewrite Hw. simpl. exact Hq.
  - destruct (replaceRouteNodes _ _ _). by inversion Hn; subst.
Qed.

(** A chain of invocations that ends with a route mounted. *)
Lemma navigate_from_mounted fuel : ∀ route st settled events st' path,
  navigate_from pattern_test fuel route st = Some (settled, events, st') →
  last settled = Some (Fulfilled (RoutePath path)) →
  location st' = path ∧ redirectionCount st' = 0 ∧ updateComplete st' = true ∧
  hops pattern_test (routes st) (length settled - 1) route = Some path ∧
  settled = replicate (length settled - 1) (Fulfilled ResolverResult)
              ++ [Fulfilled (RoutePath path)].
Proof.
  induction fuel as [|fuel IH]; intros route st settled events st' path Hn Hl; [done|].
  rewrite navigate_from_S in Hn.
  destruct (updateComplete st) eqn:Hu; [|by inversion Hn; subst]. cbn [negb] in Hn.
  destruct (getMatchingRoute _ _ route) as [fr|] eqn:Hm; [|by inversion Hn; subst].
  cbv zeta in Hn.
  destruct (whereToRedirect fr) as [target|] eqn:Hw.
  - destruct (MAX_REDIRECTIONS <? redirectionCount st); [by inversion Hn; subst|].
    destruct (navigate_from _ fuel target _) as [[[s e] st1]|] eqn:Hrec; [|done].
    cbn [mbind option_bind] in Hn. inversion Hn; subst. clear Hn.
    pose proof (navigate_from_nonempty _ _ _ _ _ _ Hrec) as Hne.
    rewrite last_cons_nonempty in Hl by done.
    destruct (IH _ _ _ _ _ _ Hrec Hl) as (Hloc & Hcount & Hup & Hq & Hs).
    simpl in Hq.
    destruct s as [|x s]; [done|]. simpl length in *.
    rewrite Nat.sub_succ, Nat.sub_0_r in *.
    repeat split; try done.
    + change (hops pattern_test (routes st) (S (length s)) route)
        with (redirectTarget pattern_test (routes st) route ≫= hops pattern_test (routes st) (length s)).
      unfold redirectTarget. rewrite Hm. simpl. rewrite Hw. simpl. exact Hq.
    + simpl. by rewrite <- Hs.
  - destruct (replaceRouteNodes _ _ _) as [o ev]. inversion Hn; subst.
    simpl in Hl. inversion Hl; subst. done.
Qed.

(** The invocation that throws leaves the promise in [updateComplete]
    unresolved. *)
Lemma navigate_from_thrown fuel : ∀ route st settled events st',
  navigate_from pattern_test fuel route st = Some (settled, events, st') →
  Rejected circular ∈ settled → updateComplete st' = false.
Proof.
  induction fuel as [|fuel IH]; intros route st settled events st' Hn Hin; [done|].
  rewrite navigate_from_S in Hn.
  destruct (updateComplete st) eqn:Hu; [|by inversion Hn; subst]. cbn [negb] in Hn.
  destruct (getMatchingRoute _ _ route) as [fr|] eqn:Hm.
  2:{ inversion Hn; subst. apply list_elem_of_singleton in Hin. discriminate Hin. }
  cbv zeta in Hn.
  destruct (whereToRedirect fr) as [target|] eqn:Hw.
  - destruct (MAX_REDIRECTIONS <? redirectionCount st); [by inversion Hn; subst|].
    destruct (navigate_from _ fuel target _) as [[[s e] st1]|] eqn:Hrec; [|done].
    cbn [mbind option_bind] in Hn. inversion Hn; subst. clear Hn.
    apply elem_of_cons in Hin as [Hin|Hin]; [discriminate Hin|].
    by eapply IH.
  - destruct (replaceRouteNodes _ _ _) as [o ev]. inversion Hn; subst.
    apply list_elem_of_singleton in Hin. discriminate Hin.
Qed.
End Ends.

(** X8. A navigation whose redirects end on a route that no chain matches
    does nothing to the outlet and gives nothing to the history; every
    promise is fulfilled with the value of [resolver(true)].  It leaves
    the redirect counter raised by the number of redirects made: the
    counter is put back to 0 only where a route is mounted. *)
Theorem unmatched_route_keeps_the_count (pattern_test : string → string → bool)
    (route : string) (st st' : Router) (settled : list Settled) (events : list Event) :
  navigate pattern_test route st = Some (settled, events, st') →
  last settled = Some (Fulfilled ResolverResult) →
  events = [] ∧ outlet st' = outlet st ∧ location st' = location st ∧
  routes st' = routes st ∧ updateComplete st' = true ∧
  redirectionCount st' = redirectionCount st + (length settled - 1) ∧
  ∃ q, hops pattern_test (routes st) (length settled - 1) route = Some q ∧
       getMatchingRoute pattern_test (routes st) q = None.
Proof. apply navigate_from_unmatched. Qed.

Lemma unmatched_route_keeps_the_count_witness :
  ∃ settled events st',
    navigate literal_test "a" (ready dead_end) = Some (settled, events, st') ∧
    last settled = Some (Fulfilled ResolverResult) ∧
    events = [] ∧ outlet st' = outlet (ready dead_end) ∧
    location st' = location (ready dead_end) ∧
    routes st' = routes (ready dead_end) ∧ updateComplete st' = true ∧
    redirectionCount st' = redirectionCount (ready dead_end) + (length settled - 1) ∧
    ∃ q, hops literal_test (routes (ready dead_end)) (length settled - 1) "a" = Some q ∧
         getMatchingRoute literal_test (routes (ready dead_end)) q = None.
Proof.
  destruct (navigate literal_test "a" (ready dead_end)) as [[[settled events] st']|] eqn:H;
    [|vm_compute in H; discriminate H].
  assert (last settled = Some (Fulfilled ResolverResult)) as Hl
    by (vm_compute in H; injection H as <- _ _; reflexivity).
  exists settled, events, st'. split; [reflexivity|]. split; [exact Hl|].
  exact (unmatched_route_keeps_the_count literal_test "a" (ready dead_end) st' settled events
           H Hl).
Defined.

(** X9. A navigation that ends with a route mounted has followed the
    redirects from the route it was asked for: the route given to the
    history and returned by the last invocation is the one where the
    redirects end, each invocation before the last is fulfilled with the
    value of [resolver(true)], and the redirect counter is back at 0. *)
Theorem mounted_route_is_where_redirects_end (pattern_test : string → string → bool)
    (route path : string) (st st' : Router) (settled : list Settled) (events : list Event) :
  navigate pattern_test route st = Some (settled, events, st') →
  last settled = Some (Fulfilled (RoutePath path)) →
  location st' = path ∧ redirectionCount st' = 0 ∧ updateComplete st' = true ∧
  hops pattern_test (routes st) (length settled - 1) route = Some path ∧
  settled = replicate (length settled - 1) (Fulfilled ResolverResult)
              ++ [Fulfilled (RoutePath path)].
Proof. apply navigate_from_mounted. Qed.

Lemma mounted_route_is_where_redirects_end_witness :
  ∃ settled events st',
    navigate literal_test "/away" (ready home_away) = Some (settled, events, st') ∧
    last settled = Some (Fulfilled (RoutePath "home")) ∧
    location st' = "home" ∧ redirectionCount st' = 0 ∧ updateComplete st' = true ∧
    hops literal_test (routes (ready home_away)) (length settled - 1) "/away" = Some "home" ∧
    settled = replicate (length settled - 1) (Fulfilled ResolverResult)
                ++ [Fulfilled (RoutePath "home")].
Proof.
  destruct (navigate literal_test "/away" (ready home_away)) as [[[settled events] st']|] eqn:H;
    [|vm_compute in H; discriminate H].
  assert (last settled = Some (Fulfilled (RoutePath "home"))) as Hl
    by (vm_compute in H; injection H as <- _ _; reflexivity).
  exists settled, events, st'. split; [reflexivity|]. split; [exact Hl|].
  exact (mounted_route_is_where_redirects_end literal_test "/away" "home" (ready home_away) st'
           settled events H Hl).
Defined.

(** X10. Once an invocation has thrown the circular-redirection error, the
    promise in [updateComplete] is never resolved: every later
    navigation, to whatever route, waits on it for ever.  It does
    nothing, and its promise is never settled. *)
Theorem no_navigation_after_the_error (pattern_test : string → string → bool)
    (route : string) (st st' : Router) (settled : list Settled) (events : list Event) :
  navigate pattern_test route st = Some (settled, events, st') →
  Rejected circular ∈ settled →
  ∀ route2, navigate pattern_test route2 st' = Some ([Pending], [], st').
Proof.
  intros Hn Hin route2.
  pose proof (navigate_from_thrown _ _ _ _ _ _ _ Hn Hin) as Hu.
  unfold navigate. rewrite navigate_from_S, Hu. done.
Qed.

Lemma no_navigation_after_the_error_witness :
  ∃ settled events st',
    navigate literal_test "a" (ready self_loop) = Some (settled, events, st') ∧
    Rejected circular ∈ settled ∧
    ∀ route2, navigate literal_test route2 st' = Some ([Pending], [], st').
Proof.
  destruct (navigate literal_test "a" (ready self_loop)) as [[[settled events] st']|] eqn:H;
    [|vm_compute in H; discriminate H].
  assert (Rejected circular ∈ settled) as Hin.
  { vm_compute in H. injection H as <- _ _. apply list_elem_of_In, in_rev. simpl. by left. }
  exists settled, events, st'. split; [reflexivity|]. split; [exact Hin|].
  exact (no_navigation_after_the_error literal_test "a" (ready self_loop) st' settled events
           H Hin).
Defined.

(** ** What a reconciliation leaves under the parent *)

(** The first element child of a reconciled parent is the reconciled
    first element child with the tag of [nodeToInsert], or
    [nodeToInsert], reconciled, when there was none. *)
Lemma replaceRouteNodes_from_first nodeToInsert chain parent :
  is_element parent = true → is_element nodeToInsert = true →
  ∃ child, is_element child = true ∧ tagName child = tagName nodeToInsert ∧
    firstElementChild (replaceRouteNodes_from (nodeToInsert :: chain) parent).1
      = Some (replaceRouteNodes_from chain child).1.
Proof.
  intros Hp Hn. rewrite replaceRouteNodes_from_cons. cbv zeta.
  destruct (split_firstElementChild _) as [[[before child] after]|] eqn:Hs.
  - apply split_firstElementChild_Some in Hs as (Hk & Hc & Hb).
    pose proof (kept_elements nodeToInsert (childNodes parent)) as Htag.
    rewrite Hk in Htag. apply Forall_app in Htag as [_ Htag].
    apply Forall_cons in Htag as [Htag _]. specialize (Htag Hc).
    exists child. split; [done|]. split; [done|].
    destruct (replaceRouteNodes_from chain child) as [child' events] eqn:Hr. cbn [fst].
    apply firstElementChild_split; [done|done|].
    replace child' with (replaceRouteNodes_from chain child).1 by (by rewrite Hr).
    by rewrite replaceRouteNodes_from_element.
  - exists nodeToInsert. split; [done|]. split; [done|].
    destruct (replaceRouteNodes_from chain nodeToInsert) as [inserted events] eqn:Hr. cbn [fst].
    match goal with |- context [with_childNodes parent (inserted :: ?k)] =>
      apply (firstElementChild_split parent [] inserted k Hp (Forall_nil_2 _))
    end.
    replace inserted with (replaceRouteNodes_from chain nodeToInsert).1 by (by rewrite Hr).
    by rewrite replaceRouteNodes_from_element.
Qed.

Lemma replaceRouteNodes_from_path chain : ∀ parent i el,
  is_element parent = true → Forall (λ el, is_element el = true) chain →
  chain !! i = Some el →
  ∃ n, descend (S i) (replaceRouteNodes_from chain parent).1 = Some n ∧
       is_element n = true ∧ tagName n = tagName el.
Proof.
  induction chain as [|nodeToInsert chain IH]; intros parent i el Hp Hch Hi; [done|].
  apply Forall_cons in Hch as [Hn Hch].
  destruct (replaceRouteNodes_from_first nodeToInsert chain parent Hp Hn)
    as (child & Hc & Ht & Hf).
  cbn [descend]. rewrite Hf. cbn [mbind option_bind].
  destruct i as [|i]; simpl in Hi.
  - inversion Hi; subst. eexists. split; [done|].
    by rewrite replaceRouteNodes_from_element, replaceRouteNodes_from_tagName.
  - by apply IH.
Qed.

(** X11. After a reconciliation the way down from the outlet through the
    first element children goes through elements with the tags of the
    chain, level by level: at depth [i + 1] an element with the tag of the
    [i]-th element of the chain. *)
Theorem mounted_path_has_the_tags_of_the_chain (componentChain : list Node) (outlet : Node)
    (i : nat) (el : Node) :
  is_element outlet = true →
  Forall (λ el, is_element el = true) componentChain →
  componentChain !! i = Some el →
  ∃ n, descend (S i) (replaceRouteNodes componentChain outlet 0).1 = Some n ∧
       is_element n = true ∧ tagName n = tagName el.
Proof.
  intros Ho Hch Hi. unfold replaceRouteNodes. rewrite drop_0.
  by apply replaceRouteNodes_from_path.
Qed.

(** An outlet with a text node, the elements of an earlier route and
    two elements left by something else; the chain of another route. *)
Definition mounted_page : Node :=
  Element 0 "OUTLET" SUndefined
    [CharacterData 1 "loading"; Element 2 "A" SUndefined [Element 3 "B" SUndefined []];
     Element 4 "X" SUndefined []; Element 5 "A" SUndefined []].

Definition desired_chain : list Node :=
  [Element 10 "A" SUndefined []; Element 11 "C" SUndefined []].

Lemma mounted_path_has_the_tags_of_the_chain_witness :
  is_element mounted_page = true ∧
  Forall (λ el, is_element el = true) desired_chain ∧
  desired_chain !! 1 = Some (Element 11 "C" SUndefined []) ∧
  ∃ n, descend 2 (replaceRouteNodes desired_chain mounted_page 0).1 = Some n ∧
       is_element n = true ∧ tagName n = tagName (Element 11 "C" SUndefined []).
Proof.
  assert (Forall (λ el, is_element el = true) desired_chain) as H by (repeat constructor).
  split; [reflexivity|]. split; [exact H|]. split; [reflexivity|].
  exact (mounted_path_has_the_tags_of_the_chain desired_chain mounted_page 1
           (Element 11 "C" SUndefined []) eq_refl H eq_refl).
Defined.

Lemma stays_kept nodeToInsert (nodes : list Node) :
  filter (λ n, negb (is_element n && invalid nodeToInsert n)) nodes =
  filter (λ n, negb (is_element n) || bool_decide (tagName n = tagName nodeToInsert)) nodes.
Proof.
  apply list_filter_iff. intros n. unfold invalid.
  destruct (is_element n); simpl; [|done].
  destruct (decide (tagName n = tagName nodeToInsert)) as [He|Hne].
  - rewrite (bool_decide_eq_true_2 _ He), bool_decide_eq_false_2; [done|]. by intros ?.
  - rewrite (bool_decide_eq_false_2 _ Hne), bool_decide_eq_true_2; done.
Qed.

(** X12. A reconciliation at one level removes the element children whose tag
    is not the one of [nodeToInsert], and only them: the text nodes of
    the parent and every element with that tag - not only the first one -
    stay, in their order.  When one of the elements has the tag, nothing
    is added; when none has, [nodeToInsert] is put before what stays. *)
Theorem reconciliation_keeps_text_and_matching_elements (nodeToInsert : Node)
    (chain : list Node) (parent : Node) :
  is_element parent = true →
  let after := childNodes (replaceRouteNodes_from (nodeToInsert :: chain) parent).1 in
  let stays (n : Node) :=
    negb (is_element n) || bool_decide (tagName n = tagName nodeToInsert) in
  Forall (λ n, is_element n = true → tagName n = tagName nodeToInsert) after ∧
  ((∃ el, el ∈ children parent ∧ tagName el = tagName nodeToInsert) ∧
     nid <$> after = nid <$> filter stays (childNodes parent)
   ∨
   Forall (λ el, tagName el ≠ tagName nodeToInsert) (children parent) ∧
     nid <$> after = nid nodeToInsert :: (nid <$> filter stays (childNodes parent))).
Proof.
  intros Hp. cbv zeta beta. rewrite <- stays_kept.
  rewrite replaceRouteNodes_from_cons. cbv zeta.
  pose proof (kept_elements nodeToInsert (childNodes parent)) as Htag.
  destruct (split_firstElementChild _) as [[[before child] rest]|] eqn:Hs.
  - apply split_firstElementChild_Some in Hs as (Hk & Hc & Hb).
    pose proof (replaceRouteNodes_from_shape chain child) as [cs Hsh].
    pose proof (replaceRouteNodes_from_tagName chain child) as Hct.
    pose proof (replaceRouteNodes_from_element chain child) as Hce.
    destruct (replaceRouteNodes_from chain child) as [child' events]. cbn [fst] in *.
    rewrite childNodes_with by done.
    rewrite Hk in Htag |- *.
    apply Forall_app in Htag as [Hbt Htag]. apply Forall_cons in Htag as [Hchild Hrt].
    split.
    { apply Forall_app. split; [done|]. constructor; [|done]. intros _. rewrite Hct. auto. }
    left. split.
    + exists child. split; [|auto].
      unfold children. apply list_elem_of_filter. split; [by rewrite Hc|].
      assert (child ∈ before ++ child :: rest) as Hin
        by (apply elem_of_app; right; left).
      rewrite <- Hk in Hin. by apply list_elem_of_filter in Hin as [_ ?].
    + rewrite !fmap_app, !fmap_cons. by rewrite Hsh, with_childNodes_nid.
  - pose proof (replaceRouteNodes_from_shape chain nodeToInsert) as [cs Hsh].
    pose proof (replaceRouteNodes_from_tagName chain nodeToInsert) as Hct.
    destruct (replaceRouteNodes_from chain nodeToInsert) as [inserted events]. cbn [fst] in *.
    rewrite childNodes_with by done.
    split; [constructor; [intros _; by rewrite Hct|done]|].
    right. split.
    + apply split_firstElementChild_None in Hs.
      apply Forall_forall. intros el [Hel Hin]%list_elem_of_filter Ht.
      rewrite Forall_forall in Hs.
      assert (is_element el = false) as Hf.
      { apply Hs. apply list_elem_of_filter. split; [|done].
        rewrite (not_invalid _ _ Ht). by destruct (is_element el). }
      by rewrite Hf in Hel.
    + rewrite fmap_cons. by rewrite Hsh, with_childNodes_nid.
Qed.

Lemma reconciliation_keeps_text_and_matching_elements_witness :
  is_element mounted_page = true ∧
  let after := childNodes (replaceRouteNodes_from desired_chain mounted_page).1 in
  let stays (n : Node) :=
    negb (is_element n) || bool_decide (tagName n = tagName (Element 10 "A" SUndefined [])) in
  Forall (λ n, is_element n = true → tagName n = tagName (Element 10 "A" SUndefined [])) after ∧
  ((∃ el, el ∈ children mounted_page ∧ tagName el = tagName (Element 10 "A" SUndefined [])) ∧
     nid <$> after = nid <$> filter stays (childNodes mounted_page)
   ∨
   Forall (λ el, tagName el ≠ tagName (Element 10 "A" SUndefined [])) (children mounted_page) ∧
     nid <$> after
       = nid (Element 10 "A" SUndefined []) :: (nid <$> filter stays (childNodes mounted_page))).
Proof.
  split; [reflexivity|].
  exact (reconciliation_keeps_text_and_matching_elements
           (Element 10 "A" SUndefined []) [Element 11 "C" SUndefined []] mounted_page eq_refl).
Defined.

(** ** What is removed and what is inserted *)

(** X13. [reversedRouteNodeRemoval] removes every node below [node], text
    nodes included, each one once and after all the nodes below it, and
    then [node] itself when [removeParent] is set - only then.  It inserts
    nothing. *)
Theorem teardown_removes_every_node_below_once (node : Node) (removeParent : bool) :
  removed (reversedRouteNodeRemoval node removeParent)
    = nid <$> (descendants node ++ if removeParent then [node] else []) ∧
  inserted (reversedRouteNodeRemoval node removeParent) = [].
Proof.
  rewrite reversedRouteNodeRemoval_postorder, removed_app, inserted_app.
  rewrite removed_removals, inserted_removals, fmap_app.
  destruct removeParent; simpl.
  - by rewrite removed_removeRouteElement, inserted_removeRouteElement.
  - done.
Qed.

Lemma inserted_teardown node removeParent :
  inserted (reversedRouteNodeRemoval node removeParent) = [].
Proof.
  rewrite reversedRouteNodeRemoval_postorder, inserted_app, inserted_removals.
  destruct removeParent; [apply inserted_removeRouteElement|done].
Qed.

Lemma inserted_teardowns (els : list Node) :
  inserted (els ≫= (λ el, reversedRouteNodeRemoval el true)) = [].
Proof.
  induction els as [|el els IH]; [done|].
  change (inserted (reversedRouteNodeRemoval el true
                      ++ (els ≫= (λ el, reversedRouteNodeRemoval el true))) = []).
  by rewrite inserted_app, inserted_teardown, IH.
Qed.

(** Under an element without child nodes the whole chain is inserted,
    each element into the one before it, and nothing is removed. *)
Lemma replaceRouteNodes_from_empty chain : ∀ parent,
  childNodes parent = [] →
  Forall (λ el, childNodes el = []) chain →
  inserted (replaceRouteNodes_from chain parent).2
    = zip (nid parent :: (nid <$> chain)) (nid <$> chain) ∧
  removed (replaceRouteNodes_from chain parent).2 = [].
Proof.
  induction chain as [|nodeToInsert chain IH]; intros parent Hp Hch.
  - simpl. rewrite reversedRouteNodeRemoval_postorder. unfold descendants. by rewrite Hp.
  - apply Forall_cons in Hch as [Hn Hch].
    rewrite replaceRouteNodes_from_cons. unfold children. rewrite Hp. cbv zeta. simpl.
    destruct (IH nodeToInsert Hn Hch) as [Hi Hr].
    destruct (replaceRouteNodes_from chain nodeToInsert) as [ins events]. cbn [fst snd] in *.
    rewrite inserted_cons_insert, removed_cons_insert, inserted_app, removed_app.
    by rewrite inserted_animate, removed_animate, Hi, Hr.
Qed.

Lemma replaceRouteNodes_from_nid chain parent :
  nid (replaceRouteNodes_from chain parent).1 = nid parent.
Proof.
  destruct (replaceRouteNodes_from_shape chain parent) as [cs ->].
  apply with_childNodes_nid.
Qed.

Lemma replaceRouteNodes_from_suffix chain : ∀ parent,
  is_element parent = true →
  Forall (λ el, is_element el = true ∧ childNodes el = []) chain →
  ∃ k anchor before after,
    k ≤ length chain ∧
    descend k (replaceRouteNodes_from chain parent).1 = Some anchor ∧
    inserted (replaceRouteNodes_from chain parent).2
      = zip (nid anchor :: (nid <$> drop k chain)) (nid <$> drop k chain) ∧
    (replaceRouteNodes_from chain parent).2 = before ++ after ∧
    inserted before = [] ∧ removed after = [].
Proof.
  induction chain as [|nodeToInsert chain IH]; intros parent Hp Hch.
  - exists 0, (with_childNodes parent []), (reversedRouteNodeRemoval parent false), [].
    simpl. rewrite app_nil_r, inserted_teardown. done.
  - apply Forall_cons in Hch as [[Hn Hnc] Hch].
    pose proof (replaceRouteNodes_from_nid (nodeToInsert :: chain) parent) as Hid.
    rewrite replaceRouteNodes_from_cons in Hid |- *. cbv zeta in Hid |- *.
    destruct (split_firstElementChild _) as [[[bef child] aft]|] eqn:Hs.
    + apply split_firstElementChild_Some in Hs as (Hk & Hc & Hb).
      destruct (IH child Hc Hch) as (k & anchor & before & after & Hle & Hd & Hi & He & Hib & Hra).
      pose proof (replaceRouteNodes_from_element chain child) as Hce.
      destruct (replaceRouteNodes_from chain child) as [child' events]. cbn [fst snd] in *.
      exists (S k), anchor,
        ((filter (invalid nodeToInsert) (children parent)
            ≫= (λ el, reversedRouteNodeRemoval el true)) ++ before), after.
      split; [simpl; lia|]. split.
      { cbn [descend]. rewrite firstElementChild_split by (done || by rewrite Hce). done. }
      split; [by rewrite inserted_app, inserted_teardowns|].
      split; [by rewrite He, app_assoc|].
      split; [by rewrite inserted_app, inserted_teardowns, Hib|done].
    + assert (Forall (λ el, childNodes el = []) chain) as Hch'.
      { eapply Forall_impl; [exact Hch|]. by intros ? [_ ?]. }
      destruct (replaceRouteNodes_from_empty chain nodeToInsert Hnc Hch') as [Hi Hr].
      destruct (replaceRouteNodes_from chain nodeToInsert) as [ins events]. cbn [fst snd] in *.
      eexists 0, _,
        (filter (invalid nodeToInsert) (children parent)
           ≫= (λ el, reversedRouteNodeRemoval el true)), _.
      split; [lia|]. split; [done|]. split.
      { rewrite Hid, !inserted_app, inserted_teardowns, inserted_animate. simpl.
        by rewrite Hi. }
      split; [done|]. split; [apply inserted_teardowns|].
      by rewrite !removed_app, removed_animate, Hr.
Qed.

(** X14. When the elements of the chain are new (they have no child nodes),
    the elements that a reconciliation inserts are the last ones of the
    chain, from some depth [k] on: the first of them is inserted into the
    element found [k] levels below the outlet, each of the others into the
    one before it.  Every removal comes before the first insertion. *)
Theorem insertions_are_the_end_of_the_chain (componentChain : list Node) (outlet : Node) :
  is_element outlet = true →
  Forall (λ el, is_element el = true ∧ childNodes el = []) componentChain →
  ∃ k anchor before after,
    k ≤ length componentChain ∧
    descend k (replaceRouteNodes componentChain outlet 0).1 = Some anchor ∧
    inserted (replaceRouteNodes componentChain outlet 0).2
      = zip (nid anchor :: (nid <$> drop k componentChain)) (nid <$> drop k componentChain) ∧
    (replaceRouteNodes componentChain outlet 0).2 = before ++ after ∧
    inserted before = [] ∧ removed after = [].
Proof.
  intros Ho Hch. unfold replaceRouteNodes. rewrite drop_0.
  by apply replaceRouteNodes_from_suffix.
Qed.

Lemma insertions_are_the_end_of_the_chain_witness :
  is_element mounted_page = true ∧
  Forall (λ el, is_element el = true ∧ childNodes el = []) desired_chain ∧
  ∃ k anchor before after,
    k ≤ length desired_chain ∧
    descend k (replaceRouteNodes desired_chain mounted_page 0).1 = Some anchor ∧
    inserted (replaceRouteNodes desired_chain mounted_page 0).2
      = zip (nid anchor :: (nid <$> drop k desired_chain)) (nid <$> drop k desired_chain) ∧
    (replaceRouteNodes desired_chain mounted_page 0).2 = before ++ after ∧
    inserted before = [] ∧ removed after = [].
Proof.
  assert (Forall (λ el, is_element el = true ∧ childNodes el = []) desired_chain) as H
    by (repeat constructor).
  split; [reflexivity|]. split; [exact H|].
  exact (insertions_are_the_end_of_the_chain desired_chain mounted_page eq_refl H).
Defined.

(** ** Elements that a reconciliation retains *)

Lemma routeAnimation_with n cs : routeAnimation (with_childNodes n cs) = routeAnimation n.
Proof. by destruct n. Qed.

Lemma replaceRouteNodes_from_routeAnimation chain parent :
  routeAnimation (replaceRouteNodes_from chain parent).1 = routeAnimation parent.
Proof.
  destruct (replaceRouteNodes_from_shape chain parent) as [cs ->].
  apply routeAnimation_with.
Qed.

(** X15. Where the parent has an element with the tag of [nodeToInsert], the
    first such element is retained: it stays the element that it was,
    with the animation that was attached to it when it was mounted.  The
    element made for this level and the animation attached to it are not
    used, and nothing is inserted at this level. *)
Theorem retained_element_keeps_its_animation (nodeToInsert : Node) (chain : list Node)
    (parent child : Node) :
  is_element parent = true →
  head (filter (λ n, bool_decide (tagName n = tagName nodeToInsert)) (children parent))
    = Some child →
  ∃ n, firstElementChild (replaceRouteNodes_from (nodeToInsert :: chain) parent).1 = Some n ∧
       nid n = nid child ∧ routeAnimation n = routeAnimation child ∧
       inserted (replaceRouteNodes_from (nodeToInsert :: chain) parent).2
         = inserted (replaceRouteNodes_from chain child).2.
Proof.
  intros Hp Hh. unfold children in Hh.
  rewrite <- kept_first_element, split_firstElementChild_head in Hh.
  rewrite replaceRouteNodes_from_cons. cbv zeta.
  destruct (split_firstElementChild _) as [[[before c] after]|] eqn:Hs; [|done].
  simpl in Hh. inversion Hh; subst c. clear Hh.
  apply split_firstElementChild_Some in Hs as (Hk & Hc & Hb).
  pose proof (replaceRouteNodes_from_nid chain child) as Hid.
  pose proof (replaceRouteNodes_from_routeAnimation chain child) as Han.
  pose proof (replaceRouteNodes_from_element chain child) as Hel.
  destruct (replaceRouteNodes_from chain child) as [child' events]. cbn [fst snd] in *.
  exists child'. split; [apply firstElementChild_split; [done|done|by rewrite Hel]|].
  split; [done|]. split; [done|].
  by rewrite inserted_app, inserted_teardowns.
Qed.

Lemma retained_element_keeps_its_animation_witness :
  is_element mounted_page = true ∧
  head (filter (λ n, bool_decide (tagName n = tagName (Element 10 "A" SUndefined [])))
          (children mounted_page))
    = Some (Element 2 "A" SUndefined [Element 3 "B" SUndefined []]) ∧
  ∃ n, firstElementChild (replaceRouteNodes_from desired_chain mounted_page).1 = Some n ∧
       nid n = nid (Element 2 "A" SUndefined [Element 3 "B" SUndefined []]) ∧
       routeAnimation n = routeAnimation (Element 2 "A" SUndefined [Element 3 "B" SUndefined []]) ∧
       inserted (replaceRouteNodes_from desired_chain mounted_page).2
         = inserted (replaceRouteNodes_from [Element 11 "C" SUndefined []]
                       (Element 2 "A" SUndefined [Element 3 "B" SUndefined []])).2.
Proof.
  split; [reflexivity|]. split; [reflexivity|].
  exact (retained_element_keeps_its_animation (Element 10 "A" SUndefined [])
           [Element 11 "C" SUndefined []] mounted_page
           (Element 2 "A" SUndefined [Element 3 "B" SUndefined []]) eq_refl eq_refl).
Defined.

(** ** What a reconciliation leaves alone *)

(** X16. When the nodes have identities of their own, nothing that a
    reconciliation does is done to the outlet itself: the outlet is not
    removed, no animation is played on it, and it is not inserted
    anywhere.  Only nodes below it and elements of the chain are. *)
Theorem outlet_is_left_in_place (componentChain : list Node) (outlet : Node) (e : Event) :
  NoDup (nid <$> (outlet :: descendants outlet ++ (componentChain ≫= postorder))) →
  e ∈ (replaceRouteNodes componentChain outlet 0).2 →
  subject e ≠ nid outlet ∧
  subject e ∈ nid <$> (descendants outlet ++ (componentChain ≫= postorder)).
Proof.
  intros Hnd He. unfold replaceRouteNodes in He. rewrite drop_0 in He.
  apply replaceRouteNodes_from_subject in He.
  split; [|done].
  rewrite fmap_cons in Hnd. apply NoDup_cons in Hnd as [Hnot _].
  intros Heq. by rewrite Heq in He.
Qed.

Lemma outlet_is_left_in_place_witness :
  NoDup (nid <$> (mounted_page :: descendants mounted_page ++ (desired_chain ≫= postorder))) ∧
  Remove 4 ∈ (replaceRouteNodes desired_chain mounted_page 0).2 ∧
  subject (Remove 4) ≠ nid mounted_page ∧
  subject (Remove 4) ∈ nid <$> (descendants mounted_page ++ (desired_chain ≫= postorder)).
Proof.
  assert (NoDup (nid <$> (mounted_page :: descendants mounted_page
                            ++ (desired_chain ≫= postorder)))) as H1
    by (refine (bool_decide_unpack _ _); vm_compute; exact I).
  assert (Remove 4 ∈ (replaceRouteNodes desired_chain mounted_page 0).2) as H2
    by (vm_compute; left).
  split; [exact H1|]. split; [exact H2|].
  exact (outlet_is_left_in_place desired_chain mounted_page (Remove 4) H1 H2).
Defined.

(** ** What a navigation mounts *)





(** ** Every navigation ends *)

Lemma navigate_from_length pattern_test fuel : ∀ route st settled events st',
  navigate_from pattern_test fuel route st = Some (settled, events, st') →
  length settled ≤ fuel.
Proof.
  induction fuel as [|fuel IH]; intros route st settled events st' Hn; [done|].
  rewrite navigate_from_S in Hn.
  destruct (negb (updateComplete st)); [inversion Hn; simpl; lia|].
  destruct (getMatchingRoute _ _ _) as [fr|]; [|inversion Hn; simpl; lia]. cbv zeta in Hn.
  destruct (whereToRedirect fr) as [target|].
  - destruct (MAX_REDIRECTIONS <? redirectionCount st); [inversion Hn; simpl; lia|].
    destruct (navigate_from _ fuel target _) as [[[s e] st1]|] eqn:Hrec; [|done].
    inversion Hn; subst. apply IH in Hrec. simpl. lia.
  - destruct (replaceRouteNodes _ _ _). inversion Hn. simpl. lia.
Qed.

(** X18. The redirect counter bounds every navigation: whatever the table,
    a call of [navigate] leads to [MAX_REDIRECTIONS + 2] invocations at
    most, fewer by the value that the counter starts with, and then
    nothing more is started.  It leaves the table as it is. *)
Theorem redirects_are_bounded (pattern_test : string → string → bool)
    (route : string) (st : Router) :
  ∃ settled events st',
    navigate pattern_test route st = Some (settled, events, st') ∧
    0 < length settled ∧
    length settled ≤ S (S MAX_REDIRECTIONS - redirectionCount st) ∧
    routes st' = routes st.
Proof.
  destruct (navigate_total pattern_test route st) as [[[settled events] st'] Hn].
  exists settled, events, st'. split; [done|].
  split.
  { pose proof (navigate_from_nonempty _ _ _ _ _ _ _ Hn). destruct settled; [done|simpl; lia]. }
  split; [by eapply navigate_from_length|by eapply navigate_from_routes].
Qed.

(** ** From the declarations to the outlet *)




(** ** The order of the setters *)

Section SetterOrder.
Context {H : Type} `{!RouteHistory H}.

Lemma Permutation_three {A} (x y z : A) (l : list A) :
  l ≡ₚ [x; y; z] →
  l = [x; y; z] ∨ l = [x; z; y] ∨ l = [y; x; z] ∨
  l = [y; z; x] ∨ l = [z; x; y] ∨ l = [z; y; x].
Proof.
  intros Hp. symmetry in Hp.
  apply Permutation_cons_inv_l in Hp as (l1 & l2 & -> & Hp).
  apply Permutation_length_2_inv in Hp.
  destruct l1 as [|a [|b [|c l1]]]; simpl in *; destruct Hp as [Hp|Hp];
    simplify_eq; auto 10.
Qed.

(** X20. On a new router the first navigation starts when the last of
    outlet and routes is set with a historian in place: whatever the
    order of the three setters, one navigation is started, to the route
    that the historian gives once its history is cleared - unless
    [setHistorian] comes last.  [setHistorian] does not initialize: when
    it is called last nothing is started and the history is not cleared. *)
Theorem navigation_starts_unless_the_historian_comes_last (stack : nat)
    (historian : H) (slot : nat) (element : Node) (shadowRoot : option (list Node))
    (routes : list Route) (h h' : heap) (table : list loc) (cs : list Call) :
  parseRoutes0 stack routes h = Some (table, h') →
  cs ≡ₚ [SetHistorian historian; SetOutlet slot element shadowRoot; SetRoutes routes] →
  ∃ this started,
    calls stack cs constructed h = Some (this, h', started) ∧
    Fields.outlet this = Some element ∧ Fields.routes this = Some table ∧
    match last cs with
    | Some (SetHistorian _) => started = [] ∧ Fields.history this = Some historian
    | _ => started = [getRoute (clearHistory historian)] ∧
           Fields.history this = Some (clearHistory historian)
    end.
Proof.
  intros Hp Hperm.
  apply Permutation_three in Hperm as [-> | [-> | [-> | [-> | [-> | ->]]]]];
    simpl; unfold setRoutes; rewrite Hp; simpl; eexists _, _; done.
Qed.
End SetterOrder.

(** A historian that keeps the routes it was given, the current one
    first, and starts again from ['/'] when cleared. *)
#[global] Instance list_history : RouteHistory (list string) := {
  getRoute history := default "/" (head history);
  setRoute route history := route :: history;
  clearHistory _ := []
}.

Lemma navigation_starts_unless_the_historian_comes_last_witness :
  ∃ table h',
    parseRoutes0 3 home_away [] = Some (table, h') ∧
    [SetRoutes home_away; SetHistorian ["/away"];
     SetOutlet 1 (Element 0 "DIV" SUndefined []) None]
      ≡ₚ [SetHistorian ["/away"]; SetOutlet 1 (Element 0 "DIV" SUndefined []) None;
          SetRoutes home_away] ∧
    ∃ this started,
      calls 3 [SetRoutes home_away; SetHistorian ["/away"];
               SetOutlet 1 (Element 0 "DIV" SUndefined []) None] constructed []
        = Some (this, h', started) ∧
      Fields.outlet this = Some (Element 0 "DIV" SUndefined []) ∧
      Fields.routes this = Some table ∧
      match last [SetRoutes home_away; SetHistorian ["/away"];
                  SetOutlet 1 (Element 0 "DIV" SUndefined []) None] with
      | Some (SetHistorian _) => started = [] ∧ Fields.history this = Some ["/away"]
      | _ => started = [getRoute (clearHistory ["/away"])] ∧
             Fields.history this = Some (clearHistory ["/away"])
      end.
Proof.
  destruct (parseRoutes0 3 home_away []) as [[table h']|] eqn:Hp;
    [|vm_compute in Hp; discriminate Hp].
  assert ([SetRoutes home_away; SetHistorian ["/away"];
           SetOutlet 1 (Element 0 "DIV" SUndefined []) None]
          ≡ₚ [SetHistorian ["/away"]; SetOutlet 1 (Element 0 "DIV" SUndefined []) None;
              SetRoutes home_away]) as Hperm.
  { etrans; [apply Permutation_swap|]. apply Permutation_skip, Permutation_swap. }
  exists table, h'. split; [reflexivity|]. split; [exact Hperm|].
  exact (navigation_starts_unless_the_historian_comes_last 3 ["/away"] 1
           (Element 0 "DIV" SUndefined []) None home_away [] h' table _ Hp Hperm).
Defined.
